(** * ClawRouter: the proxy runtime and the key resolver

    A shallow embedding of [src/proxy.ts] and of the API-key module
    ([resolveProviderAccess] and its helpers), with the properties the
    specification states about them.

    Conventions.
    - Identifiers (provider ids, model ids) are [string]s; the role of a
      message is a [role_value], a string or what [normalizeMessageRoles]
      can put in its place.
    - Text that the regular expressions of the proxy run over is a
      [jsstring]: the list of the UTF-16 code units of the JavaScript
      string, each a [Z].  The regular expressions of the source have no
      [u] flag, so they work on code units.
    - Maps ([Record<string, _>], [Map<string, _>]) are [gmap string _];
      [ROLE_MAPPINGS], an object literal indexed by the role of a
      message, is a [PlainObject], read with the members it inherits. *)

From Stdlib Require Import ZArith Lia Ascii String.
From stdpp Require Import gmap strings list.

Local Open Scope Z_scope.

(** ** JavaScript strings as code units *)

Abbreviation jsstring := (list Z).

Definition code (a : ascii) : Z := Z.of_N (N_of_ascii a).

Fixpoint lit (s : string) : jsstring :=
  match s with
  | EmptyString => []
  | String a s' => code a :: lit s'
  end.

(** U+FF5C, the full-width vertical line of the sentinel tokens. *)
Definition FULLWIDTH_BAR : Z := 65372.

(** [String.prototype.startsWith]. *)
Fixpoint startsWith (pre s : jsstring) : bool :=
  match pre, s with
  | [], _ => true
  | _ :: _, [] => false
  | a :: pre', b :: s' => (a =? b) && startsWith pre' s'
  end.

(** [String.prototype.includes]. *)
Fixpoint includes (needle s : jsstring) : bool :=
  startsWith needle s ||
  match s with
  | [] => false
  | _ :: s' => includes needle s'
  end.

(** ** Regular expressions

    The fragment of ECMAScript regular expressions that the source uses,
    with the backtracking semantics of the language: alternatives and
    quantifiers are tried in priority order and the first way to complete
    the whole match wins. *)

Inductive citem : Type :=
  | CChar (c : Z)
  | CRange (lo hi : Z)
  | CSpace                      (* \s *)
  | CNonSpace.                  (* \S *)

Inductive regex : Type :=
  | Eps
  | Chr (c : Z)                           (* a literal character *)
  | Dot                                   (* .  *)
  | Cls (negated : bool) (items : list citem)   (* [...] and [^...] *)
  | Seq (r1 r2 : regex)
  | Alt (r1 r2 : regex)                   (* r1|r2 *)
  | Opt (r : regex)                       (* r? *)
  | Star (greedy : bool) (r : regex)      (* r* and r*? *)
  | WordB.                                (* \b *)

(** WhiteSpace and LineTerminator code units: what [\s] matches. *)
Definition is_space (c : Z) : bool :=
  (c =? 9) || (c =? 10) || (c =? 11) || (c =? 12) || (c =? 13) || (c =? 32)
  || (c =? 160) || (c =? 5760) || ((8192 <=? c) && (c <=? 8202))
  || (c =? 8232) || (c =? 8233) || (c =? 8239) || (c =? 8287)
  || (c =? 12288) || (c =? 65279).

(** What [.] does not match. *)
Definition is_line_terminator (c : Z) : bool :=
  (c =? 10) || (c =? 13) || (c =? 8232) || (c =? 8233).

(** What [\w] matches; [\b] is defined from it. *)
Definition is_word (c : Z) : bool :=
  ((48 <=? c) && (c <=? 57)) || ((65 <=? c) && (c <=? 90)) || (c =? 95)
  || ((97 <=? c) && (c <=? 122)).

Definition is_word_at (o : option Z) : bool :=
  match o with
  | Some c => is_word c
  | None => false
  end.

(** Canonicalize of the [i] flag, for the patterns of this program: their
    letters are ASCII, and a code unit above 127 never canonicalizes to
    an ASCII one, so only [a]-[z] need folding. *)
Definition canon (c : Z) : Z :=
  if (97 <=? c) && (c <=? 122) then c - 32 else c.

Definition chr_eq (ic : bool) (c x : Z) : bool :=
  if ic then canon c =? canon x else c =? x.

Definition in_item (x : Z) (it : citem) : bool :=
  match it with
  | CChar c => x =? c
  | CRange lo hi => (lo <=? x) && (x <=? hi)
  | CSpace => is_space x
  | CNonSpace => negb (is_space x)
  end.

Definition in_class (negated : bool) (items : list citem) (x : Z) : bool :=
  xorb negated (existsb (in_item x) items).

(** The loop of a quantifier [r*] or [r*?]: [body] matches one more
    [r], [k] goes on after the quantifier; [n] bounds the number of
    iterations, each of which consumes at least one code unit (an
    iteration that consumes nothing is refused, as in the language). *)
Fixpoint star_loop {A : Type}
    (body : option Z → jsstring → (option Z → jsstring → option A) → option A)
    (greedy : bool) (k : option Z → jsstring → option A)
    (n : nat) (p : option Z) (s : jsstring) {struct n} : option A :=
  match n with
  | O => k p s
  | S n' =>
      let again :=
        body p s
          (fun p' s' =>
             if (length s' <? length s)%nat then star_loop body greedy k n' p' s'
             else None) in
      if greedy then
        match again with
        | Some t => Some t
        | None => k p s
        end
      else
        match k p s with
        | Some t => Some t
        | None => again
        end
  end.

(** The matcher, in continuation-passing style.  [prev] is the code unit
    before the current position (for [\b]), [s] the input from the
    current position on; the continuation [k] is given the same two
    once the expression has matched, and its failure makes the matcher
    try its next alternative. *)
Fixpoint rmatch {A : Type} (ic : bool) (r : regex) (prev : option Z) (s : jsstring)
    (k : option Z → jsstring → option A) {struct r} : option A :=
  match r with
  | Eps => k prev s
  | Chr c =>
      match s with
      | x :: s' => if chr_eq ic c x then k (Some x) s' else None
      | [] => None
      end
  | Dot =>
      match s with
      | x :: s' => if is_line_terminator x then None else k (Some x) s'
      | [] => None
      end
  | Cls negated items =>
      match s with
      | x :: s' => if in_class negated items x then k (Some x) s' else None
      | [] => None
      end
  | Seq r1 r2 => rmatch ic r1 prev s (fun p s' => rmatch ic r2 p s' k)
  | Alt r1 r2 =>
      match rmatch ic r1 prev s k with
      | Some t => Some t
      | None => rmatch ic r2 prev s k
      end
  | Opt r1 =>
      match rmatch ic r1 prev s k with
      | Some t => Some t
      | None => k prev s
      end
  | Star greedy r1 => star_loop (rmatch ic r1) greedy k (length s) prev s
  | WordB =>
      if xorb (is_word_at prev) (is_word_at (head s)) then k prev s else None
  end.

(** One attempt at one position; the result is the input left after the
    match. *)
Definition regex_exec (ic : bool) (r : regex) (prev : option Z) (s : jsstring)
    : option jsstring :=
  rmatch ic r prev s (fun _ t => Some t).

(** [RegExp.prototype.test] of an expression without the [g] flag: is
    there a match at some position. *)
Fixpoint regex_search (ic : bool) (r : regex) (prev : option Z) (s : jsstring) : bool :=
  match regex_exec ic r prev s with
  | Some _ => true
  | None =>
      match s with
      | [] => false
      | x :: s' => regex_search ic r (Some x) s'
      end
  end.

Definition regex_test (ic : bool) (r : regex) (s : jsstring) : bool :=
  regex_search ic r None s.

(** [s.replace(re, "")] for an expression with the [g] flag: the matches
    are found from left to right, each search starting where the former
    match ended, and are deleted.  [skip] counts the code units of the
    current match that are still to be dropped. *)
Fixpoint remove_go (ic : bool) (r : regex) (prev : option Z) (skip : nat)
    (s : jsstring) : jsstring :=
  match s with
  | [] => []
  | x :: s' =>
      match skip with
      | S n => remove_go ic r (Some x) n s'
      | O =>
          match regex_exec ic r prev s with
          | Some rest =>
              match (length s - length rest)%nat with
              | O => x :: remove_go ic r (Some x) O s'
              | S n => remove_go ic r (Some x) n s'
              end
          | None => x :: remove_go ic r (Some x) O s'
          end
      end
  end.

Definition remove_all (ic : bool) (r : regex) (s : jsstring) : jsstring :=
  remove_go ic r None O s.

(** Building blocks for writing the expressions of the source. *)
Fixpoint seqs (rs : list regex) : regex :=
  match rs with
  | [] => Eps
  | [r] => r
  | r :: rs' => Seq r (seqs rs')
  end.

Fixpoint alts (r : regex) (rs : list regex) : regex :=
  match rs with
  | [] => r
  | r' :: rs' => Alt r (alts r' rs')
  end.

Definition word (s : string) : regex := seqs (map Chr (lit s)).

Definition ch (a : ascii) : regex := Chr (code a).

(** ** Upstream errors that trigger a fallback *)

Definition PROVIDER_ERROR_PATTERNS : list regex :=
  let any := Star true Dot in
  [ word "billing";
    seqs [word "insufficient"; any; word "balance"];
    word "credits";
    seqs [word "quota"; any; word "exceeded"];
    seqs [word "rate"; any; word "limit"];
    seqs [word "model"; any; word "unavailable"];
    seqs [word "service"; any; word "unavailable"];
    word "capacity";
    word "overloaded";
    seqs [word "temporarily"; any; word "unavailable"];
    seqs [word "api"; any; word "key"; any; word "invalid"];
    seqs [word "authentication"; any; word "failed"] ].

Definition FALLBACK_STATUS_CODES : list Z :=
  [400; 401; 402; 403; 429; 500; 502; 503; 504].

(** [PROVIDER_ERROR_PATTERNS.some((pattern) => pattern.test(body))]; every
    pattern has the [i] flag. *)
Definition matchesErrorPattern (body : jsstring) : bool :=
  existsb (fun pattern => regex_test true pattern body) PROVIDER_ERROR_PATTERNS.

Definition isProviderError (status : Z) (body : jsstring) : bool :=
  if negb (existsb (Z.eqb status) FALLBACK_STATUS_CODES) then false
  else if 500 <=? status then true
  else matchesErrorPattern body.

(** ** Thinking tokens *)

Definition BAR : regex := Cls false [CChar FULLWIDTH_BAR; CChar (code "|")].
Definition NOT_ANGLE : regex := Cls true [CChar (code "<"); CChar (code ">")].
Definition NOT_GT : regex := Cls true [CChar (code ">")].
Definition ANY : regex := Cls false [CSpace; CNonSpace].
Definition SPACES : regex := Star true (Cls false [CSpace]).

(** [(?:think(?:ing)?|thought|antthinking)] *)
Definition TAG_NAME : regex :=
  alts (Seq (word "think") (Opt (word "ing"))) [word "thought"; word "antthinking"].

(** [/<[｜|][^<>]*begin[^<>]*[｜|]>[\s\S]*?<[｜|][^<>]*end[^<>]*[｜|]>/gi] *)
Definition KIMI_BLOCK_RE : regex :=
  seqs [ ch "<"; BAR; Star true NOT_ANGLE; word "begin"; Star true NOT_ANGLE; BAR; ch ">";
         Star false ANY;
         ch "<"; BAR; Star true NOT_ANGLE; word "end"; Star true NOT_ANGLE; BAR; ch ">" ].

(** [/<[｜|][^<>]*[｜|]>/g] *)
Definition KIMI_TOKEN_RE : regex :=
  seqs [ ch "<"; BAR; Star true NOT_ANGLE; BAR; ch ">" ].

(** [/<\s*\/?\s*(?:think(?:ing)?|thought|antthinking)\b[^>]*>/gi] *)
Definition THINKING_TAG_RE : regex :=
  seqs [ ch "<"; SPACES; Opt (ch "/"); SPACES; TAG_NAME; WordB; Star true NOT_GT; ch ">" ].

(** [/<\s*(?:think(?:ing)?|thought|antthinking)\b[^>]*>[\s\S]*?<\s*\/\s*(?:think(?:ing)?|thought|antthinking)\s*>/gi] *)
Definition THINKING_BLOCK_RE : regex :=
  seqs [ ch "<"; SPACES; TAG_NAME; WordB; Star true NOT_GT; ch ">";
         Star false ANY;
         ch "<"; SPACES; ch "/"; SPACES; TAG_NAME; SPACES; ch ">" ].

Definition stripThinkingTokens (content : jsstring) : jsstring :=
  match content with
  | [] => content
  | _ =>
      let cleaned := remove_all true KIMI_BLOCK_RE content in
      let cleaned := remove_all false KIMI_TOKEN_RE cleaned in
      let cleaned := remove_all true THINKING_BLOCK_RE cleaned in
      let cleaned := remove_all true THINKING_TAG_RE cleaned in
      cleaned
  end.

(** ** API keys and provider access *)

Record ProviderConfig : Type := {
  apiKey : string;
  baseUrl : option string;      (* overrides the default endpoint *)
}.

Record ApiKeysConfig : Type := {
  providers : gmap string ProviderConfig;
}.

(** Truthiness of a string: every string but the empty one. *)
Definition truthy (s : string) : bool := negb (String.eqb s "").

Definition truthy_opt (o : option string) : bool :=
  match o with
  | Some s => truthy s
  | None => false
  end.

(** [a ?? b] *)
Definition nullish {A : Type} (a b : option A) : option A :=
  match a with
  | Some _ => a
  | None => b
  end.

Definition PROVIDER_ENDPOINTS : gmap string string :=
  list_to_map
    [ ("openai", "https://api.openai.com/v1");
      ("anthropic", "https://api.anthropic.com/v1");
      ("google", "https://generativelanguage.googleapis.com/v1beta");
      ("xai", "https://api.x.ai/v1");
      ("deepseek", "https://api.deepseek.com/v1");
      ("moonshot", "https://api.moonshot.cn/v1");
      ("nvidia", "https://integrate.api.nvidia.com/v1");
      ("openrouter", "https://openrouter.ai/api/v1") ]%string.

Definition OPENAI_COMPATIBLE_PROVIDERS : gset string :=
  list_to_set [ "openai"; "xai"; "deepseek"; "moonshot"; "nvidia" ]%string.

Definition getApiKey (config : ApiKeysConfig) (provider : string) : option string :=
  apiKey <$> providers config !! provider.

Definition getProviderBaseUrl (config : ApiKeysConfig) (provider : string) : option string :=
  nullish (providers config !! provider ≫= baseUrl) (PROVIDER_ENDPOINTS !! provider).

Definition getProviderFromModel (modelId : string) : string :=
  match String.index 0 "/" modelId with
  | Some (S n) => String.substring 0 (S n) modelId
  | _ => modelId
  end.

Definition hasOpenRouter (config : ApiKeysConfig) : bool :=
  truthy_opt (getApiKey config "openrouter").

Record ProviderAccess : Type := {
  access_apiKey : string;
  access_baseUrl : option string;
  access_provider : string;
  viaOpenRouter : bool;
}.

Definition resolveProviderAccess (config : ApiKeysConfig) (modelId : string)
    : option ProviderAccess :=
  let provider := getProviderFromModel modelId in
  let needsConversion :=
    String.eqb provider "anthropic" || String.eqb provider "google" in
  let orKey := getApiKey config "openrouter" in
  if needsConversion && truthy_opt orKey then
    let orUrl := nullish (providers config !! "openrouter"%string ≫= baseUrl)
                         (PROVIDER_ENDPOINTS !! "openrouter"%string) in
    Some {| access_apiKey := default ""%string orKey; access_baseUrl := orUrl;
            access_provider := "openrouter"; viaOpenRouter := true |}
  else
    let directKey := getApiKey config provider in
    let directUrl := getProviderBaseUrl config provider in
    if truthy_opt directKey && truthy_opt directUrl
       && bool_decide (provider ∈ OPENAI_COMPATIBLE_PROVIDERS) then
      Some {| access_apiKey := default ""%string directKey; access_baseUrl := directUrl;
              access_provider := provider; viaOpenRouter := false |}
    else
      let orFallbackKey := getApiKey config "openrouter" in
      if truthy_opt orFallbackKey then
        let orUrl2 := nullish (providers config !! "openrouter"%string ≫= baseUrl)
                              (PROVIDER_ENDPOINTS !! "openrouter"%string) in
        Some {| access_apiKey := default ""%string orFallbackKey; access_baseUrl := orUrl2;
                access_provider := "openrouter"; viaOpenRouter := true |}
      else None.

Definition isModelAccessible (config : ApiKeysConfig) (modelId : string) : bool :=
  bool_decide (resolveProviderAccess config modelId ≠ None).

(** ** Message normalization and request translation

    Values of the request body that the proxy never looks into (a message
    content that is not a string, [temperature], [top_p], [tools]) are of
    an abstract type [Value]; [stringify] is [JSON.stringify] on them and
    [value_truthy] their truthiness. *)

(** The [role] of a message as it is at run time.  The request gives a
    string; [normalizeMessageRoles] can put in its place a member that
    every object inherits from [Object.prototype], which is a function
    or, for [__proto__], the prototype itself: [RoleInherited key] is
    the member named [key].  A string is read as a role where one is
    expected. *)
Inductive role_value : Type :=
  | RoleString (s : string)
  | RoleInherited (key : string).

Coercion RoleString : string >-> role_value.
Bind Scope string_scope with role_value.

#[global] Instance role_value_eq_dec : EqDecision role_value.
Proof. solve_decision. Defined.

(** [role === s], for a string [s]. *)
Definition role_is (r : role_value) (s : string) : bool :=
  match r with
  | RoleString x => String.eqb x s
  | RoleInherited _ => false
  end.

(** The truthiness of a role: an empty string is falsy, a function or
    an object truthy. *)
Definition role_truthy (r : role_value) : bool :=
  match r with
  | RoleString x => truthy x
  | RoleInherited _ => true
  end.

(** The names of the members of [Object.prototype]. *)
Definition OBJECT_PROTOTYPE_KEYS : list string :=
  [ "constructor"; "__defineGetter__"; "__defineSetter__"; "hasOwnProperty";
    "__lookupGetter__"; "__lookupSetter__"; "isPrototypeOf"; "propertyIsEnumerable";
    "toString"; "valueOf"; "__proto__"; "toLocaleString" ]%string.

(** An object written as a literal with string values: its own
    properties; it inherits the members of [Object.prototype]. *)
Record PlainObject : Type := {
  own_properties : gmap string string;
}.

(** [obj[key]]: the own property named by the key, or else the member of
    [Object.prototype] of that name; [None] is [undefined].  A key that
    is not a string is turned into one first: a function or the
    prototype gives a text ([function ...() { [native code] }],
    [[object Object]]) that names no property here. *)
Definition property (obj : PlainObject) (key : role_value) : option role_value :=
  match key with
  | RoleString name =>
      match own_properties obj !! name with
      | Some value => Some (RoleString value)
      | None =>
          if bool_decide (name ∈ OBJECT_PROTOTYPE_KEYS) then Some (RoleInherited name)
          else None
      end
  | RoleInherited _ => None
  end.

Definition VALID_ROLES : gset string :=
  list_to_set [ "system"; "user"; "assistant"; "tool"; "function" ]%string.

(** [VALID_ROLES.has(role)]: the set holds strings only. *)
Definition isValidRole (r : role_value) : bool :=
  match r with
  | RoleString x => bool_decide (x ∈ VALID_ROLES)
  | RoleInherited _ => false
  end.

Definition ROLE_MAPPINGS : PlainObject :=
  {| own_properties :=
       list_to_map [ ("developer", "system"); ("model", "assistant") ]%string |}.

Section Messages.

Variable Value : Type.
Variable stringify : Value → option jsstring.
Variable value_truthy : Value → bool.

Inductive content_value : Type :=
  | CString (s : jsstring)
  | CValue (v : Value).

Record ChatMessage : Type := {
  role : role_value;
  content : content_value;
}.

Definition with_role (msg : ChatMessage) (r : role_value) : ChatMessage :=
  {| role := r; content := content msg |}.

(** The callback of [messages.map] in [normalizeMessageRoles]: the new
    message, and whether [hasChanges] is set by it. *)
Definition normalizeRole (msg : ChatMessage) : ChatMessage * bool :=
  if isValidRole (role msg) then (msg, false)
  else
    match property ROLE_MAPPINGS (role msg) with
    | Some mapped =>
        if role_truthy mapped then (with_role msg mapped, true)
        else (with_role msg "user", true)
    | None => (with_role msg "user", true)
    end.

Definition normalizeMessageRoles (messages : list ChatMessage) : list ChatMessage :=
  match messages with
  | [] => messages
  | _ =>
      let results := map normalizeRole messages in
      let hasChanges := existsb snd results in
      let normalized := map fst results in
      if hasChanges then normalized else messages
  end.

(** The search loop of [normalizeMessagesForGoogle], from index [i]. *)
Fixpoint firstNonSystemIdx (messages : list ChatMessage) (i : nat) : option nat :=
  match messages with
  | [] => None
  | msg :: rest =>
      if negb (role_is (role msg) "system") then Some i
      else firstNonSystemIdx rest (S i)
  end.

Definition CONTINUING : ChatMessage :=
  {| role := "user"; content := CString (lit "(continuing conversation)") |}.

(** [array.splice(idx, 0, item)] on a copy. *)
Definition splice_in {A : Type} (idx : nat) (item : A) (l : list A) : list A :=
  take idx l ++ item :: drop idx l.

Definition normalizeMessagesForGoogle (messages : list ChatMessage) : list ChatMessage :=
  match messages with
  | [] => messages
  | _ =>
      match firstNonSystemIdx messages 0 with
      | None => messages
      | Some idx =>
          match messages !! idx with
          | None => messages
          | Some first =>
              let firstRole := role first in
              if role_is firstRole "user" then messages
              else if role_is firstRole "assistant" || role_is firstRole "model" then
                splice_in idx CONTINUING messages
              else messages
          end
      end
  end.

Definition isGoogleModel (modelId : string) : bool :=
  String.prefix "google/" modelId || String.prefix "gemini" modelId.

(** The chat body after [JSON.parse], with the fields the translation
    reads. *)
Record ChatBody : Type := {
  body_model : string;
  body_messages : option (list ChatMessage);
  body_max_tokens : option Z;
  body_stream : bool;
  body_temperature : option Value;
  body_top_p : option Value;
  body_tools : option Value;
}.

Record AnthropicBody : Type := {
  anthropic_model : string;
  anthropic_messages : list ChatMessage;
  anthropic_max_tokens : Z;
  anthropic_system : option jsstring;
  anthropic_stream : option bool;
  anthropic_temperature : option Value;
  anthropic_top_p : option Value;
  anthropic_tools : option Value;
}.

(** [x || d] on a number that may be absent: [0] is falsy. *)
Definition number_or (x : option Z) (d : Z) : Z :=
  match x with
  | Some n => if n =? 0 then d else n
  | None => d
  end.

Definition js_truthy (s : jsstring) : bool :=
  match s with
  | [] => false
  | _ => true
  end.

(** One turn of the [for (const msg of messages)] loop of
    [convertToAnthropicFormat], on its two variables [system] and
    [nonSystemMessages]. *)
Definition convert_step (acc : option jsstring * list ChatMessage) (msg : ChatMessage)
    : option jsstring * list ChatMessage :=
  let '(system, nonSystemMessages) := acc in
  if role_is (role msg) "system" then
    (match content msg with
     | CString s => Some s
     | CValue v => stringify v
     end, nonSystemMessages)
  else
    (system,
     nonSystemMessages ++
       [ {| role := if role_is (role msg) "assistant" then "assistant" else "user";
            content := content msg |} ]).

Definition convertToAnthropicFormat (parsed : ChatBody) : AnthropicBody :=
  let messages := default [] (body_messages parsed) in
  let '(system, nonSystemMessages) := fold_left convert_step messages (None, []) in
  {| anthropic_model := body_model parsed;
     anthropic_messages := nonSystemMessages;
     anthropic_max_tokens := number_or (body_max_tokens parsed) 4096;
     anthropic_system :=
       match system with
       | Some s => if js_truthy s then Some s else None
       | None => None
       end;
     anthropic_stream := if body_stream parsed then Some true else None;
     anthropic_temperature := body_temperature parsed;
     anthropic_top_p := body_top_p parsed;
     anthropic_tools :=
       match body_tools parsed with
       | Some t => if value_truthy t then Some t else None
       | None => None
       end |}.

(** The first message whose role is not [system], if there is one. *)
Fixpoint firstNonSystem (messages : list ChatMessage) : option ChatMessage :=
  match messages with
  | [] => None
  | msg :: rest =>
      if role_is (role msg) "system" then firstNonSystem rest else Some msg
  end.

(** The leading [system] messages, and what follows them. *)
Fixpoint leadingSystem (messages : list ChatMessage) : list ChatMessage :=
  match messages with
  | [] => []
  | msg :: rest =>
      if role_is (role msg) "system" then msg :: leadingSystem rest else []
  end.

Fixpoint afterSystem (messages : list ChatMessage) : list ChatMessage :=
  match messages with
  | [] => []
  | msg :: rest =>
      if role_is (role msg) "system" then afterSystem rest else messages
  end.

(** The text a [system] message contributes in [convertToAnthropicFormat]. *)
Definition systemText (msg : ChatMessage) : option jsstring :=
  match content msg with
  | CString s => Some s
  | CValue v => stringify v
  end.

(** A message with its role coerced to [assistant] or [user]. *)
Definition coerceRole (msg : ChatMessage) : ChatMessage :=
  {| role := if role_is (role msg) "assistant" then "assistant" else "user";
     content := content msg |}.

End Messages.

Arguments CString {Value} s.
Arguments CValue {Value} v.
Arguments role {Value} _.
Arguments content {Value} _.
Arguments CONTINUING {Value}.
Arguments normalizeMessageRoles {Value} _.
Arguments normalizeMessagesForGoogle {Value} _.
Arguments firstNonSystemIdx {Value} _ _.
Arguments firstNonSystem {Value} _.
Arguments leadingSystem {Value} _.
Arguments afterSystem {Value} _.
Arguments coerceRole {Value} _.
Arguments systemText {Value} _ _.
Arguments convertToAnthropicFormat {Value} _ _ _.
Arguments convert_step {Value} _ _ _.
Arguments body_messages {Value} _.
Arguments body_max_tokens {Value} _.
Arguments anthropic_messages {Value} _.
Arguments anthropic_system {Value} _.
Arguments anthropic_max_tokens {Value} _.

(** ** The rate-limit map

    [rateLimitedModels] is a module-level [Map]: it is threaded through
    the functions that read or write it.  [now] is the reading of
    [Date.now()]. *)

Definition RATE_LIMIT_COOLDOWN_MS : Z := 60000.
Definition MAX_FALLBACK_ATTEMPTS : nat := 3.

Definition isRateLimited (now : Z) (modelId : string) (rateLimitedModels : gmap string Z)
    : bool * gmap string Z :=
  match rateLimitedModels !! modelId with
  | None => (false, rateLimitedModels)
  | Some hitTime =>
      if hitTime =? 0 then (false, rateLimitedModels)
      else if RATE_LIMIT_COOLDOWN_MS <=? now - hitTime then
        (false, delete modelId rateLimitedModels)
      else (true, rateLimitedModels)
  end.

Definition markRateLimited (now : Z) (modelId : string) (rateLimitedModels : gmap string Z)
    : gmap string Z :=
  <[modelId := now]> rateLimitedModels.

(** One turn of the loop of [prioritizeNonRateLimited], on [available],
    [limited] and the map. *)
Definition prioritize_step (now : Z)
    (acc : list string * list string * gmap string Z) (model : string)
    : list string * list string * gmap string Z :=
  let '(available, limited, marks) := acc in
  let '(isLimited, marks') := isRateLimited now model marks in
  if isLimited then (available, limited ++ [model], marks')
  else (available ++ [model], limited, marks').

Definition prioritizeNonRateLimited (now : Z) (models : list string)
    (rateLimitedModels : gmap string Z) : list string * gmap string Z :=
  let '(available, limited, marks) :=
    fold_left (prioritize_step now) models ([], [], rateLimitedModels) in
  (available ++ limited, marks).

(** ** Dispatch: the fallback chain and the attempts

    The router ([getFallbackChainFiltered], the tier tables) and the
    model catalog ([getModelContextWindow]) are modules that are not
    among the sources: the chain builder takes them as parameters, with
    the arguments of the calls in [proxyRequest]; after it the chain of
    the router is given as the specification describes it. *)

(** Modelled from the spec: the tiers of the router, whose module is not
    among the sources: SIMPLE < MEDIUM < COMPLEX < REASONING. *)
Inductive Tier : Type := SIMPLE | MEDIUM | COMPLEX | REASONING.

(** Modelled from the spec: the routing decision of the router, with the
    fields [proxyRequest] reads when it builds the chain (the cost
    fields only go to the usage log). *)
Record RoutingDecision : Type := {
  decision_model : string;
  decision_tier : Tier;
  decision_reasoning : option jsstring;
}.

(** What the upstream does with one request: an HTTP response, or
    [fetch] throws. *)
Inductive upstream_reply : Type :=
  | Reply (status : Z) (body : jsstring)
  | FetchThrows (message : jsstring).

Record ModelRequestResult : Type := {
  success : bool;
  response : option jsstring;
  errorBody : option jsstring;
  errorStatus : option Z;
  isProviderErrorFlag : bool;
}.

(** The state of the attempt loop of [proxyRequest]; [tried] lists the
    models [tryModelRequest] was called with, in order. *)
Record attempts : Type := {
  upstream : option jsstring;
  lastError : option (jsstring * Z);
  actualModelUsed : string;
  marks : gmap string Z;
  tried : list string;
}.

Definition js_or (s : option jsstring) (d : jsstring) : jsstring :=
  match s with
  | Some (x :: t) => x :: t
  | _ => d
  end.

Section Dispatch.

Variable TierTable : Type.
Variable getFallbackChainFiltered : Tier → TierTable → Z → (string → option Z) → list string.
Variable getModelContextWindow : string → option Z.

Record RouterConfig : Type := {
  tiers : TierTable;
  agenticTiers : option TierTable;
}.

(** [Math.ceil(body.length / 4) + maxTokens] *)
Definition estimatedTotalTokens (bodyLength maxTokens : Z) : Z :=
  (bodyLength + 3) / 4 + maxTokens.

(** The [modelsToTry] of [proxyRequest]. *)
Definition buildModelsToTry (apiKeys : ApiKeysConfig) (config : RouterConfig)
    (routingDecision : option RoutingDecision) (modelId : string)
    (bodyLength maxTokens : Z) (now : Z) (rateLimitedModels : gmap string Z)
    : list string * gmap string Z :=
  match routingDecision with
  | Some decision =>
      let estimated := estimatedTotalTokens bodyLength maxTokens in
      let mentionsAgentic :=
        match decision_reasoning decision with
        | Some reasoning => includes (lit "agentic") reasoning
        | None => false
        end in
      let tierConfigs :=
        match agenticTiers config with
        | Some agentic => if mentionsAgentic then agentic else tiers config
        | None => tiers config
        end in
      let contextFiltered :=
        getFallbackChainFiltered (decision_tier decision) tierConfigs estimated
          getModelContextWindow in
      let modelsToTry := take MAX_FALLBACK_ATTEMPTS contextFiltered in
      let modelsToTry := filter (λ m, isModelAccessible apiKeys m = true) modelsToTry in
      prioritizeNonRateLimited now modelsToTry rateLimitedModels
  | None =>
      (if String.eqb modelId "" then [] else [modelId], rateLimitedModels)
  end.

(** The outcome of [tryModelRequest] for one model, given what the
    upstream replies. *)
Definition tryModelRequest (apiKeys : ApiKeysConfig) (modelId : string)
    (reply : upstream_reply) : ModelRequestResult :=
  match resolveProviderAccess apiKeys modelId with
  | None =>
      {| success := false; response := None;
         errorBody :=
           Some (lit "No API key configured for provider: "
                 ++ lit (getProviderFromModel modelId)
                 ++ lit " (and no OpenRouter fallback)");
         errorStatus := Some 401; isProviderErrorFlag := true |}
  | Some _ =>
      match reply with
      | Reply status body =>
          if negb (status =? 200) then
            {| success := false; response := None;
               errorBody := Some body; errorStatus := Some status;
               isProviderErrorFlag := isProviderError status body |}
          else
            {| success := true; response := Some body;
               errorBody := None; errorStatus := None; isProviderErrorFlag := false |}
      | FetchThrows message =>
          {| success := false; response := None;
             errorBody := Some message; errorStatus := Some 500;
             isProviderErrorFlag := true |}
      end
  end.

(** The [for] loop over [modelsToTry], from attempt [i].  [fetch i m] is
    the reply of the upstream to attempt [i], made for model [m];
    [clock i] is the reading of [Date.now()] during that attempt. *)
Fixpoint attemptLoop (apiKeys : ApiKeysConfig) (fetch : nat → string → upstream_reply)
    (clock : nat → Z) (i : nat) (modelsToTry : list string) (st : attempts) : attempts :=
  match modelsToTry with
  | [] => st
  | tryModel :: rest =>
      let isLastAttempt := match rest with [] => true | _ => false end in
      let result := tryModelRequest apiKeys tryModel (fetch i tryModel) in
      let called := tried st ++ [tryModel] in
      if success result then
        {| upstream := response result; lastError := lastError st;
           actualModelUsed := tryModel; marks := marks st; tried := called |}
      else
        let failure :=
          Some (js_or (errorBody result) (lit "Unknown error"),
                number_or (errorStatus result) 500) in
        if isProviderErrorFlag result && negb isLastAttempt then
          let marks' :=
            if bool_decide (errorStatus result = Some 429)
            then markRateLimited (clock i) tryModel (marks st) else marks st in
          attemptLoop apiKeys fetch clock (S i) rest
            {| upstream := upstream st; lastError := failure;
               actualModelUsed := actualModelUsed st; marks := marks'; tried := called |}
        else
          {| upstream := upstream st; lastError := failure;
             actualModelUsed := actualModelUsed st; marks := marks st; tried := called |}
  end.

(** The [try] block of [proxyRequest] up to the end of the loop. *)
Definition dispatch (apiKeys : ApiKeysConfig) (config : RouterConfig)
    (routingDecision : option RoutingDecision) (modelId : string)
    (bodyLength maxTokens : Z) (now : Z) (rateLimitedModels : gmap string Z)
    (fetch : nat → string → upstream_reply) (clock : nat → Z) : attempts :=
  let '(modelsToTry, marks0) :=
    buildModelsToTry apiKeys config routingDecision modelId bodyLength maxTokens
      now rateLimitedModels in
  attemptLoop apiKeys fetch clock 0 modelsToTry
    {| upstream := None; lastError := None; actualModelUsed := modelId;
       marks := marks0; tried := [] |}.

End Dispatch.

Arguments tiers {TierTable} _.
Arguments agenticTiers {TierTable} _.
Arguments buildModelsToTry {TierTable} _ _ _ _ _ _ _ _ _ _.
Arguments dispatch {TierTable} _ _ _ _ _ _ _ _ _ _ _ _.

(** Modelled from the spec: the models of a tier, [primary] and the
    ordered [fallback] list; a tier table ([tiers], [agenticTiers])
    gives them for each tier. *)
Record TierConfig : Type := {
  primary : string;
  fallback : list string;
}.

(** Modelled from the spec: the fallback chain of a tier, the primary
    model and then the fallback list in order; the function is in the
    router module, which is not among the sources. *)
Definition getFallbackChain (tier : Tier) (tierConfigs : Tier → TierConfig) : list string :=
  primary (tierConfigs tier) :: fallback (tierConfigs tier).

(** Modelled from the spec: a model fits when its context window is at
    least the estimate; a model the catalog does not know has no
    window and does not fit. *)
Definition fitsContextWindow (getContextWindow : string → option Z)
    (estimatedTotalTokens : Z) (modelId : string) : bool :=
  match getContextWindow modelId with
  | Some contextWindow => estimatedTotalTokens <=? contextWindow
  | None => false
  end.

(** Modelled from the spec: the chain of a tier without the models
    whose context window is below the estimate (a model of the chain
    with a smaller window is skipped without being called); the
    function is in the router module, which is not among the sources.
    The arguments are those of the call in [proxyRequest]. *)
Definition getFallbackChainFiltered (tier : Tier) (tierConfigs : Tier → TierConfig)
    (estimatedTotalTokens : Z) (getContextWindow : string → option Z) : list string :=
  filter (λ m, fitsContextWindow getContextWindow estimatedTotalTokens m = true)
         (getFallbackChain tier tierConfigs).

(** ** The dedup store, as [proxyRequest] calls it

    The store itself is another module; what is modelled is the order of
    the calls one request makes on it.  The [close] handler of the
    response runs once: when the client disconnects, which can only
    happen while the handler waits for the upstream, or after the handler
    has ended the response. *)

(** Modelled from the spec: the operations of the dedup store that
    open and close an inflight entry ([markInflight], [complete],
    [removeInflight]); the store is not among the sources. *)
Inductive dedup_call : Type := MarkInflight | Complete | RemoveInflight.

Inductive dedup_lookup : Type := Cached | Inflight | Miss.

(** How the [try] block ends. *)
Inductive try_outcome : Type :=
  | Responded           (* an upstream answered and its reply was written *)
  | AllModelsFailed     (* [!upstream]: the error is written, [return] *)
  | Thrown.             (* an exception reaches the [catch] *)

Inductive close_time : Type :=
  | ClientDisconnects   (* while the upstream is awaited *)
  | AfterResponseEnd.

Record request_state : Type := {
  completed : bool;
  calls : list dedup_call;
}.

(** [res.on("close", ...)] *)
Definition on_close (st : request_state) : request_state :=
  if completed st then st
  else {| completed := completed st; calls := calls st ++ [RemoveInflight] |}.

Definition try_block (outcome : try_outcome) (st : request_state) : request_state :=
  match outcome with
  | Responded =>
      (* deduplicator.complete(...); completed = true *)
      {| completed := true; calls := calls st ++ [Complete] |}
  | AllModelsFailed =>
      (* deduplicator.complete(...); return *)
      {| completed := completed st; calls := calls st ++ [Complete] |}
  | Thrown =>
      (* catch: deduplicator.removeInflight(dedupKey); throw *)
      {| completed := completed st; calls := calls st ++ [RemoveInflight] |}
  end.

Definition proxyRequest_calls (lookup : dedup_lookup) (outcome : try_outcome)
    (close : close_time) : list dedup_call :=
  match lookup with
  | Cached | Inflight => []
  | Miss =>
      let st := {| completed := false; calls := [MarkInflight] |} in
      calls
        match close with
        | ClientDisconnects => try_block outcome (on_close st)
        | AfterResponseEnd => on_close (try_block outcome st)
        end
  end.

(** ** Writing the upstream reply of a streaming request *)

Section Responses.

Variable ToolCall : Type.

Record ChoicePart : Type := {
  part_role : option string;
  part_content : option jsstring;
  part_tool_calls : option (list ToolCall);
}.

Record Choice : Type := {
  choice_index : option Z;
  choice_message : option ChoicePart;
  choice_delta : option ChoicePart;
  choice_finish_reason : option string;
}.

Record AnthropicBlock : Type := {
  block_type : string;
  block_text : option jsstring;
}.

(** The reply after [JSON.parse], with the fields that are read from it
    ([id], [created], [model] and [usage] are copied into the same
    fields of what is written, and are left out). *)
Record UpstreamJson : Type := {
  json_type : option string;
  json_content : option (list AnthropicBlock);
  json_stop_reason : option string;
  json_choices : option (list Choice);
}.

Definition convertAnthropicResponseToOpenAI (anthropicData : UpstreamJson) : UpstreamJson :=
  let textContent :=
    match json_content anthropicData with
    | Some blocks =>
        concat (map (λ b, default [] (block_text b))
                    (filter (λ b, block_type b = "text"%string) blocks))
    | None => []
    end in
  {| json_type := None; json_content := None; json_stop_reason := None;
     json_choices :=
       Some [ {| choice_index := Some 0;
                 choice_message :=
                   Some {| part_role := Some "assistant"%string;
                           part_content := Some textContent;
                           part_tool_calls := None |};
                 choice_delta := None;
                 choice_finish_reason :=
                   Some (match json_stop_reason anthropicData with
                         | Some reason =>
                             if String.eqb reason "end_turn" then "stop"%string
                             else if truthy reason then reason else "stop"%string
                         | None => "stop"%string
                         end) |} ] |}.

Inductive chunk_delta : Type :=
  | DeltaRole (r : string)
  | DeltaContent (c : jsstring)
  | DeltaToolCalls (t : list ToolCall)
  | DeltaEmpty.

(** [{ ...baseChunk, choices: [{ index, delta, logprobs: null, finish_reason }] }] *)
Record Chunk : Type := {
  chunk_index : Z;
  chunk_choice_delta : chunk_delta;
  chunk_finish_reason : option string;
}.

(** [choice.message?.content ?? choice.delta?.content ?? ""] *)
Definition rawContentOf (choice : Choice) : jsstring :=
  default [] (nullish (choice_message choice ≫= part_content)
                      (choice_delta choice ≫= part_content)).

(** The body of [for (const choice of rsp.choices)]: the frames written
    for one choice. *)
Definition chunksOfChoice (choice : Choice) : list Chunk :=
  let content := stripThinkingTokens (rawContentOf choice) in
  let role := default "assistant"%string
                (nullish (choice_message choice ≫= part_role)
                         (choice_delta choice ≫= part_role)) in
  let index := default 0 (choice_index choice) in
  let toolCalls := nullish (choice_message choice ≫= part_tool_calls)
                           (choice_delta choice ≫= part_tool_calls) in
  [ {| chunk_index := index; chunk_choice_delta := DeltaRole role;
       chunk_finish_reason := None |} ]
  ++ (if js_truthy content
      then [ {| chunk_index := index; chunk_choice_delta := DeltaContent content;
                chunk_finish_reason := None |} ]
      else [])
  ++ (match toolCalls with
      | Some (t :: ts) =>
          [ {| chunk_index := index; chunk_choice_delta := DeltaToolCalls (t :: ts);
               chunk_finish_reason := None |} ]
      | _ => []
      end)
  ++ [ {| chunk_index := index; chunk_choice_delta := DeltaEmpty;
          chunk_finish_reason :=
            Some (default "stop"%string (choice_finish_reason choice)) |} ].

(** What [safeWrite] is given: text as it is, or [data: ] followed by
    the JSON text of a chunk and an empty line. *)
Inductive written : Type :=
  | WriteText (s : jsstring)
  | WriteChunk (c : Chunk).

Definition NL : Z := 10.

(** [s.split("\n")] and [lines.join("\n")] *)
Fixpoint split_lines (s : jsstring) : list jsstring :=
  match s with
  | [] => [[]]
  | x :: s' =>
      if x =? NL then [] :: split_lines s'
      else
        match split_lines s' with
        | l :: ls => (x :: l) :: ls
        | [] => [[x]]
        end
  end.

Fixpoint join_lines (ls : list jsstring) : jsstring :=
  match ls with
  | [] => []
  | [l] => l
  | l :: ls' => l ++ NL :: join_lines ls'
  end.

Definition isAnthropicMessage (j : UpstreamJson) : bool :=
  bool_decide (json_type j = Some "message"%string)
  && match json_content j with Some _ => true | None => false end.

(** Server-sent events start with [data: ], [event: ] or a comment. *)
Definition isSSE (jsonStr : jsstring) : bool :=
  startsWith (lit "data: ") jsonStr || startsWith (lit "event: ") jsonStr
  || startsWith (lit ": ") jsonStr.

(** The streaming branch of [proxyRequest] once the body [jsonStr] of the
    upstream reply is read; [parsed] is [JSON.parse(jsonStr)], [None]
    when it throws. *)
Definition streamUpstream (jsonStr : jsstring) (parsed : option UpstreamJson)
    : list written :=
  (if isSSE jsonStr then
     let filteredLines :=
       filter (λ line, startsWith (lit "data: :") line
                       || startsWith (lit "data: : ") line = false)
              (split_lines jsonStr) in
     [ WriteText (join_lines filteredLines) ]
   else
     match parsed with
     | None => [ WriteText (lit "data: " ++ jsonStr ++ [NL; NL]) ]
     | Some rawParsed =>
         let rsp := if isAnthropicMessage rawParsed
                    then convertAnthropicResponseToOpenAI rawParsed else rawParsed in
         match json_choices rsp with
         | Some choices => map WriteChunk (concat (map chunksOfChoice choices))
         | None => []
         end
     end)
  ++ [ WriteText (lit "data: [DONE]" ++ [NL; NL]) ].

(** The content deltas among what was written: the content the client
    is given. *)
Definition contentsWritten (ws : list written) : list jsstring :=
  omap (λ w, match w with
             | WriteChunk c =>
                 match chunk_choice_delta c with
                 | DeltaContent s => Some s
                 | _ => None
                 end
             | WriteText _ => None
             end) ws.

End Responses.

Arguments rawContentOf {ToolCall} _.
Arguments chunksOfChoice {ToolCall} _.
Arguments streamUpstream {ToolCall} _ _.
Arguments contentsWritten {ToolCall} _.
Arguments isAnthropicMessage {ToolCall} _.
Arguments convertAnthropicResponseToOpenAI {ToolCall} _.
Arguments json_choices {ToolCall} _.
Arguments WriteChunk {ToolCall} c.
Arguments WriteText {ToolCall} s.
Arguments DeltaRole {ToolCall} r.
Arguments DeltaContent {ToolCall} c.
Arguments DeltaToolCalls {ToolCall} t.
Arguments DeltaEmpty {ToolCall}.

(** ** Contents and thinking tokens

    What is needed to say on which contents [stripThinkingTokens]
    leaves none of [<think>], [<thinking>], [<｜begin], [<｜end], and
    what a thinking block is. *)

Definition THINKING_TAGS : list jsstring :=
  map lit [ "<think>"; "</think>"; "<thinking>"; "</thinking>";
            "<thought>"; "</thought>"; "<antthinking>"; "</antthinking>" ]%string.

Definition is_bar (c : Z) : bool := (c =? FULLWIDTH_BAR) || (c =? 124).

Definition is_thinking_tag (t : jsstring) : Prop := t ∈ THINKING_TAGS.

(** One [replace] with the [g] flag and an empty replacement, as a
    relation between the text read and the text written: a code unit
    where the expression does not match is kept, and a match, which
    starts with [<] and ends with [>], is dropped. *)
Inductive pass (ic : bool) (r : regex) : jsstring → jsstring → Prop :=
  | pass_nil : pass ic r [] []
  | pass_keep (p : option Z) (x : Z) (s out : jsstring) :
      regex_exec ic r p (x :: s) = None →
      pass ic r s out → pass ic r (x :: s) (x :: out)
  | pass_drop (p : option Z) (m s out : jsstring) :
      regex_exec ic r p (60 :: m ++ 62 :: s) ≠ None →
      pass ic r s out → pass ic r (60 :: m ++ 62 :: s) out.

(** The text up to the next [<], and the text after that [<]. *)
Fixpoint lead (s : jsstring) : jsstring :=
  match s with
  | [] => []
  | x :: s' => if x =? 60 then [] else x :: lead s'
  end.

Fixpoint after_lead (s : jsstring) : option jsstring :=
  match s with
  | [] => None
  | x :: s' => if x =? 60 then Some s' else after_lead s'
  end.

(** What follows [<] in the four token sequences. *)
Definition SENTINEL_TARGETS : list jsstring :=
  [ FULLWIDTH_BAR :: lit "begin"; FULLWIDTH_BAR :: lit "end" ].

Definition TARGETS : list jsstring := [ lit "think>"; lit "thinking>" ] ++ SENTINEL_TARGETS.

Definition FORBIDDEN : list jsstring := map (cons 60) TARGETS.

(** [free content]: none of the four token sequences occurs. *)
Definition free (content : jsstring) : bool :=
  forallb (λ f, negb (includes f content)) FORBIDDEN.

Definition THINK_WORDS : list jsstring :=
  [ lit "think"; lit "thought"; lit "antthinking" ].

(** [may_open s]: the text [s] after a [<] does not rule out that one
    of the four expressions matches at that [<].  It starts with a bar,
    or, after white space, at most one [/] and white space again, goes
    on with one of the tag names, in either case, as far as it is
    written before the next [<]. *)
Fixpoint viable_word (w s : jsstring) : bool :=
  match w with
  | [] => true
  | c :: w' =>
      match s with
      | [] => false
      | x :: s' => if x =? 60 then true else chr_eq true c x && viable_word w' s'
      end
  end.

Definition viable_name (s : jsstring) : bool :=
  existsb (λ w, viable_word w s) THINK_WORDS.

Fixpoint viable_tag (slash : bool) (s : jsstring) : bool :=
  match s with
  | [] => false
  | x :: s' =>
      if x =? 60 then true
      else if is_space x then viable_tag slash s'
      else if slash && (x =? 47) then viable_tag false s'
      else viable_name s
  end.

Definition may_open (s : jsstring) : bool :=
  match s with
  | [] => false
  | x :: _ => is_bar x || viable_tag true s
  end.

Definition proper_prefix (w t : jsstring) : bool :=
  (length w <? length t)%nat && startsWith w t.

(** The text after the first [>]. *)
Fixpoint after_gt (s : jsstring) : jsstring :=
  match s with
  | [] => []
  | x :: s' => if x =? 62 then s' else after_gt s'
  end.

(** [subseq u v]: the code units of [u] are found in [v], in order. *)
Fixpoint subseq (u v : jsstring) : bool :=
  match v with
  | [] => match u with [] => true | _ :: _ => false end
  | y :: v' =>
      match u with
      | [] => true
      | x :: u' => if x =? y then subseq u' v' else subseq u v'
      end
  end.

(** [completes w s' t]: [w] is the beginning, and not the whole, of
    [t], and the rest of [t] is found, in order, after the first [>]
    of [s']. *)
Definition completes (w s' t : jsstring) : bool :=
  proper_prefix w t && subseq (drop (length w) t) (after_gt s').

(** [cut_short s]: the text [s] after a [<] is the beginning, and not
    the whole, of what follows [<] in a token sequence, up to another
    [<] at which an expression may match, and the rest of the sequence
    is found, in order, after the first [>] that follows: deleting
    matches can put the sequence together. *)
Definition cut_short (s : jsstring) : bool :=
  match after_lead s with
  | Some s' => may_open s' && existsb (completes (lead s) s') TARGETS
  | None => false
  end.

(** [closed false w]: the first [>] of [w] comes after a bar. *)
Fixpoint closed (bar_before : bool) (w : jsstring) : bool :=
  match w with
  | [] => false
  | x :: w' => if x =? 62 then bar_before else closed (is_bar x) w'
  end.

(** [unclosed s]: the text [s] after a [<] starts with a bar and
    [begin] or [end], and the sentinel token so opened is not closed
    by a bar and [>] before the next [<] or [>]. *)
Definition unclosed (s : jsstring) : bool :=
  existsb (λ t, startsWith t (lead s)) SENTINEL_TARGETS && negb (closed false (lead s)).

Definition ok_after (s : jsstring) : bool := negb (cut_short s) && negb (unclosed s).

(** [guarded content]: no [<] of the content is followed by a token
    sequence cut short by another token, or opens a sentinel token
    that is not closed. *)
Fixpoint guarded (s : jsstring) : bool :=
  match s with
  | [] => true
  | x :: s' => (if x =? 60 then ok_after s' else true) && guarded s'
  end.

(** The names of the thinking tags. *)
Definition TAG_NAMES : list jsstring :=
  map lit [ "think"; "thinking"; "thought"; "antthinking" ]%string.

(** A thinking block: a pair of plain tags [<name>...</name>], or a
    pair of sentinel tokens [<｜begin...｜>...<｜end...｜>] (with either
    bar), around a text without [<]. *)
Inductive thinking_block : jsstring → Prop :=
  | paired_tags (n1 n2 inner : jsstring) :
      n1 ∈ TAG_NAMES → n2 ∈ TAG_NAMES → Forall (λ c, c ≠ 60) inner →
      thinking_block ((60 :: n1 ++ [62]) ++ inner ++ (60 :: 47 :: n2 ++ [62]))
  | sentinel_block (b1 b2 b3 b4 : Z) (n1 n2 inner : jsstring) :
      is_bar b1 = true → is_bar b2 = true → is_bar b3 = true → is_bar b4 = true →
      Forall (λ c, c ≠ 60 ∧ c ≠ 62) n1 → Forall (λ c, c ≠ 60 ∧ c ≠ 62) n2 →
      Forall (λ c, c ≠ 60) inner →
      thinking_block ((60 :: b1 :: lit "begin" ++ n1 ++ [b2; 62]) ++ inner
                      ++ (60 :: b3 :: lit "end" ++ n2 ++ [b4; 62])).

(** A quantifier on a character class, by recursion on the input. *)
Fixpoint star_cls {A : Type} (negated : bool) (items : list citem) (greedy : bool)
    (k : option Z → jsstring → option A) (p : option Z) (s : jsstring) : option A :=
  match s with
  | [] => k p s
  | x :: s' =>
      let again :=
        if in_class negated items x
        then star_cls negated items greedy k (Some x) s' else None in
      if greedy then
        match again with
        | Some t => Some t
        | None => k p s
        end
      else
        match k p s with
        | Some t => Some t
        | None => again
        end
  end.

(** The matcher again, with the quantified character classes run by
    [star_cls]: it is the same function (lemma [rmatch_cls_form]) and it
    computes on an input whose end is not known. *)
Fixpoint rmatch_cls_form {A : Type} (ic : bool) (r : regex) (prev : option Z)
    (s : jsstring) (k : option Z → jsstring → option A) {struct r} : option A :=
  match r with
  | Eps => k prev s
  | Chr c =>
      match s with
      | x :: s' => if chr_eq ic c x then k (Some x) s' else None
      | [] => None
      end
  | Dot =>
      match s with
      | x :: s' => if is_line_terminator x then None else k (Some x) s'
      | [] => None
      end
  | Cls negated items =>
      match s with
      | x :: s' => if in_class negated items x then k (Some x) s' else None
      | [] => None
      end
  | Seq r1 r2 => rmatch_cls_form ic r1 prev s (fun p s' => rmatch_cls_form ic r2 p s' k)
  | Alt r1 r2 =>
      match rmatch_cls_form ic r1 prev s k with
      | Some t => Some t
      | None => rmatch_cls_form ic r2 prev s k
      end
  | Opt r1 =>
      match rmatch_cls_form ic r1 prev s k with
      | Some t => Some t
      | None => k prev s
      end
  | Star greedy r1 =>
      match r1 with
      | Cls negated items => star_cls negated items greedy k prev s
      | _ => star_loop (rmatch_cls_form ic r1) greedy k (length s) prev s
      end
  | WordB =>
      if xorb (is_word_at prev) (is_word_at (head s)) then k prev s else None
  end.

(** The end of a sentinel token for the matcher: [[｜|]>] and what
    follows; [[^<>]*[｜|]>] and what follows; the word [w],
    [[^<>]*[｜|]>] and what follows. *)
Definition token_closing {A : Type} (ic : bool) (K : option Z → jsstring → option A)
    : option Z → jsstring → option A :=
  λ p s, rmatch_cls_form ic (Cls false [CChar 65372; CChar 124]) p s
           (λ p' s', rmatch_cls_form ic (Chr 62) p' s' K).

Definition token_tail {A : Type} (ic : bool) (K : option Z → jsstring → option A)
    : option Z → jsstring → option A :=
  star_cls true [CChar 60; CChar 62] true (token_closing ic K).

Definition token_named {A : Type} (ic : bool) (w : jsstring)
    (K : option Z → jsstring → option A) : option Z → jsstring → option A :=
  λ p s, rmatch_cls_form ic (seqs (map Chr w)) p s (token_tail ic K).

(** The expressions whose matches start with [<]. *)
Definition starts_with_lt (r : regex) : Prop := ∃ r', r = Seq (Chr 60) r'.

(** The expressions whose matches end with [>]. *)
Fixpoint ends_with_gt (r : regex) : bool :=
  match r with
  | Chr c => c =? 62
  | Seq _ r2 => ends_with_gt r2
  | _ => false
  end.

(** JSON text for the examples, written with ['] where the text has a
    double quote. *)
Definition json_text (s : string) : jsstring :=
  map (λ c, if c =? 39 then 34 else c) (lit s).

(** ** The key resolver as the specification words it

    The four steps of the specification, to compare [resolveProviderAccess]
    with.  A provider speaks dialect A natively when it is one of
    [OPENAI_COMPATIBLE_PROVIDERS], and needs dialect translation when it
    does not; a key exists when it is a non-empty string. *)

Definition speaksDialectA (p : string) : bool :=
  bool_decide (p ∈ OPENAI_COMPATIBLE_PROVIDERS).

Definition needsTranslation (p : string) : bool := negb (speaksDialectA p).

Definition gatewayKeyExists (config : ApiKeysConfig) : bool :=
  truthy_opt (getApiKey config "openrouter").

Definition directKeyExists (config : ApiKeysConfig) (p : string) : bool :=
  truthy_opt (getApiKey config p).

Definition gatewayAccess (config : ApiKeysConfig) : ProviderAccess :=
  {| access_apiKey := default ""%string (getApiKey config "openrouter");
     access_baseUrl := getProviderBaseUrl config "openrouter";
     access_provider := "openrouter"; viaOpenRouter := true |}.

Definition directAccess (config : ApiKeysConfig) (p : string) : ProviderAccess :=
  {| access_apiKey := default ""%string (getApiKey config p);
     access_baseUrl := getProviderBaseUrl config p;
     access_provider := p; viaOpenRouter := false |}.

Definition resolve_spec (config : ApiKeysConfig) (modelId : string)
    : option ProviderAccess :=
  let p := getProviderFromModel modelId in
  if needsTranslation p && gatewayKeyExists config then Some (gatewayAccess config)
  else if directKeyExists config p && speaksDialectA p then Some (directAccess config p)
  else if gatewayKeyExists config then Some (gatewayAccess config)
  else None.

(** The same four steps, the second one asking in addition for a
    non-empty base URL of the provider. *)
Definition resolve_spec_url (config : ApiKeysConfig) (modelId : string)
    : option ProviderAccess :=
  let p := getProviderFromModel modelId in
  if needsTranslation p && gatewayKeyExists config then Some (gatewayAccess config)
  else if directKeyExists config p && speaksDialectA p
          && truthy_opt (getProviderBaseUrl config p)
  then Some (directAccess config p)
  else if gatewayKeyExists config then Some (gatewayAccess config)
  else None.


(** ** More of the API-key module *)

(** [getConfiguredProviders] and [getAccessibleProviders], as sets: the
    callers test membership ([includes]) or count, and the order of
    [Object.keys] is left out. *)
Definition getConfiguredProviders (config : ApiKeysConfig) : gset string :=
  dom (filter (λ entry, truthy (apiKey entry.2) = true) (providers config)).

Definition getAccessibleProviders (config : ApiKeysConfig) : gset string :=
  let direct := getConfiguredProviders config ∖ {[ "openrouter"%string ]} in
  if hasOpenRouter config then dom PROVIDER_ENDPOINTS ∖ {[ "openrouter"%string ]}
  else direct.

(** The filter of the [/v1/models] endpoint on a model id. *)
Definition modelListed (config : ApiKeysConfig) (id : string) : bool :=
  String.eqb id "auto"
  || bool_decide (getProviderFromModel id ∈ getAccessibleProviders config).

(** ** The reply when every model failed *)

(** What [proxyRequest] keeps of a failed attempt in [lastError]. *)
Definition failureOf (result : ModelRequestResult) : jsstring * Z :=
  (js_or (errorBody result) (lit "Unknown error"), number_or (errorStatus result) 500).

Record ErrorReply : Type := {
  reply_status : Z;             (* the HTTP status the client sees *)
  reply_sse : bool;             (* an [data: {error}] frame followed by [DONE] *)
  reply_message : jsstring;     (* [error.message] *)
  reply_error_status : Z;       (* [error.status] of the frame *)
}.

(** The [if (!upstream)] branch of [proxyRequest]. *)
Definition allModelsFailed (headersSentEarly : bool) (st : attempts) : ErrorReply :=
  let errBody := js_or (fst <$> lastError st) (lit "All models in fallback chain failed") in
  let errStatus := number_or (snd <$> lastError st) 502 in
  if headersSentEarly then
    {| reply_status := 200; reply_sse := true; reply_message := errBody;
       reply_error_status := errStatus |}
  else
    {| reply_status := errStatus; reply_sse := false; reply_message := errBody;
       reply_error_status := errStatus |}.

(** ** Tool-call ids *)

(** [s.replace(re, replacement)] for an expression with the [g] flag and
    a replacement without [$]: as [remove_go], each match giving way to
    the replacement (an empty match puts it before the code unit it
    stands at, or at the end). *)
Fixpoint substitute_go (ic : bool) (r : regex) (replacement : jsstring)
    (prev : option Z) (skip : nat) (s : jsstring) : jsstring :=
  match s with
  | [] =>
      match skip, regex_exec ic r prev [] with
      | O, Some _ => replacement
      | _, _ => []
      end
  | x :: s' =>
      match skip with
      | S n => substitute_go ic r replacement (Some x) n s'
      | O =>
          match regex_exec ic r prev s with
          | Some rest =>
              match (length s - length rest)%nat with
              | O => replacement ++ x :: substitute_go ic r replacement (Some x) O s'
              | S n => replacement ++ substitute_go ic r replacement (Some x) n s'
              end
          | None => x :: substitute_go ic r replacement (Some x) O s'
          end
      end
  end.

Definition substitute_all (ic : bool) (r : regex) (replacement s : jsstring) : jsstring :=
  substitute_go ic r replacement None O s.

(** [re.test(s)] for an expression written between [^] and [$], without
    the [m] flag: the match starts at the first code unit and ends with
    the input. *)
Definition regex_test_whole (ic : bool) (r : regex) (s : jsstring) : bool :=
  match rmatch ic r None s (λ _ t, match t with [] => Some tt | _ => None end) with
  | Some _ => true
  | None => false
  end.

(** [a-zA-Z0-9_-] *)
Definition TOOL_ID_CHARS : list citem :=
  [ CRange (code "a") (code "z"); CRange (code "A") (code "Z");
    CRange (code "0") (code "9"); CChar (code "_"); CChar (code "-") ].

(** [/^[a-zA-Z0-9_-]+$/], between its anchors *)
Definition VALID_TOOL_ID_PATTERN : regex :=
  Seq (Cls false TOOL_ID_CHARS) (Star true (Cls false TOOL_ID_CHARS)).

Definition sanitizeToolId (id : option jsstring) : option jsstring :=
  match id with
  | None => None
  | Some [] => Some []
  | Some s =>
      if regex_test_whole false VALID_TOOL_ID_PATTERN s then Some s
      else Some (substitute_all false (Cls true TOOL_ID_CHARS) (lit "_") s)
  end.

(** ** Messages of a thinking request *)

Section Thinking.

Variable Value : Type.
Variable ToolCall : Type.

Inductive reasoning : Type :=
  | ReasoningText (s : jsstring)
  | ReasoningValue (v : Value).

(** [ExtendedChatMessage]: a chat message with its optional [tool_calls]
    and [reasoning_content]. *)
Record ExtendedChatMessage : Type := {
  ext_message : ChatMessage Value;
  ext_tool_calls : option (list ToolCall);
  ext_reasoning_content : option reasoning;
}.

Definition hasToolCalls (msg : ExtendedChatMessage) : bool :=
  match ext_tool_calls msg with
  | Some (_ :: _) => true
  | _ => false
  end.

(** The callback of [messages.map] in [normalizeMessagesForThinking],
    with the change it reports. *)
Definition addReasoning (msg : ExtendedChatMessage) : ExtendedChatMessage * bool :=
  if role_is (role (ext_message msg)) "assistant" && hasToolCalls msg
     && match ext_reasoning_content msg with None => true | Some _ => false end
  then ({| ext_message := ext_message msg; ext_tool_calls := ext_tool_calls msg;
           ext_reasoning_content := Some (ReasoningText []) |}, true)
  else (msg, false).

Definition normalizeMessagesForThinking (messages : list ExtendedChatMessage)
    : list ExtendedChatMessage :=
  match messages with
  | [] => messages
  | _ =>
      let results := map addReasoning messages in
      let hasChanges := existsb snd results in
      let normalized := map fst results in
      if hasChanges then normalized else messages
  end.

End Thinking.

Arguments ext_message {Value ToolCall} _.
Arguments ext_tool_calls {Value ToolCall} _.
Arguments ext_reasoning_content {Value ToolCall} _.
Arguments hasToolCalls {Value ToolCall} _.
Arguments addReasoning {Value ToolCall} _.
Arguments normalizeMessagesForThinking {Value ToolCall} _.
Arguments ReasoningText {Value} s.

(** ** The port of the proxy *)

Definition DEFAULT_PORT : Z := 8402.

Definition is_digit (c : Z) : bool := (48 <=? c) && (c <=? 57).

Fixpoint skip_spaces (s : jsstring) : jsstring :=
  match s with
  | x :: s' => if is_space x then skip_spaces s' else s
  | [] => []
  end.

Fixpoint leading_digits (s : jsstring) : jsstring :=
  match s with
  | x :: s' => if is_digit x then x :: leading_digits s' else []
  | [] => []
  end.

Definition digits_value (ds : jsstring) : Z :=
  fold_left (λ acc d, acc * 10 + (d - 48)) ds 0.

(** [parseInt(s, 10)]: white space is skipped, a sign is read, then the
    longest run of digits; [None] is [NaN].  The value is the exact
    integer: a Number is exact below 2^53 and stays above 2^53 beyond,
    which is all the comparisons made on it can see. *)
Definition parseInt10 (s : jsstring) : option Z :=
  let s := skip_spaces s in
  let '(sign, s) :=
    match s with
    | x :: t => if x =? 45 then (-1, t) else if x =? 43 then (1, t) else (1, s)
    | [] => (1, s)
    end in
  match leading_digits s with
  | [] => None
  | ds => Some (sign * digits_value ds)
  end.

(** [getProxyPort], on the value of [process.env.CLAWROUTER_PORT]. *)
Definition getProxyPort (envPort : option jsstring) : Z :=
  match envPort with
  | Some (x :: t) =>
      match parseInt10 (x :: t) with
      | Some parsed => if (0 <? parsed) && (parsed <? 65536) then parsed else DEFAULT_PORT
      | None => DEFAULT_PORT
      end
  | _ => DEFAULT_PORT
  end.

(** [head_is P s]: [s] starts with a code unit that [P] accepts. *)
Definition head_is (P : Z → bool) (s : jsstring) : bool :=
  match s with
  | x :: _ => P x
  | [] => false
  end.

Definition is_sign (c : Z) : bool := (c =? 43) || (c =? 45).

(** The parts of a value as [parseInt] reads it: white space [ws], at
    most one sign, the longest run of digits [ds], and the [rest],
    which [parseInt] ignores.  Every value has them, in one way. *)
Definition port_parts (value ws sign ds rest : jsstring) : Prop :=
  value = ws ++ sign ++ ds ++ rest
  ∧ Forall (λ c, is_space c = true) ws
  ∧ (sign = [] ∨ sign = [43] ∨ sign = [45])
  ∧ Forall (λ d, is_digit d = true) ds
  ∧ head_is is_digit rest = false
  ∧ (sign = [] → ds = [] → head_is is_space rest = false ∧ head_is is_sign rest = false).

(** ** The upstream request *)

(** [s.endsWith(suffix)], [s.slice(k)] and [s.includes("/")]. *)
Definition endsWith (suffix s : string) : bool :=
  let n := String.length s in
  let m := String.length suffix in
  (m <=? n)%nat && String.eqb (String.substring (n - m) m s) suffix.

Definition slice_from (k : nat) (s : string) : string :=
  String.substring k (String.length s - k) s.

Definition includes_slash (s : string) : bool :=
  match String.index 0 "/" s with
  | Some _ => true
  | None => false
  end.

(** [s.split(sep)] for a separator of one character, and [l.join(sep)]. *)
Fixpoint str_split (sep : ascii) (s : string) : list string :=
  match s with
  | EmptyString => [EmptyString]
  | String c s' =>
      if Ascii.eqb c sep then EmptyString :: str_split sep s'
      else match str_split sep s' with
           | h :: t => String c h :: t
           | [] => [String c EmptyString]
           end
  end.

Fixpoint str_join (sep : string) (l : list string) : string :=
  match l with
  | [] => EmptyString
  | [x] => x
  | x :: rest => x +:+ sep +:+ str_join sep rest
  end.

Record Upstream : Type := {
  up_url : string;
  up_provider : string;
  up_apiKey : string;
  up_actualModelId : string;
  up_viaOpenRouter : bool;
}.

Definition ANTHROPIC_MODEL_MAP : gmap string string :=
  list_to_map
    [ ("claude-sonnet-4", "claude-sonnet-4-20250514");
      ("claude-opus-4", "claude-opus-4-20250514");
      ("claude-opus-4.5", "claude-opus-4-20250514");
      ("claude-haiku-4.5", "claude-haiku-4-20250414") ]%string.

(** [normalizedPath] (and [orPath]): a leading [/v1] of the path is
    dropped when the base URL ends with [/v1]. *)
Definition normalizePath (baseUrl path : string) : string :=
  if endsWith "/v1" baseUrl && String.prefix "/v1" path then slice_from 3 path else path.

(** [buildUpstreamUrl].  The base URL of an access is a string in the
    source; [resolveProviderAccess] returns none without one.  The
    lookup in [ANTHROPIC_MODEL_MAP] is on its own keys, those that
    every object inherits left out. *)
Definition buildUpstreamUrl (modelId path : string) (apiKeys : ApiKeysConfig)
    : option Upstream :=
  match resolveProviderAccess apiKeys modelId with
  | None => None
  | Some access =>
      let apiKey := access_apiKey access in
      let baseUrl := default ""%string (access_baseUrl access) in
      let provider := access_provider access in
      if viaOpenRouter access then
        let orPath := normalizePath baseUrl path in
        Some {| up_url := baseUrl +:+ orPath; up_provider := provider; up_apiKey := apiKey;
                up_actualModelId := modelId; up_viaOpenRouter := true |}
      else
        let actualModelId :=
          if includes_slash modelId then str_join "/" (tail (str_split "/" modelId))
          else modelId in
        let normalizedPath := normalizePath baseUrl path in
        if String.eqb provider "google" then
          Some {| up_url := baseUrl +:+ "/models/" +:+ actualModelId
                            +:+ ":streamGenerateContent?alt=sse";
                  up_provider := provider; up_apiKey := apiKey;
                  up_actualModelId := actualModelId; up_viaOpenRouter := false |}
        else if String.eqb provider "anthropic" then
          let mappedModel :=
            match ANTHROPIC_MODEL_MAP !! actualModelId with
            | Some mapped => if truthy mapped then mapped else actualModelId
            | None => actualModelId
            end in
          Some {| up_url := baseUrl +:+ "/messages"; up_provider := provider;
                  up_apiKey := apiKey; up_actualModelId := mappedModel;
                  up_viaOpenRouter := false |}
        else
          Some {| up_url := baseUrl +:+ normalizedPath; up_provider := provider;
                  up_apiKey := apiKey; up_actualModelId := actualModelId;
                  up_viaOpenRouter := false |}
  end.

Section UpstreamRequest.

(** [USER_AGENT] is imported from [version.js]. *)
Variable USER_AGENT : string.

Definition buildProviderHeaders (provider apiKey : string) (viaOpenRouter : bool)
    : gmap string string :=
  let headers : gmap string string :=
    <["user-agent"%string := USER_AGENT]>
      (<["content-type"%string := "application/json"%string]> ∅) in
  if viaOpenRouter then
    <["x-title"%string := "ClawRouter"%string]>
      (<["authorization"%string := ("Bearer " +:+ apiKey)%string]> headers)
  else if String.eqb provider "anthropic" then
    <["anthropic-version"%string := "2023-06-01"%string]>
      (<["x-api-key"%string := apiKey]> headers)
  else if String.eqb provider "google" then
    <["x-goog-api-key"%string := apiKey]> headers
  else
    <["authorization"%string := ("Bearer " +:+ apiKey)%string]> headers.

(** What [tryModelRequest] hands to [fetch] for a model: the URL, the
    headers and, for a body that is JSON, the [model] written into it
    and whether it is passed through [convertToAnthropicFormat]. *)
Record UpstreamRequest : Type := {
  req_url : string;
  req_headers : gmap string string;
  req_model : string;
  req_anthropicFormat : bool;
}.

Definition upstreamRequest (modelId path : string) (apiKeys : ApiKeysConfig)
    : option UpstreamRequest :=
  match buildUpstreamUrl modelId path apiKeys with
  | None => None
  | Some upstream =>
      Some {| req_url := up_url upstream;
              req_headers := buildProviderHeaders (up_provider upstream) (up_apiKey upstream)
                                                  (up_viaOpenRouter upstream);
              req_model := up_actualModelId upstream;
              req_anthropicFormat :=
                String.eqb (up_provider upstream) "anthropic"
                && negb (up_viaOpenRouter upstream) |}
  end.

End UpstreamRequest.

(** ** Tool-call ids in messages *)

Section ToolIds.

(** The fields that [sanitizeToolIds] does not read. *)
Variable Value : Type.

(** An entry of [tool_calls].  An [id] is [None] when it is absent or
    not a string. *)
Record ToolCallEntry : Type := {
  tc_id : option jsstring;
  tc_rest : Value;
}.

Record ContentBlock : Type := {
  cb_type : option string;
  cb_id : option jsstring;
  cb_tool_use_id : option jsstring;
  cb_rest : Value;
}.

(** An element of a [content] array: an object, or anything else
    ([!block || typeof block !== "object"]). *)
Inductive block_item : Type :=
  | BlockObject (block : ContentBlock)
  | BlockOther (v : Value).

(** [content]: an array, or anything else. *)
Inductive message_content : Type :=
  | ContentBlocks (blocks : list block_item)
  | ContentOther (v : Value).

(** [MessageWithTools].  [tool_calls] is [None] when it is absent or
    not an array. *)
Record ToolMessage : Type := {
  tm_tool_calls : option (list ToolCallEntry);
  tm_tool_call_id : option jsstring;
  tm_content : message_content;
  tm_rest : Value;
}.

(** [id && typeof id === "string"] *)
Definition isStringId (id : option jsstring) : bool :=
  match id with
  | Some (_ :: _) => true
  | _ => false
  end.

(** The callback of [tool_calls.map], with the change it reports. *)
Definition sanitizeToolCall (tc : ToolCallEntry) : ToolCallEntry * bool :=
  if isStringId (tc_id tc) then
    let s := sanitizeToolId (tc_id tc) in
    if bool_decide (s ≠ tc_id tc)
    then ({| tc_id := s; tc_rest := tc_rest tc |}, true)
    else (tc, false)
  else (tc, false).

(** The callback of [content.map], with [blockChanged]. *)
Definition sanitizeBlock (item : block_item) : block_item * bool :=
  match item with
  | BlockOther _ => (item, false)
  | BlockObject block =>
      let '(newBlock, blockChanged) :=
        if bool_decide (cb_type block = Some "tool_use"%string) && isStringId (cb_id block)
        then
          let s := sanitizeToolId (cb_id block) in
          if bool_decide (s ≠ cb_id block)
          then ({| cb_type := cb_type block; cb_id := s;
                   cb_tool_use_id := cb_tool_use_id block; cb_rest := cb_rest block |}, true)
          else (block, false)
        else (block, false) in
      let '(newBlock, blockChanged) :=
        if bool_decide (cb_type block = Some "tool_result"%string)
           && isStringId (cb_tool_use_id block)
        then
          let s := sanitizeToolId (cb_tool_use_id block) in
          if bool_decide (s ≠ cb_tool_use_id block)
          then ({| cb_type := cb_type newBlock; cb_id := cb_id newBlock;
                   cb_tool_use_id := s; cb_rest := cb_rest newBlock |}, true)
          else (newBlock, blockChanged)
        else (newBlock, blockChanged) in
      if blockChanged then (BlockObject newBlock, true) else (item, false)
  end.

(** The callback of [messages.map], with [msgChanged]. *)
Definition sanitizeMessage (msg : ToolMessage) : ToolMessage * bool :=
  let '(newMsg, msgChanged) :=
    match tm_tool_calls msg with
    | Some calls =>
        let results := map sanitizeToolCall calls in
        if existsb snd results
        then ({| tm_tool_calls := Some (map fst results);
                 tm_tool_call_id := tm_tool_call_id msg;
                 tm_content := tm_content msg; tm_rest := tm_rest msg |}, true)
        else (msg, false)
    | None => (msg, false)
    end in
  let '(newMsg, msgChanged) :=
    if isStringId (tm_tool_call_id msg) then
      let s := sanitizeToolId (tm_tool_call_id msg) in
      if bool_decide (s ≠ tm_tool_call_id msg)
      then ({| tm_tool_calls := tm_tool_calls newMsg; tm_tool_call_id := s;
               tm_content := tm_content newMsg; tm_rest := tm_rest newMsg |}, true)
      else (newMsg, msgChanged)
    else (newMsg, msgChanged) in
  let '(newMsg, msgChanged) :=
    match tm_content msg with
    | ContentBlocks blocks =>
        let results := map sanitizeBlock blocks in
        let msgChanged := msgChanged || existsb snd results in
        if msgChanged
        then ({| tm_tool_calls := tm_tool_calls newMsg;
                 tm_tool_call_id := tm_tool_call_id newMsg;
                 tm_content := ContentBlocks (map fst results);
                 tm_rest := tm_rest newMsg |}, true)
        else (newMsg, msgChanged)
    | ContentOther _ => (newMsg, msgChanged)
    end in
  if msgChanged then (newMsg, true) else (msg, false).

Definition sanitizeToolIds (messages : list ToolMessage) : list ToolMessage :=
  match messages with
  | [] => messages
  | _ =>
      let results := map sanitizeMessage messages in
      let hasChanges := existsb snd results in
      let sanitized := map fst results in
      if hasChanges then sanitized else messages
  end.

(** The ids that [sanitizeToolIds] looks at: the non-empty string ids of
    the tool calls, the [tool_call_id], the [id] of the [tool_use]
    blocks and the [tool_use_id] of the [tool_result] blocks. *)
Definition stringId (id : option jsstring) : list jsstring :=
  match id with
  | Some (x :: s) => [x :: s]
  | _ => []
  end.

Definition blockToolIds (item : block_item) : list jsstring :=
  match item with
  | BlockObject block =>
      (if bool_decide (cb_type block = Some "tool_use"%string)
       then stringId (cb_id block) else [])
      ++ (if bool_decide (cb_type block = Some "tool_result"%string)
          then stringId (cb_tool_use_id block) else [])
  | BlockOther _ => []
  end.

Definition messageToolIds (msg : ToolMessage) : list jsstring :=
  match tm_tool_calls msg with
  | Some calls => flat_map (λ tc, stringId (tc_id tc)) calls
  | None => []
  end
  ++ stringId (tm_tool_call_id msg)
  ++ match tm_content msg with
     | ContentBlocks blocks => flat_map blockToolIds blocks
     | ContentOther _ => []
     end.

(** The three callbacks without their change flags. *)
Definition cleanToolCall (tc : ToolCallEntry) : ToolCallEntry :=
  {| tc_id := sanitizeToolId (tc_id tc); tc_rest := tc_rest tc |}.

Definition cleanBlock (item : block_item) : block_item :=
  match item with
  | BlockObject block =>
      BlockObject
        {| cb_type := cb_type block;
           cb_id := if bool_decide (cb_type block = Some "tool_use"%string)
                    then sanitizeToolId (cb_id block) else cb_id block;
           cb_tool_use_id := if bool_decide (cb_type block = Some "tool_result"%string)
                             then sanitizeToolId (cb_tool_use_id block)
                             else cb_tool_use_id block;
           cb_rest := cb_rest block |}
  | BlockOther _ => item
  end.

Definition cleanMessage (msg : ToolMessage) : ToolMessage :=
  {| tm_tool_calls := map cleanToolCall <$> tm_tool_calls msg;
     tm_tool_call_id := sanitizeToolId (tm_tool_call_id msg);
     tm_content := match tm_content msg with
                   | ContentBlocks blocks => ContentBlocks (map cleanBlock blocks)
                   | ContentOther v => ContentOther v
                   end;
     tm_rest := tm_rest msg |}.

End ToolIds.

Arguments tc_id {Value} _.
Arguments tc_rest {Value} _.
Arguments cb_type {Value} _.
Arguments cb_id {Value} _.
Arguments cb_tool_use_id {Value} _.
Arguments cb_rest {Value} _.
Arguments BlockObject {Value} _.
Arguments BlockOther {Value} _.
Arguments ContentBlocks {Value} _.
Arguments ContentOther {Value} _.
Arguments tm_tool_calls {Value} _.
Arguments tm_tool_call_id {Value} _.
Arguments tm_content {Value} _.
Arguments tm_rest {Value} _.
Arguments sanitizeToolCall {Value} _.
Arguments sanitizeBlock {Value} _.
Arguments sanitizeMessage {Value} _.
Arguments sanitizeToolIds {Value} _.
Arguments blockToolIds {Value} _.
Arguments messageToolIds {Value} _.
Arguments cleanToolCall {Value} _.
Arguments cleanBlock {Value} _.
Arguments cleanMessage {Value} _.

(** ** Binding the port *)

Definition PORT_RETRY_ATTEMPTS : nat := 5.

(** What [server.listen] does at an attempt: the server listens, or
    emits an error with a [code]. *)
Inductive listen_result : Type :=
  | Listening
  | ListenError (code : string).

(** How the promise of [tryListen] settles: resolved, or rejected with
    an object that has a [code]. *)
Inductive listen_promise : Type :=
  | Resolved
  | Rejected (code : string).

Definition tryListen (listen : nat → listen_result) (attempt : nat) : listen_promise :=
  match listen attempt with
  | Listening => Resolved
  | ListenError code =>
      if String.eqb code "EADDRINUSE" && (attempt <? PORT_RETRY_ATTEMPTS)%nat
      then Rejected "RETRY"
      else Rejected code
  end.

(** How [startProxy] leaves the binding loop: listening since an
    attempt, throwing [lastError], or with neither. *)
Inductive bind_result : Type :=
  | Bound (attempt : nat)
  | Throws (code : string)
  | NotBound.

(** The [for] loop from [attempt], with [remaining] attempts left up to
    [PORT_RETRY_ATTEMPTS]. *)
Fixpoint bindLoop (listen : nat → listen_result) (remaining attempt : nat) : bind_result :=
  match remaining with
  | O => NotBound
  | S remaining' =>
      match tryListen listen attempt with
      | Resolved => Bound attempt
      | Rejected code =>
          if String.eqb code "RETRY" then bindLoop listen remaining' (S attempt)
          else Throws code
      end
  end.

Definition bindPort (listen : nat → listen_result) : bind_result :=
  bindLoop listen PORT_RETRY_ATTEMPTS 1.

(** ** Loading the keys *)

Definition ENV_VAR_MAP : list (string * string) :=
  [ ("openai", "OPENAI_API_KEY"); ("anthropic", "ANTHROPIC_API_KEY");
    ("google", "GOOGLE_API_KEY"); ("xai", "XAI_API_KEY");
    ("deepseek", "DEEPSEEK_API_KEY"); ("moonshot", "MOONSHOT_API_KEY");
    ("nvidia", "NVIDIA_API_KEY"); ("openrouter", "OPENROUTER_API_KEY") ]%string.

(** The body of the loop over the plugin's providers:
    [{ ...config.providers[provider], ...providerConfig }] for an entry
    with a key.  The entries are objects, as they are typed; a
    [baseUrl] is [None] when the property is absent. *)
Definition mergePluginProvider (providers : gmap string ProviderConfig)
    (entry : string * ProviderConfig) : gmap string ProviderConfig :=
  let '(provider, providerConfig) := entry in
  if truthy (apiKey providerConfig) then
    <[provider := {| apiKey := apiKey providerConfig;
                     baseUrl := nullish (baseUrl providerConfig)
                                        (providers !! provider ≫= baseUrl) |}]> providers
  else providers.

(** The body of the loop over [ENV_VAR_MAP]. *)
Definition setEnvKey (env : string → option string)
    (providers : gmap string ProviderConfig) (entry : string * string)
    : gmap string ProviderConfig :=
  let '(provider, envVar) := entry in
  let key := env envVar in
  if truthy_opt key then
    match providers !! provider with
    | None => <[provider := {| apiKey := default ""%string key; baseUrl := None |}]> providers
    | Some providerConfig =>
        <[provider := {| apiKey := default ""%string key;
                         baseUrl := baseUrl providerConfig |}]> providers
    end
  else providers.

(** The first two steps of [loadApiKeys].  [fileProviders] is the
    [providers] object of the config file, [None] when the file is
    missing, empty, invalid or without one; [pluginProviders] is
    [Object.entries] of the plugin's [providers], [None] without one. *)
Definition loadConfigured (fileProviders : option (gmap string ProviderConfig))
    (pluginProviders : option (list (string * ProviderConfig)))
    : gmap string ProviderConfig :=
  let providers := default ∅ fileProviders in
  match pluginProviders with
  | Some entries => fold_left mergePluginProvider entries providers
  | None => providers
  end.

(** [loadApiKeys]; [env] is [process.env]. *)
Definition loadApiKeys (fileProviders : option (gmap string ProviderConfig))
    (pluginProviders : option (list (string * ProviderConfig)))
    (env : string → option string) : ApiKeysConfig :=
  {| providers := fold_left (setEnvKey env) ENV_VAR_MAP
                            (loadConfigured fileProviders pluginProviders) |}.

(** ** Model ids of the gateway *)

Section OpenRouterModels.

(** The ids of [BLOCKRUN_MODELS], imported from [models.js]. *)
Variable BLOCKRUN_MODELS : list string.

(** [id.slice(slash + 1)] under [slash > 0]. *)
Definition namePart (id : string) : option string :=
  match String.index 0 "/" id with
  | Some (S n) => Some (slice_from (S (S n)) id)
  | _ => None
  end.

(** The body of the loop that builds [nameToOrId]. *)
Definition addName (nameToOrId : gmap string string) (id : string) : gmap string string :=
  match namePart id with
  | Some name =>
      match nameToOrId !! name with
      | Some _ => nameToOrId
      | None => <[name := id]> nameToOrId
      end
  | None => nameToOrId
  end.

(** The body of the loop that builds [newCache]. *)
Definition addMapping (orIdSet : gset string) (nameToOrId newCache : gmap string string)
    (id : string) : gmap string string :=
  if String.eqb id "auto" then newCache
  else if bool_decide (id ∈ orIdSet) then <[id := id]> newCache
  else
    match namePart id with
    | Some name =>
        match nameToOrId !! name with
        | Some orId => if truthy orId then <[id := orId]> newCache else newCache
        | None => newCache
        end
    | None => newCache
    end.

(** The cache that [refreshOpenRouterModels] builds from the ids of the
    catalog it fetched. *)
Definition refreshOpenRouterModels (orModels : list string) : gmap string string :=
  let orIdSet : gset string := list_to_set orModels in
  let nameToOrId := fold_left addName orModels ∅ in
  fold_left (addMapping orIdSet nameToOrId) BLOCKRUN_MODELS ∅.

Definition resolveOpenRouterModelId (cache : option (gmap string string))
    (clawrouterModelId : string) : string :=
  match cache with
  | None => clawrouterModelId
  | Some entries => default clawrouterModelId (entries !! clawrouterModelId)
  end.

End OpenRouterModels.
(** * Properties *)

(** ** The key resolver *)

Lemma compatible_cases (p : string) :
  p ∈ OPENAI_COMPATIBLE_PROVIDERS →
  p = "openai"%string ∨ p = "xai"%string ∨ p = "deepseek"%string
  ∨ p = "moonshot"%string ∨ p = "nvidia"%string.
Proof.
  unfold OPENAI_COMPATIBLE_PROVIDERS. rewrite elem_of_list_to_set.
  rewrite !elem_of_cons, elem_of_nil. tauto.
Qed.

Lemma needsConversion_not_compatible (p : string) :
  String.eqb p "anthropic" || String.eqb p "google" = true →
  speaksDialectA p = false.
Proof.
  intros H. unfold speaksDialectA. apply bool_decide_eq_false. intros Hin.
  apply compatible_cases in Hin.
  destruct Hin as [-> | [-> | [-> | [-> | ->]]]]; discriminate H.
Qed.

Lemma resolveProviderAccess_unfold (config : ApiKeysConfig) (modelId : string) :
  resolveProviderAccess config modelId =
  let p := getProviderFromModel modelId in
  if (String.eqb p "anthropic" || String.eqb p "google") && gatewayKeyExists config
  then Some (gatewayAccess config)
  else if directKeyExists config p && truthy_opt (getProviderBaseUrl config p)
          && speaksDialectA p
  then Some (directAccess config p)
  else if gatewayKeyExists config then Some (gatewayAccess config)
  else None.
Proof. reflexivity. Qed.

(** C3 (as amended).  For every key configuration and every model id the
    resolver follows the four steps, the second one being taken when a
    direct key for the provider exists, the provider speaks dialect A
    natively and the base URL of the provider (its configured override,
    else the built-in endpoint) is a non-empty string. *)
Theorem resolveProviderAccess_four_steps (config : ApiKeysConfig) (modelId : string) :
  resolveProviderAccess config modelId = resolve_spec_url config modelId.
Proof.
  rewrite resolveProviderAccess_unfold. unfold resolve_spec_url, needsTranslation.
  cbv zeta. set (p := getProviderFromModel modelId).
  destruct (String.eqb p "anthropic" || String.eqb p "google") eqn:Hconv.
  - rewrite (needsConversion_not_compatible p Hconv). simpl.
    rewrite !andb_false_r. reflexivity.
  - destruct (speaksDialectA p); simpl.
    + rewrite andb_true_r.
      destruct (directKeyExists config p); reflexivity.
    + rewrite !andb_false_r. destruct (gatewayKeyExists config); reflexivity.
Qed.

(** C3, as stated, fails: with an empty base-URL override the direct key
    of an OpenAI-compatible provider is not used. *)
Lemma resolveProviderAccess_empty_override :
  let config :=
    {| providers := {[ "openai"%string := {| apiKey := "sk-test"; baseUrl := Some ""%string |} ]} |} in
  directKeyExists config "openai" = true
  ∧ speaksDialectA "openai" = true
  ∧ gatewayKeyExists config = false
  ∧ resolveProviderAccess config "openai/gpt-4o" = None
  ∧ resolve_spec config "openai/gpt-4o"
    = Some {| access_apiKey := "sk-test"; access_baseUrl := Some ""%string;
              access_provider := "openai"; viaOpenRouter := false |}
  ∧ resolveProviderAccess config "openai/gpt-4o" ≠ resolve_spec config "openai/gpt-4o".
Proof.
  cbv zeta. repeat split; try (vm_compute; reflexivity).
  vm_compute. discriminate.
Qed.


Lemma getProviderFromModel_anthropic (rest : string) :
  getProviderFromModel ("anthropic/" +:+ rest) = "anthropic"%string.
Proof. destruct rest; reflexivity. Qed.

Lemma getProviderFromModel_google (rest : string) :
  getProviderFromModel ("google/" +:+ rest) = "google"%string.
Proof. destruct rest; reflexivity. Qed.

Lemma isModelAccessible_false (config : ApiKeysConfig) (modelId : string) :
  resolveProviderAccess config modelId = None → isModelAccessible config modelId = false.
Proof.
  intros H. unfold isModelAccessible. rewrite H.
  apply bool_decide_eq_false. intros Hne. apply Hne. reflexivity.
Qed.

(** Models of a provider that needs conversion are reached through the
    gateway or not at all. *)
Lemma needsConversion_access (config : ApiKeysConfig) (modelId : string) :
  String.eqb (getProviderFromModel modelId) "anthropic"
  || String.eqb (getProviderFromModel modelId) "google" = true →
  resolveProviderAccess config modelId =
  if hasOpenRouter config then Some (gatewayAccess config) else None.
Proof.
  intros Hconv. rewrite resolveProviderAccess_unfold. cbv zeta.
  rewrite Hconv, (needsConversion_not_compatible _ Hconv).
  unfold gatewayKeyExists, hasOpenRouter.
  rewrite !andb_false_r. simpl.
  destruct (truthy_opt (getApiKey config "openrouter")); reflexivity.
Qed.

(** C9.  Without a gateway (OpenRouter) key, [resolveProviderAccess]
    returns [undefined] and [isModelAccessible] returns [false] for every
    model id that starts with [anthropic/] or [google/], whatever direct
    keys the configuration holds; and in any configuration, an access to
    such a model is an access through the gateway. *)
Theorem anthropic_google_need_gateway
    (config : ApiKeysConfig) (pre rest : string) :
  hasOpenRouter config = false →
  pre = "anthropic/"%string ∨ pre = "google/"%string →
  resolveProviderAccess config (pre +:+ rest) = None
  ∧ isModelAccessible config (pre +:+ rest) = false
  ∧ ∀ (config' : ApiKeysConfig) (access : ProviderAccess),
      resolveProviderAccess config' (pre +:+ rest) = Some access →
      hasOpenRouter config' = true ∧ viaOpenRouter access = true
      ∧ access_provider access = "openrouter"%string.
Proof.
  intros Hno Hpre.
  assert (Hconv : String.eqb (getProviderFromModel (pre +:+ rest)) "anthropic"
                  || String.eqb (getProviderFromModel (pre +:+ rest)) "google" = true).
  { destruct Hpre as [-> | ->].
    - rewrite getProviderFromModel_anthropic. reflexivity.
    - rewrite getProviderFromModel_google. reflexivity. }
  assert (Hnone : resolveProviderAccess config (pre +:+ rest) = None).
  { rewrite (needsConversion_access _ _ Hconv), Hno. reflexivity. }
  split; [exact Hnone|]. split; [apply isModelAccessible_false, Hnone|].
  intros config' access. rewrite (needsConversion_access _ _ Hconv).
  destruct (hasOpenRouter config'); [|discriminate].
  intros [= <-]. repeat split.
Qed.

Lemma anthropic_google_need_gateway_witness :
  let config :=
    {| providers :=
         {[ "anthropic"%string := {| apiKey := "sk-ant-test"; baseUrl := None |} ]} |} in
  getApiKey config "anthropic" = Some "sk-ant-test"%string
  ∧ resolveProviderAccess config "anthropic/claude-sonnet-4" = None
  ∧ isModelAccessible config "anthropic/claude-sonnet-4" = false.
Proof.
  cbv zeta. split; [vm_compute; reflexivity|].
  match goal with
  | |- resolveProviderAccess ?c _ = _ ∧ _ =>
      assert (Hno : hasOpenRouter c = false) by (vm_compute; reflexivity);
      destruct (anthropic_google_need_gateway c "anthropic/" "claude-sonnet-4"
                  Hno (or_introl eq_refl)) as [H1 [H2 _]]
  end.
  split; [exact H1|exact H2].
Defined.

(** ** Retryable upstream errors and the attempt loop *)

Lemma existsb_Zeqb (x : Z) (l : list Z) :
  existsb (Z.eqb x) l = true ↔ x ∈ l.
Proof.
  induction l as [|y l IH]; simpl.
  - rewrite elem_of_nil. split; [discriminate|tauto].
  - rewrite elem_of_cons, orb_true_iff, IH, Z.eqb_eq. tauto.
Qed.

Lemma isProviderError_iff (status : Z) (body : jsstring) :
  isProviderError status body = true ↔
  status ∈ FALLBACK_STATUS_CODES ∧ (500 ≤ status ∨ matchesErrorPattern body = true).
Proof.
  unfold isProviderError.
  destruct (existsb (Z.eqb status) FALLBACK_STATUS_CODES) eqn:Hin; simpl.
  - apply existsb_Zeqb in Hin.
    destruct (Z.leb_spec 500 status) as [Hge | Hlt].
    + split; [intros _; split; [exact Hin | left; exact Hge] | reflexivity].
    + split.
      * intros Hm. split; [exact Hin | right; exact Hm].
      * intros [_ [Hge | Hm]]; [lia | exact Hm].
  - split; [discriminate|]. intros [Hc _].
    apply existsb_Zeqb in Hc. congruence.
Qed.

(** Every pattern is a test of the body alone. *)
Lemma matchesErrorPattern_iff (body : jsstring) :
  matchesErrorPattern body = true ↔
  ∃ pattern, pattern ∈ PROVIDER_ERROR_PATTERNS ∧ regex_test true pattern body = true.
Proof.
  unfold matchesErrorPattern. rewrite existsb_exists.
  split; intros [p [H1 H2]]; exists p; split; try exact H2.
  - apply list_elem_of_In, H1.
  - apply list_elem_of_In, H1.
Qed.

Lemma isModelAccessible_true (config : ApiKeysConfig) (modelId : string) :
  isModelAccessible config modelId = true →
  ∃ access, resolveProviderAccess config modelId = Some access.
Proof.
  unfold isModelAccessible. intros H. apply bool_decide_eq_true in H.
  destruct (resolveProviderAccess config modelId) as [a|]; [eauto | congruence].
Qed.

(** What [tryModelRequest] makes of an HTTP response. *)
Lemma tryModelRequest_reply (apiKeys : ApiKeysConfig) (modelId : string)
    (status : Z) (body : jsstring) :
  isModelAccessible apiKeys modelId = true →
  success (tryModelRequest apiKeys modelId (Reply status body)) = (status =? 200)
  ∧ (status ≠ 200 →
     isProviderErrorFlag (tryModelRequest apiKeys modelId (Reply status body))
     = isProviderError status body).
Proof.
  intros [a Ha]%isModelAccessible_true. unfold tryModelRequest. rewrite Ha.
  destruct (Z.eqb_spec status 200) as [-> | Hne]; simpl.
  - split; [reflexivity | congruence].
  - split; reflexivity.
Qed.

Lemma isProviderError_200 (body : jsstring) : isProviderError 200 body = false.
Proof. reflexivity. Qed.

(** One turn of the loop. *)
Lemma attemptLoop_cons (apiKeys : ApiKeysConfig) (fetch : nat → string → upstream_reply)
    (clock : nat → Z) (i : nat) (tryModel : string) (rest : list string) (st : attempts) :
  attemptLoop apiKeys fetch clock i (tryModel :: rest) st =
  let result := tryModelRequest apiKeys tryModel (fetch i tryModel) in
  let called := tried st ++ [tryModel] in
  if success result then
    {| upstream := response result; lastError := lastError st;
       actualModelUsed := tryModel; marks := marks st; tried := called |}
  else
    let failure :=
      Some (js_or (errorBody result) (lit "Unknown error"),
            number_or (errorStatus result) 500) in
    if isProviderErrorFlag result && negb (bool_decide (rest = [])) then
      attemptLoop apiKeys fetch clock (S i) rest
        {| upstream := upstream st; lastError := failure;
           actualModelUsed := actualModelUsed st;
           marks := if bool_decide (errorStatus result = Some 429)
                    then markRateLimited (clock i) tryModel (marks st) else marks st;
           tried := called |}
    else
      {| upstream := upstream st; lastError := failure;
         actualModelUsed := actualModelUsed st; marks := marks st; tried := called |}.
Proof. destruct rest; reflexivity. Qed.

(** The loop records its calls after those already made. *)
Lemma attemptLoop_tried (apiKeys : ApiKeysConfig) (fetch : nat → string → upstream_reply)
    (clock : nat → Z) (models : list string) :
  ∀ (i : nat) (st : attempts),
    ∃ more, tried (attemptLoop apiKeys fetch clock i models st) = tried st ++ more
            ∧ (∀ m rest, models = m :: rest → ∃ more', more = m :: more').
Proof.
  induction models as [|m rest IH]; intros i st.
  - exists []. simpl. rewrite app_nil_r. split; [reflexivity|]. intros; discriminate.
  - rewrite attemptLoop_cons. cbv zeta.
    destruct (success (tryModelRequest apiKeys m (fetch i m))).
    { exists [m]. simpl. split; [reflexivity|]. intros ? ? [= <- <-]. eauto. }
    destruct (isProviderErrorFlag (tryModelRequest apiKeys m (fetch i m))
              && negb (bool_decide (rest = []))).
    + match goal with
      | |- context [attemptLoop _ _ _ (S i) rest ?st'] =>
          destruct (IH (S i) st') as [more [Hmore _]]
      end.
      exists (m :: more). rewrite Hmore. simpl. rewrite <- app_assoc. simpl.
      split; [reflexivity|]. intros ? ? [= <- <-]. eauto.
    + exists [m]. simpl. split; [reflexivity|]. intros ? ? [= <- <-]. eauto.
Qed.

(** One turn of the loop on an HTTP response, when another model follows. *)
Lemma attemptLoop_reply (apiKeys : ApiKeysConfig) (fetch : nat → string → upstream_reply)
    (clock : nat → Z) (i : nat) (tryModel next : string) (rest : list string)
    (st : attempts) (status : Z) (body : jsstring) :
  isModelAccessible apiKeys tryModel = true →
  fetch i tryModel = Reply status body →
  (isProviderError status body = true →
   ∃ more, tried (attemptLoop apiKeys fetch clock i (tryModel :: next :: rest) st)
           = tried st ++ tryModel :: next :: more)
  ∧ (isProviderError status body = false →
     tried (attemptLoop apiKeys fetch clock i (tryModel :: next :: rest) st)
     = tried st ++ [tryModel]).
Proof.
  intros Hacc Hfetch.
  destruct (tryModelRequest_reply apiKeys tryModel status body Hacc) as [Hs Hf].
  rewrite attemptLoop_cons. cbv zeta. rewrite Hfetch, Hs.
  destruct (Z.eqb_spec status 200) as [-> | Hne].
  - rewrite isProviderError_200. split; [discriminate | reflexivity].
  - rewrite (Hf Hne). split; intros Hp; rewrite Hp.
    + rewrite bool_decide_eq_false_2 by discriminate. cbn [andb negb].
      match goal with
      | |- context [attemptLoop _ _ _ (S i) (next :: rest) ?st'] =>
          destruct (attemptLoop_tried apiKeys fetch clock (next :: rest) (S i) st')
            as [more [Hmore Hhead]]
      end.
      destruct (Hhead next rest eq_refl) as [more' ->].
      exists more'. rewrite Hmore. cbn [tried]. rewrite <- app_assoc. reflexivity.
    + reflexivity.
Qed.

(** C2.  For every upstream status [s] and body [b], the response is
    retryable exactly when [s] is one of 400, 401, 402, 403, 429, 500,
    502, 503, 504 and moreover [s >= 500] or [b] matches one of the
    error patterns; when it is, the loop goes on to the next model of the
    chain, and for every other [(s, b)] no further model is tried. *)
Theorem retryable_iff_status_and_pattern
    (apiKeys : ApiKeysConfig) (fetch : nat → string → upstream_reply)
    (clock : nat → Z) (i : nat) (tryModel next : string) (rest : list string)
    (st : attempts) (s : Z) (b : jsstring) :
  isModelAccessible apiKeys tryModel = true →
  fetch i tryModel = Reply s b →
  let retryable := isProviderError s b in
  let after := attemptLoop apiKeys fetch clock i (tryModel :: next :: rest) st in
  (retryable = true ↔
   s ∈ [400; 401; 402; 403; 429; 500; 502; 503; 504]
   ∧ (500 ≤ s
      ∨ ∃ pattern, pattern ∈ PROVIDER_ERROR_PATTERNS ∧ regex_test true pattern b = true))
  ∧ (retryable = true → ∃ more, tried after = tried st ++ tryModel :: next :: more)
  ∧ (retryable = false → tried after = tried st ++ [tryModel]).
Proof.
  intros Hacc Hfetch retryable after.
  split.
  - unfold retryable. rewrite isProviderError_iff, matchesErrorPattern_iff. reflexivity.
  - apply (attemptLoop_reply apiKeys fetch clock i tryModel next rest st s b Hacc Hfetch).
Qed.

Lemma retryable_iff_status_and_pattern_witness :
  let apiKeys :=
    {| providers := {[ "openrouter"%string := {| apiKey := "sk-or-test"; baseUrl := None |} ]} |} in
  let fetch := λ (_ : nat) (_ : string), Reply 429 (lit "Rate limit exceeded") in
  let st := {| upstream := None; lastError := None; actualModelUsed := "openai/gpt-4o";
               marks := ∅; tried := [] |} in
  isModelAccessible apiKeys "openai/gpt-4o" = true
  ∧ fetch 0%nat "openai/gpt-4o"%string = Reply 429 (lit "Rate limit exceeded")
  ∧ (isProviderError 429 (lit "Rate limit exceeded") = true →
     ∃ more,
       tried (attemptLoop apiKeys fetch (λ _, 0) 0
                ["openai/gpt-4o"; "deepseek/deepseek-chat"]%string st)
       = [] ++ "openai/gpt-4o"%string :: "deepseek/deepseek-chat"%string :: more).
Proof.
  cbv zeta.
  split; [vm_compute; reflexivity|]. split; [reflexivity|].
  match goal with
  | |- _ → ∃ more, tried (attemptLoop ?k ?f ?c _ _ ?st) = _ =>
      assert (Hacc : isModelAccessible k "openai/gpt-4o" = true)
        by (vm_compute; reflexivity);
      destruct (retryable_iff_status_and_pattern k f c 0
                  "openai/gpt-4o" "deepseek/deepseek-chat" [] st
                  429 (lit "Rate limit exceeded") Hacc eq_refl) as [_ [H _]]
  end.
  exact H.
Defined.

(** ** The fallback chain *)

(** Whether a model counts as rate-limited at [now]. *)
Lemma isRateLimited_true (now : Z) (m : string) (marks : gmap string Z) :
  fst (isRateLimited now m marks) = true ↔
  ∃ hitTime, marks !! m = Some hitTime ∧ hitTime ≠ 0
             ∧ now - hitTime < RATE_LIMIT_COOLDOWN_MS.
Proof.
  unfold isRateLimited. destruct (marks !! m) as [hit|] eqn:Hm.
  - destruct (Z.eqb_spec hit 0) as [-> | Hne]; simpl.
    + split; [discriminate|]. intros [h [[= <-] [Hh _]]]. congruence.
    + destruct (Z.leb_spec RATE_LIMIT_COOLDOWN_MS (now - hit)); simpl.
      * split; [discriminate|]. intros [h [[= <-] [_ Hlt]]]. lia.
      * split; [intros _; exists hit; auto | reflexivity].
  - simpl. split; [discriminate|]. intros [h [[=] _]].
Qed.

(** The lazy removal of an expired mark changes no answer. *)
Lemma isRateLimited_same (now : Z) (x m : string) (marks : gmap string Z) :
  fst (isRateLimited now m (snd (isRateLimited now x marks)))
  = fst (isRateLimited now m marks).
Proof.
  unfold isRateLimited at 2.
  destruct (marks !! x) as [hit|] eqn:Hx; [|reflexivity].
  destruct (hit =? 0); [reflexivity|].
  destruct (Z.leb_spec RATE_LIMIT_COOLDOWN_MS (now - hit)) as [Hexp|]; [|reflexivity].
  cbn [snd]. unfold isRateLimited.
  destruct (decide (x = m)) as [-> | Hne].
  - rewrite lookup_delete_eq, Hx.
    destruct (hit =? 0); [reflexivity|].
    destruct (Z.leb_spec RATE_LIMIT_COOLDOWN_MS (now - hit)); [reflexivity | lia].
  - rewrite lookup_delete_ne by exact Hne. destruct (marks !! m) as [h|]; [|reflexivity].
    destruct (h =? 0); [reflexivity|].
    destruct (RATE_LIMIT_COOLDOWN_MS <=? now - h); reflexivity.
Qed.

(** The loop of [prioritizeNonRateLimited] is a stable partition by the
    answers [isRateLimited] gives on the map it starts from. *)
Lemma prioritize_fold (now : Z) (models : list string) :
  ∀ (available limited : list string) (marks0 marks : gmap string Z),
    (∀ m, fst (isRateLimited now m marks) = fst (isRateLimited now m marks0)) →
    ∃ marks',
      fold_left (prioritize_step now) models (available, limited, marks)
      = (available ++ filter (λ m, fst (isRateLimited now m marks0) = false) models,
         limited ++ filter (λ m, fst (isRateLimited now m marks0) = true) models,
         marks').
Proof.
  induction models as [|x models IH]; intros available limited marks0 marks Hsame.
  - exists marks. simpl. rewrite !app_nil_r. reflexivity.
  - cbn [fold_left]. unfold prioritize_step at 2.
    pose proof (Hsame x) as Hx.
    pose proof (isRateLimited_same now x) as Hnext.
    destruct (isRateLimited now x marks) as [isLimited marks1] eqn:Hr.
    cbn [fst snd] in Hx.
    assert (Hsame1 : ∀ m, fst (isRateLimited now m marks1)
                          = fst (isRateLimited now m marks0)).
    { intros m. specialize (Hnext m marks). rewrite Hr in Hnext. cbn [snd] in Hnext.
      rewrite Hnext. apply Hsame. }
    destruct isLimited.
    + destruct (IH available (limited ++ [x]) marks0 marks1 Hsame1) as [marks' ->].
      exists marks'.
      rewrite (filter_cons_True (λ m, fst (isRateLimited now m marks0) = true) x)
        by (symmetry; exact Hx).
      rewrite (filter_cons_False (λ m, fst (isRateLimited now m marks0) = false) x)
        by (rewrite <- Hx; discriminate).
      rewrite <- app_assoc. reflexivity.
    + destruct (IH (available ++ [x]) limited marks0 marks1 Hsame1) as [marks' ->].
      exists marks'.
      rewrite (filter_cons_True (λ m, fst (isRateLimited now m marks0) = false) x)
        by (symmetry; exact Hx).
      rewrite (filter_cons_False (λ m, fst (isRateLimited now m marks0) = true) x)
        by (rewrite <- Hx; discriminate).
      rewrite <- app_assoc. reflexivity.
Qed.

Lemma prioritizeNonRateLimited_partition (now : Z) (models : list string)
    (marks : gmap string Z) :
  fst (prioritizeNonRateLimited now models marks)
  = filter (λ m, fst (isRateLimited now m marks) = false) models
    ++ filter (λ m, fst (isRateLimited now m marks) = true) models.
Proof.
  unfold prioritizeNonRateLimited.
  destruct (prioritize_fold now models [] [] marks marks (λ _, eq_refl)) as [marks' ->].
  reflexivity.
Qed.

Lemma filter_all {A : Type} (P : A → Prop) `{∀ x, Decision (P x)} (l : list A) :
  (∀ x, x ∈ l → P x) → filter P l = l.
Proof.
  induction l as [|a l IH]; intros Hall; [reflexivity|].
  rewrite filter_cons_True by (apply Hall; left).
  f_equal. apply IH. intros x Hx. apply Hall. right. exact Hx.
Qed.

Lemma filter_none {A : Type} (P : A → Prop) `{∀ x, Decision (P x)} (l : list A) :
  (∀ x, x ∈ l → ¬ P x) → filter P l = [].
Proof.
  induction l as [|a l IH]; intros Hall; [reflexivity|].
  rewrite filter_cons_False by (apply Hall; left).
  apply IH. intros x Hx. apply Hall. right. exact Hx.
Qed.

(** The models the loop calls are a prefix of [modelsToTry], in order. *)
Lemma attemptLoop_prefix (apiKeys : ApiKeysConfig) (fetch : nat → string → upstream_reply)
    (clock : nat → Z) (models : list string) :
  ∀ (i : nat) (st : attempts),
    ∃ n, tried (attemptLoop apiKeys fetch clock i models st) = tried st ++ take n models.
Proof.
  induction models as [|m rest IH]; intros i st.
  - exists 0%nat. simpl. rewrite app_nil_r. reflexivity.
  - rewrite attemptLoop_cons. cbv zeta.
    destruct (success (tryModelRequest apiKeys m (fetch i m))).
    { exists 1%nat. reflexivity. }
    destruct (isProviderErrorFlag (tryModelRequest apiKeys m (fetch i m))
              && negb (bool_decide (rest = []))).
    + match goal with
      | |- context [attemptLoop _ _ _ (S i) rest ?st'] =>
          destruct (IH (S i) st') as [n Hn]
      end.
      exists (S n). rewrite Hn. cbn [tried take]. rewrite <- app_assoc. reflexivity.
    + exists 1%nat. reflexivity.
Qed.

(** With at least one model to try, the first one is called. *)
Lemma attemptLoop_first (apiKeys : ApiKeysConfig) (fetch : nat → string → upstream_reply)
    (clock : nat → Z) (i : nat) (m : string) (rest : list string) (st : attempts) :
  ∃ more, tried (attemptLoop apiKeys fetch clock i (m :: rest) st) = tried st ++ m :: more.
Proof.
  destruct (attemptLoop_tried apiKeys fetch clock (m :: rest) i st) as [more [H1 H2]].
  destruct (H2 m rest eq_refl) as [more' ->]. eauto.
Qed.

Section DispatchProperties.

Variable TierTable : Type.
Variable getFallbackChainFiltered : Tier → TierTable → Z → (string → option Z) → list string.
Variable getModelContextWindow : string → option Z.

(** C10.  A request that names a model for which no routing decision was
    produced has that model as its only model to try, whatever the tier
    tables, the context windows and the rate-limit map are; the loop
    calls it once and calls no other model, whatever the upstream
    answers. *)
Theorem explicit_model_single_attempt
    (apiKeys : ApiKeysConfig) (config : RouterConfig TierTable)
    (modelId : string) (bodyLength maxTokens now : Z)
    (rateLimitedModels : gmap string Z)
    (fetch : nat → string → upstream_reply) (clock : nat → Z) :
  modelId ≠ ""%string →
  buildModelsToTry getFallbackChainFiltered getModelContextWindow
    apiKeys config None modelId bodyLength maxTokens now rateLimitedModels
  = ([modelId], rateLimitedModels)
  ∧ tried (dispatch getFallbackChainFiltered getModelContextWindow
             apiKeys config None modelId bodyLength maxTokens now
             rateLimitedModels fetch clock)
    = [modelId].
Proof.
  intros Hne.
  assert (Hb : String.eqb modelId "" = false) by (apply String.eqb_neq, Hne).
  unfold dispatch, buildModelsToTry. rewrite Hb. split; [reflexivity|].
  rewrite attemptLoop_cons. cbv zeta.
  destruct (success (tryModelRequest apiKeys modelId (fetch 0%nat modelId)));
    [reflexivity|].
  rewrite bool_decide_eq_true_2 by reflexivity.
  rewrite andb_false_r. reflexivity.
Qed.

End DispatchProperties.

Section FallbackChain.

Variable getModelContextWindow : string → option Z.

(** C5 (as amended).  When the router produced a decision, the models to
    try are the reachable ones among the first [MAX_FALLBACK_ATTEMPTS]
    models of the tier's chain, primary first and then the fallback
    list, whose context window is at least
    [estimatedInputTokens + max_tokens]; those not rate-limited when
    the chain is built come first and the rate-limited ones after them,
    each group in chain order, so that when every candidate is
    rate-limited they are tried in chain order; the loop calls these
    models in this order, the next one after each retryable failure. *)
Theorem modelsToTry_partition
    (apiKeys : ApiKeysConfig) (config : RouterConfig (Tier → TierConfig))
    (decision : RoutingDecision) (modelId : string) (bodyLength maxTokens now : Z)
    (rateLimitedModels : gmap string Z)
    (fetch : nat → string → upstream_reply) (clock : nat → Z) :
  ∃ tierConfigs,
    (tierConfigs = tiers config ∨ agenticTiers config = Some tierConfigs)
    ∧ let estimated := estimatedTotalTokens bodyLength maxTokens in
      let chain := primary (tierConfigs (decision_tier decision))
                   :: fallback (tierConfigs (decision_tier decision)) in
      let contextFiltered :=
        getFallbackChainFiltered (decision_tier decision) tierConfigs estimated
          getModelContextWindow in
      let candidates :=
        filter (λ m, isModelAccessible apiKeys m = true)
               (take MAX_FALLBACK_ATTEMPTS contextFiltered) in
      let isLimited := λ m, fst (isRateLimited now m rateLimitedModels) in
      let modelsToTry :=
        fst (buildModelsToTry getFallbackChainFiltered getModelContextWindow
               apiKeys config (Some decision) modelId bodyLength maxTokens now
               rateLimitedModels) in
      modelsToTry = filter (λ m, isLimited m = false) candidates
                    ++ filter (λ m, isLimited m = true) candidates
      ∧ (∀ m, m ∈ contextFiltered ↔
              m ∈ chain ∧ ∃ w, getModelContextWindow m = Some w ∧ estimated ≤ w)
      ∧ (∀ m, m ∈ modelsToTry →
              m ∈ contextFiltered
              ∧ m ∈ chain
              ∧ (∃ w, getModelContextWindow m = Some w ∧ estimated ≤ w)
              ∧ isModelAccessible apiKeys m = true)
      ∧ ((∀ m, m ∈ candidates → isLimited m = true) → modelsToTry = candidates)
      ∧ (∃ n, tried (dispatch getFallbackChainFiltered getModelContextWindow
                       apiKeys config (Some decision) modelId bodyLength maxTokens now
                       rateLimitedModels fetch clock)
              = take n modelsToTry)
      ∧ ∀ (i : nat) (tryModel next : string) (rest : list string) (st : attempts)
          (s : Z) (b : jsstring),
          isModelAccessible apiKeys tryModel = true →
          fetch i tryModel = Reply s b →
          isProviderError s b = true →
          ∃ more, tried (attemptLoop apiKeys fetch clock i (tryModel :: next :: rest) st)
                  = tried st ++ tryModel :: next :: more.
Proof.
  set (mentions := match decision_reasoning decision with
                   | Some reasoning => includes (lit "agentic") reasoning
                   | None => false
                   end).
  set (tierConfigs := match agenticTiers config with
                      | Some agentic => if mentions then agentic else tiers config
                      | None => tiers config
                      end).
  exists tierConfigs. split.
  { unfold tierConfigs. destruct (agenticTiers config) as [a|]; [|left; reflexivity].
    destruct mentions; [right | left]; reflexivity. }
  cbv zeta.
  set (estimated := estimatedTotalTokens bodyLength maxTokens).
  set (contextFiltered := getFallbackChainFiltered _ tierConfigs _ _).
  set (candidates := filter _ (take _ contextFiltered)).
  assert (Hmodels :
    fst (buildModelsToTry getFallbackChainFiltered getModelContextWindow
           apiKeys config (Some decision) modelId bodyLength maxTokens now
           rateLimitedModels)
    = filter (λ m, fst (isRateLimited now m rateLimitedModels) = false) candidates
      ++ filter (λ m, fst (isRateLimited now m rateLimitedModels) = true) candidates).
  { unfold buildModelsToTry. apply prioritizeNonRateLimited_partition. }
  assert (Hfiltered : ∀ m, m ∈ contextFiltered ↔
            m ∈ primary (tierConfigs (decision_tier decision))
                :: fallback (tierConfigs (decision_tier decision))
            ∧ ∃ w, getModelContextWindow m = Some w ∧ estimated ≤ w).
  { intros m. unfold contextFiltered, getFallbackChainFiltered, getFallbackChain.
    rewrite list_elem_of_filter. unfold fitsContextWindow.
    destruct (getModelContextWindow m) as [w|].
    - rewrite Z.leb_le. split.
      + intros [Hw Hm]. split; [exact Hm | eauto].
      + intros [Hm (w' & [= <-] & Hw)]. split; assumption.
    - split; [intros [[=] _] | intros [_ (w' & [=] & _)]]. }
  split; [exact Hmodels|]. split; [exact Hfiltered|]. split; [|split; [|split]].
  - intros m. rewrite Hmodels, elem_of_app, !list_elem_of_filter.
    intros Hm.
    assert (Hc : m ∈ candidates) by (destruct Hm as [[_ H] | [_ H]]; exact H).
    unfold candidates in Hc. apply list_elem_of_filter in Hc as [Hacc Htake].
    assert (Hin : m ∈ contextFiltered).
    { apply list_elem_of_lookup in Htake as [j Hj].
      apply lookup_take_Some in Hj as [Hj _].
      apply list_elem_of_lookup. eauto. }
    split; [exact Hin|]. destruct (proj1 (Hfiltered m) Hin) as [Hchain Hfits].
    split; [exact Hchain|]. split; [exact Hfits | exact Hacc].
  - intros Hall. rewrite Hmodels.
    rewrite (filter_none (λ m, fst (isRateLimited now m rateLimitedModels) = false)).
    + rewrite (filter_all (λ m, fst (isRateLimited now m rateLimitedModels) = true));
        [reflexivity | exact Hall].
    + intros x Hx. rewrite (Hall x Hx). discriminate.
  - unfold dispatch.
    destruct (buildModelsToTry getFallbackChainFiltered getModelContextWindow
                apiKeys config (Some decision) modelId bodyLength maxTokens now
                rateLimitedModels) as [models marks0].
    cbn [fst].
    match goal with
    | |- ∃ n, tried (attemptLoop _ _ _ _ _ ?st) = _ =>
        destruct (attemptLoop_prefix apiKeys fetch clock models 0 st) as [n Hn]
    end.
    exists n. exact Hn.
  - intros i tryModel next rest st s b Hacc Hfetch Hretry.
    destruct (attemptLoop_reply apiKeys fetch clock i tryModel next rest st s b
                Hacc Hfetch) as [H _].
    exact (H Hretry).
Qed.

End FallbackChain.

Lemma explicit_model_single_attempt_witness :
  let apiKeys :=
    {| providers := {[ "openai"%string := {| apiKey := "sk-test"; baseUrl := None |} ]} |} in
  let config := {| tiers := tt; agenticTiers := None |} in
  let chain := λ (_ : Tier) (_ : unit) (_ : Z) (_ : string → option Z),
                 ["openai/gpt-4o"; "openai/gpt-4o-mini"]%string in
  let fetch := λ (_ : nat) (_ : string), Reply 503 (lit "overloaded") in
  ("openai/gpt-4o" ≠ "")%string
  ∧ tried (dispatch chain (λ _, Some 128000) apiKeys config None "openai/gpt-4o"
             200 4096 0 ∅ fetch (λ _, 0))
    = ["openai/gpt-4o"%string].
Proof.
  cbv zeta. split; [discriminate|].
  apply explicit_model_single_attempt. discriminate.
Defined.

(** A model of the chain whose context window is below the estimate is
    not among the models to try. *)
Lemma small_window_skipped :
  let apiKeys :=
    {| providers := {[ "openai"%string := {| apiKey := "sk-test"; baseUrl := None |} ]} |} in
  let config :=
    {| tiers := λ _ : Tier, {| primary := "openai/tiny"; fallback := ["openai/big"] |};
       agenticTiers := None |} in
  let window := λ m : string, if String.eqb m "openai/tiny" then Some 10 else Some 128000 in
  let decision := {| decision_model := "openai/tiny"; decision_tier := SIMPLE;
                     decision_reasoning := None |} in
  estimatedTotalTokens 200 4096 = 4146
  ∧ fst (buildModelsToTry getFallbackChainFiltered window apiKeys config (Some decision)
           "auto" 200 4096 0 ∅)
    = ["openai/big"%string].
Proof. cbv zeta. split; vm_compute; reflexivity. Qed.

(** C5, as stated, fails: with every candidate rate-limited the first
    model tried is the first of the chain, here the one throttled last. *)
Lemma all_limited_chain_order :
  let apiKeys :=
    {| providers := {[ "openrouter"%string := {| apiKey := "sk-or-test"; baseUrl := None |} ]} |} in
  let config :=
    {| tiers := λ _ : Tier, {| primary := "openai/gpt-4o";
                               fallback := ["deepseek/deepseek-chat"] |};
       agenticTiers := None |} in
  let chain := getFallbackChainFiltered in
  let decision := {| decision_model := "openai/gpt-4o"; decision_tier := MEDIUM;
                     decision_reasoning := None |} in
  let rateLimitedModels : gmap string Z :=
    {[ "openai/gpt-4o"%string := 50000; "deepseek/deepseek-chat"%string := 10000 ]} in
  let now := 55000 in
  let fetch := λ (_ : nat) (_ : string), Reply 429 (lit "Rate limit exceeded") in
  fst (isRateLimited now "openai/gpt-4o" rateLimitedModels) = true
  ∧ fst (isRateLimited now "deepseek/deepseek-chat" rateLimitedModels) = true
  ∧ rateLimitedModels !! "deepseek/deepseek-chat"%string = Some 10000
  ∧ rateLimitedModels !! "openai/gpt-4o"%string = Some 50000
  ∧ chain MEDIUM (tiers config) (estimatedTotalTokens 200 4096) (λ _, Some 128000)
    = ["openai/gpt-4o"; "deepseek/deepseek-chat"]%string
  ∧ fst (buildModelsToTry chain (λ _, Some 128000) apiKeys config (Some decision)
           "openai/gpt-4o" 200 4096 now rateLimitedModels)
    = ["openai/gpt-4o"; "deepseek/deepseek-chat"]%string
  ∧ tried (dispatch chain (λ _, Some 128000) apiKeys config (Some decision)
             "openai/gpt-4o" 200 4096 now rateLimitedModels fetch (λ _, now))
    = ["openai/gpt-4o"; "deepseek/deepseek-chat"]%string.
Proof. cbv zeta. repeat split; vm_compute; reflexivity. Qed.

(** ** Message normalization for the generate-content dialect *)

Lemma role_is_spec (r : role_value) (s : string) : reflect (r = RoleString s) (role_is r s).
Proof.
  destruct r as [x|key]; cbn.
  - destruct (String.eqb_spec x s); constructor; congruence.
  - constructor. discriminate.
Qed.

Lemma role_is_eq (r : role_value) (s : string) : role_is r s = true ↔ r = RoleString s.
Proof. destruct (role_is_spec r s); split; congruence. Qed.

Section MessageProperties.

Variable Value : Type.
Variable stringify : Value → option jsstring.
Variable value_truthy : Value → bool.

Implicit Types (messages : list (ChatMessage Value)) (msg : ChatMessage Value).

Lemma leading_after messages : messages = leadingSystem messages ++ afterSystem messages.
Proof.
  induction messages as [|msg rest IH]; [reflexivity|]. simpl.
  destruct (role_is (role msg) "system"); [|reflexivity].
  simpl. f_equal. exact IH.
Qed.

Lemma firstNonSystem_after messages : firstNonSystem messages = head (afterSystem messages).
Proof.
  induction messages as [|msg rest IH]; [reflexivity|]. simpl.
  destruct (role_is (role msg) "system"); [exact IH | reflexivity].
Qed.

Lemma firstNonSystem_leading messages (tail : list (ChatMessage Value)) :
  firstNonSystem (leadingSystem messages ++ tail) = firstNonSystem tail.
Proof.
  induction messages as [|msg rest IH]; [reflexivity|]. simpl.
  destruct (role_is (role msg) "system") eqn:Hs; [|reflexivity].
  simpl. rewrite Hs. exact IH.
Qed.

(** The index the search loop finds is the number of leading [system]
    messages. *)
Lemma firstNonSystemIdx_spec messages (i : nat) :
  firstNonSystemIdx messages i =
  match firstNonSystem messages with
  | Some _ => Some (i + length (leadingSystem messages))%nat
  | None => None
  end.
Proof.
  revert i. induction messages as [|msg rest IH]; intros i; [reflexivity|]. simpl.
  destruct (role_is (role msg) "system"); simpl.
  - rewrite IH. destruct (firstNonSystem rest); [f_equal; lia | reflexivity].
  - f_equal. lia.
Qed.

Lemma lookup_leading messages :
  messages !! length (leadingSystem messages) = firstNonSystem messages.
Proof.
  induction messages as [|msg rest IH]; [reflexivity|]. simpl.
  destruct (role_is (role msg) "system"); [exact IH | reflexivity].
Qed.

Lemma splice_in_leading messages (item : ChatMessage Value) :
  splice_in (length (leadingSystem messages)) item messages
  = leadingSystem messages ++ item :: afterSystem messages.
Proof.
  unfold splice_in. rewrite (leading_after messages) at 2 4.
  rewrite take_app_length, drop_app_length. reflexivity.
Qed.

(** What [normalizeMessagesForGoogle] returns, by the role of the first
    message that is not a [system] one. *)
Lemma normalizeMessagesForGoogle_cases messages :
  normalizeMessagesForGoogle messages =
  match firstNonSystem messages with
  | Some first =>
      if role_is (role first) "user" then messages
      else if role_is (role first) "assistant" || role_is (role first) "model"
      then leadingSystem messages ++ CONTINUING :: afterSystem messages
      else messages
  | None => messages
  end.
Proof.
  unfold normalizeMessagesForGoogle.
  destruct messages as [|m0 rest]; [reflexivity|].
  rewrite firstNonSystemIdx_spec.
  destruct (firstNonSystem (m0 :: rest)) as [first|] eqn:Hf; [|reflexivity].
  rewrite Nat.add_0_l, lookup_leading, Hf, splice_in_leading. reflexivity.
Qed.

(** C7 (as amended).  After normalization for a dialect-C model: when
    the first non-system message has role [assistant] or [model], a
    synthetic [user] message with the text "(continuing conversation)"
    stands before it, and is the first non-system message; when it has
    any other role ([user], but also [tool] or [function]), or when there
    is no such message, the list is unchanged. *)
Theorem normalizeMessagesForGoogle_first_role messages :
  match firstNonSystem messages with
  | Some first =>
      if role_is (role first) "assistant" || role_is (role first) "model" then
        normalizeMessagesForGoogle messages
        = leadingSystem messages ++ CONTINUING :: afterSystem messages
        ∧ firstNonSystem (normalizeMessagesForGoogle messages) = Some CONTINUING
        ∧ role (@CONTINUING Value) = "user"%string
        ∧ content (@CONTINUING Value) = CString (lit "(continuing conversation)")
      else
        normalizeMessagesForGoogle messages = messages
        ∧ firstNonSystem (normalizeMessagesForGoogle messages) = Some first
  | None => normalizeMessagesForGoogle messages = messages
  end.
Proof.
  rewrite normalizeMessagesForGoogle_cases.
  destruct (firstNonSystem messages) as [first|] eqn:Hf; [|reflexivity].
  destruct (role_is (role first) "user") eqn:Hu.
  - apply role_is_eq in Hu. rewrite Hu. simpl. split; [reflexivity | exact Hf].
  - destruct (role_is (role first) "assistant" || role_is (role first) "model").
    + split; [reflexivity|]. split; [|split; reflexivity].
      rewrite firstNonSystem_leading. reflexivity.
    + split; [reflexivity | exact Hf].
Qed.

End MessageProperties.

(** C7, as stated, fails: a conversation whose first non-system message
    has role [tool] goes to a Google model with that message first. *)
Lemma normalizeMessagesForGoogle_tool_first :
  let messages : list (ChatMessage unit) :=
    [ {| role := "system"; content := CString (lit "You are a helpful assistant.") |};
      {| role := "tool"; content := CString (lit "42") |};
      {| role := "user"; content := CString (lit "thanks") |} ] in
  isGoogleModel "google/gemini-2.5-flash" = true
  ∧ normalizeMessageRoles messages = messages
  ∧ normalizeMessagesForGoogle (normalizeMessageRoles messages) = messages
  ∧ role <$> firstNonSystem (normalizeMessagesForGoogle (normalizeMessageRoles messages))
    = Some (RoleString "tool").
Proof. cbv zeta. repeat split; vm_compute; reflexivity. Qed.

(** ** Translation to the messages dialect *)

Section TranslationProperties.

Variable Value : Type.
Variable stringify : Value → option jsstring.
Variable value_truthy : Value → bool.

Implicit Types (messages : list (ChatMessage Value)) (msg : ChatMessage Value).

(** The loop of [convertToAnthropicFormat]: [system] ends as the text of
    the last [system] message, [nonSystemMessages] as the other messages
    with their roles coerced, in order. *)
Lemma convert_fold messages :
  ∀ (system : option jsstring) (acc : list (ChatMessage Value)),
    fold_left (convert_step stringify) messages (system, acc)
    = (match last (filter (λ msg, role msg = "system"%string) messages) with
       | Some msg => systemText stringify msg
       | None => system
       end,
       acc ++ map coerceRole (filter (λ msg, role msg ≠ "system"%string) messages)).
Proof.
  induction messages as [|msg rest IH]; intros system acc.
  - simpl. rewrite app_nil_r. reflexivity.
  - cbn [fold_left]. unfold convert_step at 2.
    destruct (role_is_spec (role msg) "system") as [Hs | Hs].
    + rewrite IH.
      rewrite (filter_cons_True (λ msg, role msg = "system"%string)) by exact Hs.
      rewrite (filter_cons_False (λ msg, role msg ≠ "system"%string)) by tauto.
      rewrite last_cons.
      destruct (last (filter (λ msg0, role msg0 = "system"%string) rest)); reflexivity.
    + rewrite IH.
      rewrite (filter_cons_False (λ msg, role msg = "system"%string)) by exact Hs.
      rewrite (filter_cons_True (λ msg, role msg ≠ "system"%string)) by exact Hs.
      cbn [map]. rewrite <- app_assoc. reflexivity.
Qed.

Lemma coerceRole_role msg :
  role (coerceRole msg) = "user"%string ∨ role (coerceRole msg) = "assistant"%string.
Proof.
  unfold coerceRole. simpl. destruct (role_is (role msg) "assistant"); auto.
Qed.

(** C6 (as amended).  The translation to the messages dialect removes
    every [system] message, wherever it stands, and sets the top-level
    [system] to the text of the last of them alone, when that text is
    not empty; every other message is kept, in order, with its role
    coerced to [assistant] or [user]; [max_tokens] is 4096 when the
    field is absent (or is 0). *)
Theorem convertToAnthropicFormat_translation (parsed : ChatBody Value) :
  let messages := default [] (body_messages parsed) in
  let translated := convertToAnthropicFormat stringify value_truthy parsed in
  anthropic_messages translated
  = map coerceRole (filter (λ msg, role msg ≠ "system"%string) messages)
  ∧ Forall (λ msg, role msg = "user"%string ∨ role msg = "assistant"%string)
           (anthropic_messages translated)
  ∧ anthropic_system translated
    = match last (filter (λ msg, role msg = "system"%string) messages) with
      | Some msg =>
          match systemText stringify msg with
          | Some (c :: text) => Some (c :: text)
          | _ => None
          end
      | None => None
      end
  ∧ anthropic_max_tokens translated
    = match body_max_tokens parsed with
      | Some n => if n =? 0 then 4096 else n
      | None => 4096
      end.
Proof.
  cbv zeta. unfold convertToAnthropicFormat.
  rewrite convert_fold. cbn [app anthropic_messages anthropic_system anthropic_max_tokens].
  split; [reflexivity|]. split; [|split].
  - apply Forall_map, Forall_forall. intros msg _. apply coerceRole_role.
  - destruct (last _) as [msg|]; [|reflexivity].
    destruct (systemText stringify msg) as [[|c text]|]; reflexivity.
  - reflexivity.
Qed.

End TranslationProperties.

(** C6, as stated, fails: of two consecutive [system] messages only the
    second reaches the top-level [system] string. *)
Lemma convertToAnthropicFormat_last_system_only :
  let messages : list (ChatMessage unit) :=
    [ {| role := "system"; content := CString (lit "You are a translator.") |};
      {| role := "system"; content := CString (lit "Reply in French.") |};
      {| role := "user"; content := CString (lit "Good morning") |} ] in
  let parsed :=
    {| body_model := "claude-sonnet-4-20250514"; body_messages := Some messages;
       body_max_tokens := None; body_stream := false; body_temperature := None;
       body_top_p := None; body_tools := None |} in
  let translated := convertToAnthropicFormat (λ _, None) (λ _, false) parsed in
  anthropic_system translated = Some (lit "Reply in French.")
  ∧ ∀ text, anthropic_system translated = Some text →
            includes (lit "You are a translator.") text = false.
Proof.
  cbv zeta. split; [vm_compute; reflexivity|].
  intros text. vm_compute. intros [= <-]. reflexivity.
Qed.

(** ** The calls on the dedup store *)

(** C4 fails on the path where every model failed: the handler calls
    [complete] and returns without setting [completed], so the [close]
    handler of the ended response calls [removeInflight] as well. *)
Theorem all_models_failed_completes_and_removes :
  proxyRequest_calls Miss AllModelsFailed AfterResponseEnd
  = [MarkInflight; Complete; RemoveInflight].
Proof. reflexivity. Qed.

(** The other paths, for comparison: after a reply that was written, one
    [complete] and nothing else. *)
Lemma responded_completes_once :
  proxyRequest_calls Miss Responded AfterResponseEnd = [MarkInflight; Complete].
Proof. reflexivity. Qed.

Lemma thrown_removes_twice :
  proxyRequest_calls Miss Thrown AfterResponseEnd
  = [MarkInflight; RemoveInflight; RemoveInflight].
Proof. reflexivity. Qed.

Lemma disconnect_then_complete :
  proxyRequest_calls Miss Responded ClientDisconnects
  = [MarkInflight; RemoveInflight; Complete].
Proof. reflexivity. Qed.

(** ** Thinking tokens *)

(** *** The matcher on a quantified character class *)

Lemma star_loop_cls {A : Type} (ic negated : bool) (items : list citem) (greedy : bool)
    (k : option Z → jsstring → option A) :
  ∀ (n : nat) (p : option Z) (s : jsstring),
    (length s ≤ n)%nat →
    star_loop (rmatch ic (Cls negated items)) greedy k n p s
    = star_cls negated items greedy k p s.
Proof.
  induction n as [|n IH]; intros p s Hlen.
  - destruct s; [reflexivity | simpl in Hlen; lia].
  - destruct s as [|x s'].
    + simpl. destruct greedy; [reflexivity|]. destruct (k p []); reflexivity.
    + cbn [star_loop star_cls rmatch].
      assert (Hlt : (length s' <? length (x :: s'))%nat = true)
        by (apply Nat.ltb_lt; simpl; lia).
      rewrite Hlt. rewrite IH by (simpl in Hlen; lia). reflexivity.
Qed.

Lemma rmatch_star_cls {A : Type} (ic negated : bool) (items : list citem) (greedy : bool)
    (p : option Z) (s : jsstring) (k : option Z → jsstring → option A) :
  rmatch ic (Star greedy (Cls negated items)) p s k
  = star_cls negated items greedy k p s.
Proof. exact (star_loop_cls ic negated items greedy k (length s) p s (le_n _)). Qed.

Lemma star_cls_ext {A : Type} (negated : bool) (items : list citem) (greedy : bool)
    (k k' : option Z → jsstring → option A) :
  (∀ p s, k p s = k' p s) →
  ∀ p s, star_cls negated items greedy k p s = star_cls negated items greedy k' p s.
Proof.
  intros Hk p s. revert p. induction s as [|x s IH]; intros p.
  - apply Hk.
  - cbn [star_cls]. rewrite IH, Hk. reflexivity.
Qed.

Lemma star_loop_ext {A : Type}
    (body body' : option Z → jsstring → (option Z → jsstring → option A) → option A)
    (greedy : bool) (k k' : option Z → jsstring → option A) :
  (∀ p s c c', (∀ p' s', c p' s' = c' p' s') → body p s c = body' p s c') →
  (∀ p s, k p s = k' p s) →
  ∀ n p s, star_loop body greedy k n p s = star_loop body' greedy k' n p s.
Proof.
  intros Hbody Hk. induction n as [|n IH]; intros p s.
  - apply Hk.
  - cbn [star_loop]. rewrite (Hk p s).
    rewrite (Hbody p s _
               (λ p' s', if (length s' <? length s)%nat
                         then star_loop body' greedy k' n p' s' else None)).
    + reflexivity.
    + intros p' s'. rewrite IH. reflexivity.
Qed.

(** The two forms of the matcher agree. *)
Lemma rmatch_cls_form_eq {A : Type} (ic : bool) (r : regex) :
  ∀ (p : option Z) (s : jsstring) (k k' : option Z → jsstring → option A),
    (∀ p' s', k p' s' = k' p' s') →
    rmatch ic r p s k = rmatch_cls_form ic r p s k'.
Proof.
  induction r as [|c| |negated items|r1 IH1 r2 IH2|r1 IH1 r2 IH2|r1 IH1|greedy r1 IH1|];
    intros p s k k' Hk.
  - apply Hk.
  - destruct s as [|x s]; [reflexivity|]. simpl. rewrite Hk. reflexivity.
  - destruct s as [|x s]; [reflexivity|]. simpl. rewrite Hk. reflexivity.
  - destruct s as [|x s]; [reflexivity|]. simpl. rewrite Hk. reflexivity.
  - cbn [rmatch rmatch_cls_form]. apply IH1. intros p' s'. apply IH2, Hk.
  - cbn [rmatch rmatch_cls_form]. rewrite (IH1 p s k k' Hk), (IH2 p s k k' Hk). reflexivity.
  - cbn [rmatch rmatch_cls_form]. rewrite (IH1 p s k k' Hk), Hk. reflexivity.
  - assert (Hloop : rmatch ic (Star greedy r1) p s k
                    = star_loop (rmatch_cls_form ic r1) greedy k' (length s) p s).
    { change (rmatch ic (Star greedy r1) p s k)
        with (star_loop (rmatch ic r1) greedy k (length s) p s).
      apply star_loop_ext; [|exact Hk]. intros; apply IH1; assumption. }
    destruct r1; try exact Hloop.
    rewrite rmatch_star_cls. cbn [rmatch_cls_form]. apply star_cls_ext, Hk.
  - cbn [rmatch rmatch_cls_form]. rewrite Hk. reflexivity.
Qed.

Lemma regex_exec_cls_form (ic : bool) (r : regex) (p : option Z) (s : jsstring) :
  regex_exec ic r p s = rmatch_cls_form ic r p s (λ _ t, Some t).
Proof. apply rmatch_cls_form_eq. reflexivity. Qed.

Lemma chr_eq_lt (ic : bool) (x : Z) : x ≠ 60 → chr_eq ic 60 x = false.
Proof.
  intros Hx. unfold chr_eq, canon. destruct ic.
  - change ((97 <=? 60) && (60 <=? 122)) with false. cbv iota.
    destruct ((97 <=? x) && (x <=? 122)) eqn:Hr.
    + apply andb_true_iff in Hr as [H1 H2]. apply Z.leb_le in H1. apply Z.eqb_neq. lia.
    + apply Z.eqb_neq. congruence.
  - apply Z.eqb_neq. congruence.
Qed.

Lemma exec_not_lt (ic : bool) (r : regex) (p : option Z) (x : Z) (s : jsstring) :
  starts_with_lt r → x ≠ 60 → regex_exec ic r p (x :: s) = None.
Proof.
  intros [r' ->] Hx. unfold regex_exec. cbn [rmatch].
  rewrite (chr_eq_lt ic x Hx). reflexivity.
Qed.

(** *** Deleting the matches *)

(** Text without [<] is kept as it is. *)
Lemma remove_go_text (ic : bool) (r : regex) (body : jsstring) :
  starts_with_lt r → Forall (λ c, c ≠ 60) body →
  ∀ (p : option Z) (s : jsstring),
    ∃ p', remove_go ic r p O (body ++ s) = body ++ remove_go ic r p' O s.
Proof.
  intros Hr Hbody. induction Hbody as [|c body Hc _ IH]; intros p s.
  - exists p. reflexivity.
  - cbn [app remove_go]. rewrite (exec_not_lt ic r p c _ Hr Hc).
    destruct (IH (Some c) s) as [p' ->]. exists p'. reflexivity.
Qed.

Lemma remove_go_skip (ic : bool) (r : regex) (m : jsstring) :
  ∀ (p : option Z) (s : jsstring),
    ∃ p', remove_go ic r p (length m) (m ++ s) = remove_go ic r p' O s.
Proof.
  induction m as [|x m IH]; intros p s.
  - exists p. destruct s; reflexivity.
  - cbn [app length remove_go]. apply IH.
Qed.

(** A match at the current position is dropped as a whole. *)
Lemma remove_go_match (ic : bool) (r : regex) (p : option Z) (x : Z) (m s : jsstring) :
  regex_exec ic r p (x :: m ++ s) = Some s →
  ∃ p', remove_go ic r p O (x :: m ++ s) = remove_go ic r p' O s.
Proof.
  intros Hexec. cbn [remove_go]. rewrite Hexec.
  replace (length (x :: m ++ s) - length s)%nat with (S (length m))
    by (cbn [length]; rewrite length_app; lia).
  apply remove_go_skip.
Qed.

(** *** The expressions of [stripThinkingTokens] *)

Lemma rmatch_seq {A : Type} (ic : bool) (r1 r2 : regex) (p : option Z) (s : jsstring)
    (k : option Z → jsstring → option A) :
  rmatch ic (Seq r1 r2) p s k = rmatch ic r1 p s (λ p' s', rmatch ic r2 p' s' k).
Proof. reflexivity. Qed.

Lemma rmatch_chr {A : Type} (ic : bool) (c x : Z) (p : option Z) (s : jsstring)
    (k : option Z → jsstring → option A) :
  rmatch ic (Chr c) p (x :: s) k = if chr_eq ic c x then k (Some x) s else None.
Proof. reflexivity. Qed.

Lemma rmatch_cls {A : Type} (ic negated : bool) (items : list citem) (x : Z)
    (p : option Z) (s : jsstring) (k : option Z → jsstring → option A) :
  rmatch ic (Cls negated items) p (x :: s) k
  = if in_class negated items x then k (Some x) s else None.
Proof. reflexivity. Qed.

Lemma rmatch_alt {A : Type} (ic : bool) (r1 r2 : regex) (p : option Z) (s : jsstring)
    (k : option Z → jsstring → option A) :
  rmatch ic (Alt r1 r2) p s k
  = match rmatch ic r1 p s k with
    | Some t => Some t
    | None => rmatch ic r2 p s k
    end.
Proof. reflexivity. Qed.

Lemma rmatch_opt {A : Type} (ic : bool) (r : regex) (p : option Z) (s : jsstring)
    (k : option Z → jsstring → option A) :
  rmatch ic (Opt r) p s k
  = match rmatch ic r p s k with
    | Some t => Some t
    | None => k p s
    end.
Proof. reflexivity. Qed.

Lemma rmatch_wordb {A : Type} (ic : bool) (p : option Z) (s : jsstring)
    (k : option Z → jsstring → option A) :
  rmatch ic WordB p s k
  = if xorb (is_word_at p) (is_word_at (head s)) then k p s else None.
Proof. reflexivity. Qed.

Lemma starts_KIMI_BLOCK_RE : starts_with_lt KIMI_BLOCK_RE.
Proof. eexists. reflexivity. Qed.

Lemma starts_KIMI_TOKEN_RE : starts_with_lt KIMI_TOKEN_RE.
Proof. eexists. reflexivity. Qed.

Lemma starts_THINKING_BLOCK_RE : starts_with_lt THINKING_BLOCK_RE.
Proof. eexists. reflexivity. Qed.

Lemma starts_THINKING_TAG_RE : starts_with_lt THINKING_TAG_RE.
Proof. eexists. reflexivity. Qed.

Lemma KIMI_TOKEN_RE_eq :
  KIMI_TOKEN_RE
  = Seq (Chr 60)
      (Seq (Cls false [CChar 65372; CChar 124])
         (Seq (Star true (Cls true [CChar 60; CChar 62]))
            (Seq (Cls false [CChar 65372; CChar 124]) (Chr 62)))).
Proof. reflexivity. Qed.

Lemma in_class_bar (c : Z) : in_class false [CChar 65372; CChar 124] c = is_bar c.
Proof. unfold in_class, is_bar. simpl. rewrite orb_false_r. reflexivity. Qed.

Lemma is_bar_cases (c : Z) : is_bar c = true → c = 65372 ∨ c = 124.
Proof.
  unfold is_bar. intros H. apply orb_true_iff in H as [H | H]; apply Z.eqb_eq in H.
  - left. exact H.
  - right. exact H.
Qed.

Lemma in_class_not_angle (c : Z) :
  c ≠ 60 → c ≠ 62 → in_class true [CChar 60; CChar 62] c = true.
Proof.
  intros H1 H2. unfold in_class. simpl.
  apply Z.eqb_neq in H1, H2. rewrite H1, H2. reflexivity.
Qed.

(** The greedy [[^<>]*] of [KIMI_TOKEN_RE] runs over the name and the
    closing bar, and gives the bar back. *)
Lemma token_name_greedy (b2 : Z) (s : jsstring) (name : jsstring) :
  is_bar b2 = true → Forall (λ c, c ≠ 60 ∧ c ≠ 62) name →
  ∀ p,
    star_cls true [CChar 60; CChar 62] true
      (λ p' s', rmatch false (Seq (Cls false [CChar 65372; CChar 124]) (Chr 62)) p' s'
                  (λ _ t, Some t))
      p (name ++ b2 :: 62 :: s)
    = Some s.
Proof.
  intros Hb Hname. induction Hname as [|c name [Hc1 Hc2] _ IH]; intros p.
  - cbn [app star_cls].
    rewrite in_class_not_angle by (apply is_bar_cases in Hb; lia).
    change (in_class true [CChar 60; CChar 62] 62) with false. cbv iota.
    rewrite !rmatch_seq, !rmatch_cls, !in_class_bar.
    change (is_bar 62) with false. cbv iota.
    rewrite Hb, rmatch_chr. reflexivity.
  - cbn [app star_cls]. rewrite in_class_not_angle by assumption.
    rewrite IH. reflexivity.
Qed.

Lemma exec_token_sentinel (p : option Z) (b1 b2 : Z) (name s : jsstring) :
  is_bar b1 = true → is_bar b2 = true → Forall (λ c, c ≠ 60 ∧ c ≠ 62) name →
  regex_exec false KIMI_TOKEN_RE p (60 :: (b1 :: name ++ [b2; 62]) ++ s) = Some s.
Proof.
  intros Hb1 Hb2 Hname. unfold regex_exec. rewrite KIMI_TOKEN_RE_eq.
  cbn [app]. rewrite <- app_assoc. cbn [app].
  rewrite rmatch_seq, rmatch_chr. change (chr_eq false 60 60) with true. cbv iota.
  rewrite rmatch_seq, rmatch_cls, in_class_bar, Hb1.
  rewrite rmatch_seq, rmatch_star_cls.
  apply token_name_greedy; assumption.
Qed.

(** After [<], a thinking tag goes on with a letter or [/], not a bar. *)
Lemma thinking_tag_cases (body : jsstring) :
  is_thinking_tag (60 :: body) →
  body = lit "think>" ∨ body = lit "/think>" ∨ body = lit "thinking>"
  ∨ body = lit "/thinking>" ∨ body = lit "thought>" ∨ body = lit "/thought>"
  ∨ body = lit "antthinking>" ∨ body = lit "/antthinking>".
Proof.
  unfold is_thinking_tag, THINKING_TAGS. cbn [map].
  rewrite !elem_of_cons, elem_of_nil.
  intros [H|[H|[H|[H|[H|[H|[H|[H|[]]]]]]]]]; injection H as ->; tauto.
Qed.

Lemma exec_tag (p : option Z) (body s : jsstring) :
  is_thinking_tag (60 :: body) →
  regex_exec true THINKING_TAG_RE p (60 :: body ++ s) = Some s.
Proof.
  intros H. rewrite regex_exec_cls_form.
  destruct (thinking_tag_cases body H) as [-> | [-> | [-> | [-> | [-> | [-> | [-> | ->]]]]]]];
    vm_compute; reflexivity.
Qed.

(** *** The matcher goes forward *)

Lemma star_loop_suffix {A : Type}
    (body : option Z → jsstring → (option Z → jsstring → option A) → option A)
    (greedy : bool) (k : option Z → jsstring → option A) :
  (∀ p s c t, body p s c = Some t → ∃ p' m s', s = m ++ s' ∧ c p' s' = Some t) →
  ∀ n p s t, star_loop body greedy k n p s = Some t →
             ∃ p' m s', s = m ++ s' ∧ k p' s' = Some t.
Proof.
  intros Hbody. induction n as [|n IH]; intros p s t H.
  - exists p, [], s. split; [reflexivity | exact H].
  - cbn [star_loop] in H.
    assert (Hagain :
      ∀ t', body p s (λ p' s', if (length s' <? length s)%nat
                              then star_loop body greedy k n p' s' else None) = Some t' →
            ∃ p' m s', s = m ++ s' ∧ k p' s' = Some t').
    { intros t' Ha. apply Hbody in Ha as (p1 & m1 & s1 & -> & Ha).
      destruct (length s1 <? length (m1 ++ s1))%nat; [|discriminate].
      apply IH in Ha as (p2 & m2 & s2 & -> & Ha). exists p2, (m1 ++ m2), s2.
      split; [rewrite app_assoc; reflexivity | exact Ha]. }
    destruct greedy.
    + destruct (body p s _) as [t'|] eqn:Ha.
      * injection H as <-. apply Hagain. reflexivity.
      * exists p, [], s. split; [reflexivity | exact H].
    + destruct (k p s) as [t'|] eqn:Hk.
      * injection H as <-. exists p, [], s. split; [reflexivity | exact Hk].
      * apply Hagain. exact H.
Qed.

(** A match goes on with what is left of the input. *)
Lemma rmatch_suffix {A : Type} (ic : bool) (r : regex) :
  ∀ (p : option Z) (s : jsstring) (k : option Z → jsstring → option A) (t : A),
    rmatch ic r p s k = Some t →
    ∃ p' m s', s = m ++ s' ∧ k p' s' = Some t.
Proof.
  induction r as [|c| |negated items|r1 IH1 r2 IH2|r1 IH1 r2 IH2|r1 IH1|greedy r1 IH1|];
    intros p s k t H.
  - exists p, [], s. split; [reflexivity | exact H].
  - destruct s as [|x s]; [discriminate|]. cbn [rmatch] in H.
    destruct (chr_eq ic c x); [|discriminate].
    exists (Some x), [x], s. split; [reflexivity | exact H].
  - destruct s as [|x s]; [discriminate|]. cbn [rmatch] in H.
    destruct (is_line_terminator x); [discriminate|].
    exists (Some x), [x], s. split; [reflexivity | exact H].
  - destruct s as [|x s]; [discriminate|]. cbn [rmatch] in H.
    destruct (in_class negated items x); [|discriminate].
    exists (Some x), [x], s. split; [reflexivity | exact H].
  - cbn [rmatch] in H. apply IH1 in H as (p1 & m1 & s1 & -> & H).
    apply IH2 in H as (p2 & m2 & s2 & -> & H). exists p2, (m1 ++ m2), s2.
    split; [rewrite app_assoc; reflexivity | exact H].
  - cbn [rmatch] in H. destruct (rmatch ic r1 p s k) as [t'|] eqn:H1.
    + injection H as <-. apply IH1 in H1. exact H1.
    + apply IH2 in H. exact H.
  - cbn [rmatch] in H. destruct (rmatch ic r1 p s k) as [t'|] eqn:H1.
    + injection H as <-. apply IH1 in H1. exact H1.
    + exists p, [], s. split; [reflexivity | exact H].
  - cbn [rmatch] in H. eapply star_loop_suffix; [|exact H].
    intros p0 s0 c t0. apply IH1.
  - cbn [rmatch] in H. destruct (xorb _ _); [|discriminate].
    exists p, [], s. split; [reflexivity | exact H].
Qed.

Lemma chr_eq_gt (ic : bool) (x : Z) : x ≠ 62 → chr_eq ic 62 x = false.
Proof.
  intros Hx. unfold chr_eq, canon. destruct ic.
  - change ((97 <=? 62) && (62 <=? 122)) with false. cbv iota.
    destruct ((97 <=? x) && (x <=? 122)) eqn:Hr.
    + apply andb_true_iff in Hr as [H1 H2]. apply Z.leb_le in H1. apply Z.eqb_neq. lia.
    + apply Z.eqb_neq. congruence.
  - apply Z.eqb_neq. congruence.
Qed.

(** A match of an expression that ends with [>] ends with [>]. *)
Lemma rmatch_ends_gt {A : Type} (ic : bool) (r : regex) :
  ends_with_gt r = true →
  ∀ (p : option Z) (s : jsstring) (k : option Z → jsstring → option A) (t : A),
    rmatch ic r p s k = Some t →
    ∃ m s', s = m ++ 62 :: s' ∧ k (Some 62) s' = Some t.
Proof.
  induction r as [|c| |negated items|r1 IH1 r2 IH2|r1 IH1 r2 IH2|r1 IH1|greedy r1 IH1|];
    intros Hr p s k t H; try discriminate Hr.
  - cbn [ends_with_gt] in Hr. apply Z.eqb_eq in Hr. subst c.
    destruct s as [|x s]; [discriminate|]. cbn [rmatch] in H.
    destruct (Z.eq_dec x 62) as [-> | Hx].
    + exists [], s. split; [reflexivity|]. destruct (chr_eq ic 62 62); [exact H | discriminate].
    + rewrite (chr_eq_gt ic x Hx) in H. discriminate.
  - cbn [ends_with_gt] in Hr. cbn [rmatch] in H.
    apply rmatch_suffix in H as (p1 & m1 & s1 & -> & H).
    apply (IH2 Hr) in H as (m & s' & -> & H). exists (m1 ++ m), s'.
    split; [rewrite <- app_assoc; reflexivity | exact H].
Qed.

(** A match of one of the expressions is at a [<] and goes up to a
    [>]. *)
Lemma exec_lt_gt (ic : bool) (r : regex) (p : option Z) (x : Z) (s rest : jsstring) :
  starts_with_lt r → ends_with_gt r = true →
  regex_exec ic r p (x :: s) = Some rest →
  x = 60 ∧ ∃ m, s = m ++ 62 :: rest.
Proof.
  intros Hlt Hgt H. destruct (Z.eq_dec x 60) as [-> | Hne].
  - split; [reflexivity|]. unfold regex_exec in H.
    apply (rmatch_ends_gt ic r Hgt) in H as (m0 & s' & Heq & [= ->]).
    destruct m0 as [|y m0]; [discriminate Heq|].
    cbn [app] in Heq. injection Heq as _ ->. exists m0. reflexivity.
  - rewrite (exec_not_lt ic r p x s Hlt Hne) in H. discriminate.
Qed.

Lemma remove_go_pass (ic : bool) (r : regex) :
  starts_with_lt r → ends_with_gt r = true →
  ∀ (n : nat) (s : jsstring), (length s ≤ n)%nat →
    ∀ p, pass ic r s (remove_go ic r p O s).
Proof.
  intros Hlt Hgt. induction n as [|n IH]; intros s Hlen p.
  { destruct s; [apply pass_nil | cbn in Hlen; lia]. }
  destruct s as [|x s]; [apply pass_nil|].
  cbn [length] in Hlen. cbn [remove_go].
  destruct (regex_exec ic r p (x :: s)) as [rest|] eqn:He.
  - destruct (exec_lt_gt ic r p x s rest Hlt Hgt He) as [-> [m ->]].
    replace (length (60%Z :: m ++ 62%Z :: rest) - length rest)%nat
      with (S (length (m ++ [62])))
      by (cbn [length]; rewrite !length_app; cbn [length]; lia).
    replace (m ++ 62 :: rest) with ((m ++ [62]) ++ rest)
      by (rewrite <- app_assoc; reflexivity).
    destruct (remove_go_skip ic r (m ++ [62]) (Some 60) rest) as [p' ->].
    rewrite <- app_assoc. cbn [app].
    apply (pass_drop ic r p m rest).
    + rewrite He. discriminate.
    + apply IH. rewrite length_app in Hlen. cbn [length] in Hlen. lia.
  - apply (pass_keep ic r p); [exact He|]. apply IH. lia.
Qed.

Lemma remove_all_pass (ic : bool) (r : regex) (s : jsstring) :
  starts_with_lt r → ends_with_gt r = true → pass ic r s (remove_all ic r s).
Proof. intros Hlt Hgt. apply (remove_go_pass ic r Hlt Hgt (length s)). reflexivity. Qed.

(** *** Where a token may open *)

Lemma is_word_not_space (x : Z) : is_word x = true → is_space x = false.
Proof.
  unfold is_word. rewrite !orb_true_iff, !andb_true_iff, !Z.leb_le, Z.eqb_eq.
  intros H. unfold is_space.
  repeat match goal with
         | |- context [x =? ?n] => destruct (Z.eqb_spec x n); [lia|]
         end.
  destruct (Z.leb_spec 8192 x); [lia | reflexivity].
Qed.

Lemma chr_eq_letter_word (c x : Z) :
  97 ≤ c ≤ 122 → chr_eq true c x = true → is_word x = true.
Proof.
  intros Hc. unfold chr_eq, canon.
  destruct (Z.leb_spec 97 c); [|lia]. destruct (Z.leb_spec c 122); [|lia]. cbn [andb].
  unfold is_word.
  destruct (Z.leb_spec 97 x), (Z.leb_spec x 122); cbn [andb]; intros He;
    apply Z.eqb_eq in He;
    rewrite !orb_true_iff, !andb_true_iff, !Z.leb_le, !Z.eqb_eq; lia.
Qed.

Lemma word_fail {A : Type} (w : jsstring) :
  w ≠ [] →
  ∀ (s : jsstring) (p : option Z) (k : option Z → jsstring → option A),
    viable_word w s = false → rmatch true (seqs (map Chr w)) p s k = None.
Proof.
  induction w as [|c w IH]; [congruence|]. intros _ s p k Hv.
  destruct s as [|x s]; [destruct w; reflexivity|].
  cbn [viable_word] in Hv. destruct (x =? 60); [discriminate|].
  destruct w as [|c2 w].
  - cbn [map seqs rmatch]. cbn [viable_word] in Hv. rewrite andb_true_r in Hv.
    rewrite Hv. reflexivity.
  - change (seqs (map Chr (c :: c2 :: w))) with (Seq (Chr c) (seqs (map Chr (c2 :: w)))).
    rewrite rmatch_seq, rmatch_chr.
    destruct (chr_eq true c x); [|reflexivity].
    cbn [andb] in Hv. apply IH; [discriminate | exact Hv].
Qed.

Lemma name_fail {A : Type} (R : regex) (s : jsstring) (p : option Z)
    (k : option Z → jsstring → option A) :
  viable_name s = false → rmatch true (Seq TAG_NAME R) p s k = None.
Proof.
  unfold viable_name, THINK_WORDS. cbn [existsb]. rewrite orb_false_r.
  intros H. apply orb_false_iff in H as [H1 H]. apply orb_false_iff in H as [H2 H3].
  rewrite rmatch_seq. unfold TAG_NAME. cbn [alts]. rewrite !rmatch_alt, rmatch_seq.
  unfold word.
  rewrite (word_fail (lit "think") ltac:(discriminate) s p _ H1).
  rewrite (word_fail (lit "thought") ltac:(discriminate) s p _ H2).
  rewrite (word_fail (lit "antthinking") ltac:(discriminate) s p _ H3).
  reflexivity.
Qed.

Lemma viable_name_space (x : Z) (s : jsstring) :
  is_space x = true → viable_name (x :: s) = false.
Proof.
  intros Hx. unfold viable_name, THINK_WORDS. cbn [existsb lit viable_word].
  assert (Hnw : ∀ c, 97 ≤ c ≤ 122 → chr_eq true c x = false).
  { intros c Hc. destruct (chr_eq true c x) eqn:He; [|reflexivity].
    apply (chr_eq_letter_word c x Hc) in He. apply is_word_not_space in He. congruence. }
  destruct (x =? 60) eqn:H60.
  { apply Z.eqb_eq in H60. subst. discriminate Hx. }
  rewrite !(Hnw _) by (vm_compute; split; discriminate). reflexivity.
Qed.

Lemma in_class_space (x : Z) : in_class false [CSpace] x = is_space x.
Proof. unfold in_class. cbn. rewrite orb_false_r. reflexivity. Qed.

(** White space, then the name: [\s*(?:think...)]. *)
Lemma spaces_name_fail {A : Type} (R : regex) (k : option Z → jsstring → option A) :
  ∀ (s : jsstring) (p : option Z),
    viable_tag false s = false →
    star_cls false [CSpace] true (λ p' s', rmatch true (Seq TAG_NAME R) p' s' k) p s = None.
Proof.
  induction s as [|x s IH]; intros p Hv.
  - cbn [star_cls]. apply name_fail. reflexivity.
  - cbn [viable_tag] in Hv. destruct (x =? 60) eqn:H60; [discriminate|].
    cbn [star_cls]. rewrite in_class_space.
    destruct (is_space x) eqn:Hsp.
    + rewrite (IH (Some x) Hv). apply name_fail, viable_name_space, Hsp.
    + cbn [andb] in Hv. apply name_fail, Hv.
Qed.

Lemma viable_tag_slash (s : jsstring) :
  viable_tag true s = false → viable_tag false s = false.
Proof.
  induction s as [|x s IH]; [reflexivity|]. cbn [viable_tag].
  destruct (x =? 60); [discriminate|]. destruct (is_space x); [exact IH|].
  cbn [andb]. destruct (x =? 47) eqn:H47; [|auto].
  intros _. apply Z.eqb_eq in H47. subst x. reflexivity.
Qed.

Lemma chr_eq_slash (x : Z) : chr_eq true 47 x = (x =? 47).
Proof.
  unfold chr_eq, canon. change ((97 <=? 47) && (47 <=? 122)) with false. cbv iota.
  destruct (Z.leb_spec 97 x), (Z.leb_spec x 122); cbn [andb];
    destruct (Z.eqb_spec 47 (x - 32)), (Z.eqb_spec 47 x), (Z.eqb_spec x 47);
    try reflexivity; lia.
Qed.

(** White space, a [/] or none, white space, then the name:
    [\s*\/?\s*(?:think...)]. *)
Lemma spaces_slash_name_fail {A : Type} (R : regex) (k : option Z → jsstring → option A) :
  ∀ (s : jsstring) (p : option Z),
    viable_tag true s = false →
    star_cls false [CSpace] true
      (λ p' s', rmatch true (Seq (Opt (Chr 47)) (Seq SPACES (Seq TAG_NAME R))) p' s' k) p s
    = None.
Proof.
  assert (Hafter : ∀ s p, viable_tag false s = false →
                          rmatch true (Seq SPACES (Seq TAG_NAME R)) p s k = None).
  { intros s p Hv. rewrite rmatch_seq. unfold SPACES. rewrite rmatch_star_cls.
    apply spaces_name_fail, Hv. }
  assert (Hopt : ∀ s p, viable_tag true s = false →
                        rmatch true (Seq (Opt (Chr 47)) (Seq SPACES (Seq TAG_NAME R))) p s k
                        = None).
  { intros s p Hv. rewrite rmatch_seq, rmatch_opt.
    rewrite (Hafter s p (viable_tag_slash s Hv)).
    destruct s as [|x s]; [reflexivity|].
    rewrite rmatch_chr, chr_eq_slash.
    destruct (x =? 47) eqn:H47; [|reflexivity].
    cbn [viable_tag] in Hv. apply Z.eqb_eq in H47. subst x.
    change (47 =? 60) with false in Hv. change (is_space 47) with false in Hv.
    cbn in Hv. rewrite (Hafter s (Some 47) Hv). reflexivity. }
  induction s as [|x s IH]; intros p Hv.
  - cbn [star_cls]. apply Hopt, Hv.
  - cbn [star_cls]. rewrite in_class_space.
    destruct (is_space x) eqn:Hsp.
    + assert (Hv' : viable_tag true s = false).
      { cbn [viable_tag] in Hv. destruct (x =? 60); [discriminate|].
        rewrite Hsp in Hv. exact Hv. }
      rewrite (IH (Some x) Hv'). apply Hopt, Hv.
    + apply Hopt, Hv.
Qed.

Lemma may_open_bar (s : jsstring) :
  may_open s = false → match s with [] => True | x :: _ => is_bar x = false end.
Proof.
  destruct s as [|x s]; [trivial|]. unfold may_open.
  intros H. apply orb_false_iff in H as [H _]. exact H.
Qed.

Lemma may_open_tag (s : jsstring) : may_open s = false → viable_tag true s = false.
Proof.
  destruct s as [|x s]; [reflexivity|]. unfold may_open.
  intros H. apply orb_false_iff in H as [_ H]. exact H.
Qed.

Lemma exec_KIMI_TOKEN_open (p : option Z) (s : jsstring) :
  regex_exec false KIMI_TOKEN_RE p (60 :: s) ≠ None → may_open s = true.
Proof.
  intros H. destruct (may_open s) eqn:Hm; [reflexivity|]. exfalso. apply H.
  apply may_open_bar in Hm. unfold regex_exec. rewrite KIMI_TOKEN_RE_eq.
  rewrite rmatch_seq, rmatch_chr. change (chr_eq false 60 60) with true. cbv iota.
  rewrite rmatch_seq. destruct s as [|x s]; [reflexivity|].
  rewrite rmatch_cls, in_class_bar, Hm. reflexivity.
Qed.

Lemma exec_KIMI_BLOCK_open (p : option Z) (s : jsstring) :
  regex_exec true KIMI_BLOCK_RE p (60 :: s) ≠ None → may_open s = true.
Proof.
  intros H. destruct (may_open s) eqn:Hm; [reflexivity|]. exfalso. apply H.
  apply may_open_bar in Hm. unfold regex_exec, KIMI_BLOCK_RE. cbn [seqs].
  rewrite rmatch_seq. unfold ch at 1. rewrite rmatch_chr.
  change (chr_eq true (code "<") 60) with true. cbv iota.
  rewrite rmatch_seq. destruct s as [|x s]; [reflexivity|].
  unfold BAR at 1. rewrite rmatch_cls.
  change (in_class false [CChar FULLWIDTH_BAR; CChar (code "|")] x)
    with (in_class false [CChar 65372; CChar 124] x).
  rewrite in_class_bar, Hm. reflexivity.
Qed.

Lemma exec_THINKING_TAG_open (p : option Z) (s : jsstring) :
  regex_exec true THINKING_TAG_RE p (60 :: s) ≠ None → may_open s = true.
Proof.
  intros H. destruct (may_open s) eqn:Hm; [reflexivity|]. exfalso. apply H.
  apply may_open_tag in Hm. unfold regex_exec, THINKING_TAG_RE. cbn [seqs].
  rewrite rmatch_seq. unfold ch at 1. rewrite rmatch_chr.
  change (chr_eq true (code "<") 60) with true. cbv iota.
  rewrite rmatch_seq. unfold SPACES at 1. rewrite rmatch_star_cls.
  change (ch "/") with (Chr 47).
  apply (spaces_slash_name_fail _ _ s (Some 60) Hm).
Qed.

Lemma exec_THINKING_BLOCK_open (p : option Z) (s : jsstring) :
  regex_exec true THINKING_BLOCK_RE p (60 :: s) ≠ None → may_open s = true.
Proof.
  intros H. destruct (may_open s) eqn:Hm; [reflexivity|]. exfalso. apply H.
  apply may_open_tag, viable_tag_slash in Hm. unfold regex_exec, THINKING_BLOCK_RE.
  cbn [seqs].
  rewrite rmatch_seq. unfold ch at 1. rewrite rmatch_chr.
  change (chr_eq true (code "<") 60) with true. cbv iota.
  rewrite rmatch_seq. unfold SPACES at 1. rewrite rmatch_star_cls.
  apply (spaces_name_fail _ _ s (Some 60) Hm).
Qed.

(** *** Prefixes *)

Lemma startsWith_spec (a s : jsstring) : startsWith a s = true ↔ ∃ t, s = a ++ t.
Proof.
  revert s. induction a as [|x a IH]; intros s.
  - split; [intros _; exists s; reflexivity | reflexivity].
  - destruct s as [|y s]; cbn [startsWith].
    + split; [discriminate | intros [t [=]]].
    + rewrite andb_true_iff, Z.eqb_eq, IH. split.
      * intros [-> [t ->]]. exists t. reflexivity.
      * intros [t [= -> ->]]. split; [reflexivity | eauto].
Qed.

Lemma startsWith_app_l (t w e : jsstring) :
  startsWith t w = true → startsWith t (w ++ e) = true.
Proof.
  rewrite !startsWith_spec. intros [u ->]. exists (u ++ e). rewrite app_assoc. reflexivity.
Qed.

Lemma proper_prefix_spec (w t : jsstring) :
  proper_prefix w t = true ↔ ∃ u, u ≠ [] ∧ t = w ++ u.
Proof.
  unfold proper_prefix. rewrite andb_true_iff, Nat.ltb_lt, startsWith_spec. split.
  - intros [Hl [u ->]]. exists u. split; [|reflexivity].
    intros ->. rewrite app_nil_r in Hl. lia.
  - intros [u [Hu ->]]. split; [|eauto]. rewrite length_app.
    destruct u; [congruence | cbn; lia].
Qed.

Lemma proper_prefix_app (w e t : jsstring) :
  proper_prefix (w ++ e) t = true → proper_prefix w t = true.
Proof.
  rewrite !proper_prefix_spec. intros [u [Hu ->]]. exists (e ++ u).
  split; [|rewrite app_assoc; reflexivity].
  destruct e; [exact Hu | discriminate].
Qed.

(** A prefix of [w ++ e] is a prefix of [w], or [w] is the beginning
    of it. *)
Lemma startsWith_app_cases (t w e : jsstring) :
  startsWith t (w ++ e) = true → startsWith t w = true ∨ proper_prefix w t = true.
Proof.
  revert w. induction t as [|c t IH]; intros w H; [left; reflexivity|].
  destruct w as [|y w].
  - right. reflexivity.
  - cbn [app startsWith] in H |- *. apply andb_true_iff in H as [Hc H].
    apply Z.eqb_eq in Hc. subst y. rewrite Z.eqb_refl. cbn [andb].
    destruct (IH w H) as [Hl | Hr]; [left; exact Hl|].
    right. unfold proper_prefix in *. cbn [length startsWith].
    rewrite Z.eqb_refl. exact Hr.
Qed.

Lemma closed_app (w e : jsstring) :
  ∀ b, closed b w = true → closed b (w ++ e) = true.
Proof.
  induction w as [|x w IH]; intros b H; [discriminate|].
  cbn [app closed] in H |- *. destruct (x =? 62); [exact H | apply IH, H].
Qed.

(** *** The text up to the next [<] *)

Lemma lead_no_lt (s : jsstring) : Forall (λ c, c ≠ 60) (lead s).
Proof.
  induction s as [|x s IH]; [constructor|]. cbn [lead].
  destruct (Z.eqb_spec x 60); [constructor | constructor; assumption].
Qed.

Lemma lead_app (w s : jsstring) :
  Forall (λ c, c ≠ 60) w →
  lead (w ++ s) = w ++ lead s ∧ after_lead (w ++ s) = after_lead s.
Proof.
  induction 1 as [|c w Hc _ [IH1 IH2]]; [split; reflexivity|].
  cbn [app lead after_lead]. destruct (Z.eqb_spec c 60); [congruence|].
  rewrite IH1, IH2. split; reflexivity.
Qed.

Lemma lead_split (s : jsstring) :
  s = lead s ++ match after_lead s with Some t => 60 :: t | None => [] end.
Proof.
  induction s as [|x s IH]; [reflexivity|]. cbn [lead after_lead].
  destruct (Z.eqb_spec x 60) as [-> | _]; [reflexivity|].
  cbn [app]. rewrite <- IH. reflexivity.
Qed.

Lemma startsWith_lead (t s : jsstring) :
  Forall (λ c, c ≠ 60) t → startsWith t s = true → startsWith t (lead s) = true.
Proof.
  intros Ht. revert s. induction Ht as [|c t Hc _ IH]; intros s H; [reflexivity|].
  destruct s as [|x s]; [discriminate|]. cbn [startsWith] in H.
  apply andb_true_iff in H as [Hx H]. apply Z.eqb_eq in Hx. subst x.
  cbn [lead]. destruct (Z.eqb_spec c 60); [congruence|].
  cbn [startsWith]. rewrite Z.eqb_refl. apply IH, H.
Qed.

Lemma lead_startsWith (t s : jsstring) :
  startsWith t (lead s) = true → startsWith t s = true.
Proof.
  rewrite (lead_split s) at 2. apply startsWith_app_l.
Qed.

Lemma TARGETS_no_lt (t : jsstring) : t ∈ TARGETS → Forall (λ c, c ≠ 60) t.
Proof.
  unfold TARGETS, SENTINEL_TARGETS. cbn [app].
  rewrite !elem_of_cons, elem_of_nil.
  intros [-> | [-> | [-> | [-> | []]]]];
    repeat (apply Forall_cons_2; [discriminate|]); apply Forall_nil_2.
Qed.

(** *** Code units found in order *)

Lemma subseq_spec (v : jsstring) : ∀ u, subseq u v = true ↔ u `sublist_of` v.
Proof.
  induction v as [|y v IH]; intros u.
  - destruct u as [|x u]; cbn [subseq].
    + split; [intros _; apply sublist_nil | reflexivity].
    + split; [discriminate|]. intros H. apply sublist_nil_r in H. discriminate H.
  - destruct u as [|x u]; cbn [subseq].
    + split; [intros _; apply sublist_nil_l | reflexivity].
    + destruct (Z.eqb_spec x y) as [-> | Hne]; rewrite IH.
      * split; [apply sublist_skip|]. intros H.
        apply sublist_cons_r in H as [H | (u' & [= <-] & H)]; [|exact H].
        etransitivity; [|exact H]. apply sublist_cons. reflexivity.
      * split; [apply sublist_cons|]. intros H.
        apply sublist_cons_r in H as [H | (u' & [= -> <-] & H)]; [exact H | congruence].
Qed.

Lemma after_gt_sublist (s : jsstring) : after_gt s `sublist_of` s.
Proof.
  induction s as [|x s IH]; [reflexivity|]. cbn [after_gt].
  destruct (x =? 62); apply sublist_cons; [reflexivity | exact IH].
Qed.

Lemma after_gt_app (m s : jsstring) : s `sublist_of` after_gt (m ++ 62 :: s).
Proof.
  induction m as [|x m IH]; [reflexivity|]. cbn [app after_gt].
  destruct (x =? 62); [|exact IH]. apply sublist_inserts_l, sublist_cons. reflexivity.
Qed.

Lemma proper_prefix_drop (w t : jsstring) :
  proper_prefix w t = true → t = w ++ drop (length w) t.
Proof.
  intros H. apply proper_prefix_spec in H as (u & _ & ->).
  rewrite drop_app_length. reflexivity.
Qed.

Lemma pass_sublist (ic : bool) (r : regex) (s out : jsstring) :
  pass ic r s out → out `sublist_of` s.
Proof.
  induction 1 as [|p x s out He H IH|p m s out He H IH].
  - reflexivity.
  - apply sublist_skip, IH.
  - apply sublist_cons, sublist_inserts_l, sublist_cons, IH.
Qed.

Lemma pass_after_gt (ic : bool) (r : regex) (s out : jsstring) :
  pass ic r s out → after_gt out `sublist_of` after_gt s.
Proof.
  induction 1 as [|p x s out He H IH|p m s out He H IH].
  - reflexivity.
  - cbn [after_gt]. destruct (x =? 62); [|exact IH]. apply (pass_sublist ic r), H.
  - cbn [after_gt]. change (60 =? 62) with false. cbv iota.
    etransitivity; [apply after_gt_sublist|].
    etransitivity; [apply (pass_sublist ic r), H|]. apply after_gt_app.
Qed.

(** *** What one pass keeps *)

Section OnePass.

Variable ic : bool.
Variable r : regex.

Hypothesis opens : ∀ p s, regex_exec ic r p (60 :: s) ≠ None → may_open s = true.

Lemma viable_word_pass (w : jsstring) :
  ∀ s out, pass ic r s out → viable_word w s = false → viable_word w out = false.
Proof.
  induction w as [|c w IH]; intros s out H Hv; [discriminate|].
  destruct H as [|p x s out He H|p m s out He H].
  - reflexivity.
  - cbn [viable_word] in Hv |- *. destruct (x =? 60); [discriminate|].
    apply andb_false_iff in Hv as [Hv | Hv]; [rewrite Hv; reflexivity|].
    rewrite (IH s out H Hv). apply andb_false_r.
  - discriminate Hv.
Qed.

Lemma viable_tag_pass (s out : jsstring) :
  pass ic r s out → ∀ slash, viable_tag slash s = false → viable_tag slash out = false.
Proof.
  induction 1 as [|p x s out He H IH|p m s out He H IH]; intros slash Hv.
  - reflexivity.
  - cbn [viable_tag] in Hv |- *. destruct (x =? 60); [discriminate|].
    destruct (is_space x); [apply IH, Hv|].
    destruct (slash && (x =? 47)); [apply IH, Hv|].
    unfold viable_name in *. apply not_true_iff_false. intros Hex.
    apply not_true_iff_false in Hv. apply Hv.
    apply existsb_exists in Hex as [w [Hw Hex]]. apply existsb_exists. exists w.
    split; [exact Hw|].
    destruct (viable_word w (x :: s)) eqn:Hs; [reflexivity|].
    rewrite (viable_word_pass w (x :: s) (x :: out) (pass_keep ic r p x s out He H) Hs)
      in Hex. discriminate Hex.
  - discriminate Hv.
Qed.

(** Where no expression could match before a pass, none can after
    it. *)
Lemma may_open_pass (s out : jsstring) :
  pass ic r s out → may_open s = false → may_open out = false.
Proof.
  intros H Hm. pose proof (may_open_tag s Hm) as Ht.
  pose proof (viable_tag_pass s out H true Ht) as Ho.
  destruct H as [|p x s out He H|p m s out He H].
  - reflexivity.
  - unfold may_open in *. apply orb_false_iff in Hm as [Hb _]. rewrite Hb. exact Ho.
  - discriminate Ht.
Qed.

(** The three ways for a pass to treat the first [<] of a text. *)
Lemma pass_cases (s out : jsstring) :
  pass ic r s out →
  match after_lead s with
  | None => out = s
  | Some s' =>
      (∃ out', out = lead s ++ 60 :: out' ∧ pass ic r s' out')
      ∨ (∃ rest, out = lead s ++ rest ∧ may_open s' = true
                 ∧ rest `sublist_of` after_gt s')
  end.
Proof.
  induction 1 as [|p x s out He H IH|p m s out He H IH].
  - reflexivity.
  - cbn [after_lead lead]. destruct (Z.eqb_spec x 60) as [-> | Hx].
    + left. exists out. split; [reflexivity | exact H].
    + destruct (after_lead s) as [s'|].
      * destruct IH as [(out' & -> & Hp) | (rest & -> & Hm & Hsub)].
        -- left. exists out'. split; [reflexivity | exact Hp].
        -- right. exists rest. split; [reflexivity|]. split; assumption.
      * rewrite IH. reflexivity.
  - cbn [after_lead lead]. change (60 =? 60) with true. cbv iota.
    right. exists out. split; [reflexivity|]. split; [exact (opens p _ He)|].
    etransitivity; [apply (pass_sublist ic r), H | apply after_gt_app].
Qed.

(** When the match at the next [<] is deleted, what is left after it
    does not complete a token sequence that the text before it
    begins. *)
Lemma not_completed (s s' rest u t : jsstring) :
  cut_short s = false → after_lead s = Some s' → may_open s' = true →
  rest `sublist_of` after_gt s' → t ∈ TARGETS →
  proper_prefix (lead s) t = true → t = lead s ++ u → u `sublist_of` rest → False.
Proof.
  intros Hcut Ha Hm Hrest Ht Hp Hu Hsub. unfold cut_short in Hcut.
  rewrite Ha, Hm in Hcut. cbn [andb] in Hcut.
  assert (Hex : existsb (completes (lead s) s') TARGETS = true); [|congruence].
  apply existsb_exists. exists t. split; [apply list_elem_of_In, Ht|].
  unfold completes. rewrite Hp. cbn [andb]. apply subseq_spec.
  rewrite Hu at 1. rewrite drop_app_length. etransitivity; eassumption.
Qed.

Lemma ok_after_pass (s out : jsstring) :
  pass ic r s out → ok_after s = true → ok_after out = true.
Proof.
  intros H Hok. pose proof (pass_cases s out H) as Hc.
  destruct (after_lead s) as [s'|] eqn:Ha; [|subst out; exact Hok].
  unfold ok_after in Hok. apply andb_true_iff in Hok as [Hcut Hun].
  apply negb_true_iff in Hcut, Hun.
  pose proof (lead_no_lt s) as Hlead.
  destruct Hc as [(out' & -> & Hp) | (rest & -> & Hm & Hrest)].
  - destruct (lead_app (lead s) (60 :: out') Hlead) as [Hl Hal].
    cbn [lead after_lead] in Hl, Hal. change (60 =? 60) with true in Hl, Hal.
    cbv iota in Hl, Hal. rewrite app_nil_r in Hl.
    unfold ok_after, cut_short, unclosed. rewrite Hl, Hal.
    unfold unclosed in Hun. rewrite Hun. rewrite andb_true_r. apply negb_true_iff.
    unfold cut_short in Hcut. rewrite Ha in Hcut.
    destruct (may_open out') eqn:Hmo; [|reflexivity]. cbn [andb].
    destruct (may_open s') eqn:Hms;
      [|rewrite (may_open_pass s' out' Hp Hms) in Hmo; discriminate Hmo].
    cbn [andb] in Hcut.
    destruct (existsb (completes (lead s) out') TARGETS) eqn:Hex; [|reflexivity].
    apply existsb_exists in Hex as [t [Ht Hcomp]].
    assert (Hex : existsb (completes (lead s) s') TARGETS = true); [|congruence].
    apply existsb_exists. exists t. split; [exact Ht|].
    unfold completes in *. apply andb_true_iff in Hcomp as [Hpp Hsub].
    rewrite Hpp. cbn [andb]. apply subseq_spec. apply subseq_spec in Hsub.
    etransitivity; [exact Hsub|]. apply (pass_after_gt ic r), Hp.
  - destruct (lead_app (lead s) rest Hlead) as [Hl Hal].
    unfold ok_after. apply andb_true_iff. split; apply negb_true_iff.
    + unfold cut_short. rewrite Hl, Hal.
      destruct (after_lead rest) as [r2|] eqn:Har; [|reflexivity].
      destruct (may_open r2); [|reflexivity]. cbn [andb].
      destruct (existsb (completes (lead s ++ lead rest) r2) TARGETS) eqn:Hex;
        [|reflexivity].
      exfalso. apply existsb_exists in Hex as [t [Ht Hcomp]].
      unfold completes in Hcomp. apply andb_true_iff in Hcomp as [Hpp Hsub].
      apply subseq_spec in Hsub. pose proof (proper_prefix_drop _ _ Hpp) as Hsplit.
      set (u' := drop (length (lead s ++ lead rest)) t) in *.
      apply (not_completed s s' rest (lead rest ++ u') t Hcut Ha Hm Hrest).
      * apply list_elem_of_In, Ht.
      * apply proper_prefix_app in Hpp. exact Hpp.
      * rewrite Hsplit at 1. rewrite <- app_assoc. reflexivity.
      * rewrite (lead_split rest) at 2. rewrite Har. apply sublist_app; [reflexivity|].
        apply sublist_cons. etransitivity; [exact Hsub | apply after_gt_sublist].
    + unfold unclosed. rewrite Hl.
      destruct (existsb (λ t, startsWith t (lead s ++ lead rest)) SENTINEL_TARGETS)
        eqn:Hex; [|reflexivity].
      cbn [andb]. apply negb_false_iff.
      apply existsb_exists in Hex as [t [Ht Hst]].
      destruct (startsWith_app_cases t (lead s) (lead rest) Hst) as [Hpre | Hprop].
      * unfold unclosed in Hun.
        assert (Hex : existsb (λ t, startsWith t (lead s)) SENTINEL_TARGETS = true).
        { apply existsb_exists. exists t. split; assumption. }
        rewrite Hex in Hun. cbn [andb] in Hun. apply negb_false_iff in Hun.
        apply closed_app, Hun.
      * exfalso. pose proof (proper_prefix_drop _ _ Hprop) as Hsplit.
        set (u := drop (length (lead s)) t) in *.
        apply (not_completed s s' rest u t Hcut Ha Hm Hrest).
        -- unfold TARGETS. apply elem_of_app. right. apply list_elem_of_In, Ht.
        -- exact Hprop.
        -- exact Hsplit.
        -- apply startsWith_spec in Hst as [v Hv]. rewrite Hsplit in Hv.
           rewrite <- app_assoc in Hv. apply app_inv_head in Hv.
           rewrite (lead_split rest). rewrite Hv. rewrite <- app_assoc.
           apply sublist_inserts_r. reflexivity.
Qed.

Lemma guarded_tail (x : Z) (s : jsstring) : guarded (x :: s) = true → guarded s = true.
Proof. cbn [guarded]. intros H. apply andb_true_iff in H as [_ H]. exact H. Qed.

Lemma guarded_app (m : jsstring) : ∀ s, guarded (m ++ s) = true → guarded s = true.
Proof.
  induction m as [|x m IH]; intros s H; [exact H|].
  apply IH, (guarded_tail x _ H).
Qed.

(** A guarded text is guarded after a pass. *)
Lemma guarded_pass (s out : jsstring) :
  pass ic r s out → guarded s = true → guarded out = true.
Proof.
  induction 1 as [|p x s out He H IH|p m s out He H IH]; intros Hg.
  - reflexivity.
  - cbn [guarded] in Hg |- *. apply andb_true_iff in Hg as [Hx Hg].
    rewrite (IH Hg), andb_true_r.
    destruct (x =? 60); [|reflexivity]. apply (ok_after_pass s out H Hx).
  - apply IH. apply (guarded_app (60 :: m ++ [62])).
    cbn [app]. rewrite <- app_assoc. exact Hg.
Qed.

(** What follows a [<] that is kept starts with a target only when it
    did before the pass. *)
Lemma kept_target (t s out : jsstring) :
  t ∈ TARGETS → pass ic r s out → ok_after s = true →
  startsWith t out = true → startsWith t s = true.
Proof.
  intros Ht H Hok Hst. pose proof (pass_cases s out H) as Hc.
  destruct (after_lead s) as [s'|] eqn:Ha; [|subst out; exact Hst].
  pose proof (lead_no_lt s) as Hlead.
  apply (startsWith_lead t out (TARGETS_no_lt t Ht)) in Hst.
  apply lead_startsWith.
  destruct Hc as [(out' & -> & Hp) | (rest & -> & Hm & Hrest)].
  - destruct (lead_app (lead s) (60 :: out') Hlead) as [Hl _].
    cbn [lead] in Hl. change (60 =? 60) with true in Hl. cbv iota in Hl.
    rewrite app_nil_r in Hl. rewrite Hl in Hst. exact Hst.
  - destruct (lead_app (lead s) rest Hlead) as [Hl _]. rewrite Hl in Hst.
    destruct (startsWith_app_cases t (lead s) (lead rest) Hst) as [Hpre | Hprop];
      [exact Hpre|].
    exfalso. unfold ok_after in Hok. apply andb_true_iff in Hok as [Hcut _].
    apply negb_true_iff in Hcut. pose proof (proper_prefix_drop _ _ Hprop) as Hsplit.
    set (u := drop (length (lead s)) t) in *.
    apply (not_completed s s' rest u t Hcut Ha Hm Hrest Ht Hprop Hsplit).
    apply startsWith_spec in Hst as [v Hv]. rewrite Hsplit in Hv.
    rewrite <- app_assoc in Hv. apply app_inv_head in Hv.
    rewrite (lead_split rest). rewrite Hv. rewrite <- app_assoc.
    apply sublist_inserts_r. reflexivity.
Qed.

Lemma includes_cons (f : jsstring) (x : Z) (s : jsstring) :
  includes f (x :: s) = false → startsWith f (x :: s) = false ∧ includes f s = false.
Proof. cbn [includes]. intros H. apply orb_false_iff in H. exact H. Qed.

Lemma includes_app (f m : jsstring) :
  ∀ s, includes f (m ++ s) = false → includes f s = false.
Proof.
  induction m as [|x m IH]; intros s H; [exact H|].
  apply IH, (includes_cons f x _ H).
Qed.

(** The text written has no [<] followed by the target [t] when no
    kept [<] of the text read, left alone by the expression, is
    followed by it. *)
Lemma pass_free (Q : jsstring → Prop) (t : jsstring) :
  t ∈ TARGETS →
  (∀ m s, Q (m ++ s) → Q s) →
  (∀ p s, regex_exec ic r p (60 :: s) = None → Q (60 :: s) → ok_after s = true →
          startsWith t s = true → False) →
  ∀ s out, pass ic r s out → guarded s = true → Q s → includes (60 :: t) out = false.
Proof.
  intros Ht Qapp Hno. induction 1 as [|p x s out He H IH|p m s out He H IH];
    intros Hg HQ.
  - reflexivity.
  - cbn [includes]. rewrite (IH (guarded_tail x s Hg) (Qapp [x] s HQ)), orb_false_r.
    cbn [startsWith]. destruct (Z.eqb_spec 60 x) as [<- | Hx]; [|reflexivity].
    cbn [andb]. destruct (startsWith t out) eqn:Hst; [|reflexivity].
    exfalso. cbn [guarded] in Hg. change (60 =? 60) with true in Hg. cbv iota in Hg.
    apply andb_true_iff in Hg as [Hok _].
    apply (Hno p s He HQ Hok). apply (kept_target t s out Ht H Hok Hst).
  - apply IH.
    + apply (guarded_app (60 :: m ++ [62])). cbn [app]. rewrite <- app_assoc. exact Hg.
    + apply (Qapp (60 :: m ++ [62])). cbn [app]. rewrite <- app_assoc. exact HQ.
Qed.

End OnePass.

(** *** The four passes *)

Lemma closed_split (w : jsstring) :
  ∀ b, closed b w = true →
    (b = true ∧ ∃ rest, w = 62 :: rest)
    ∨ ∃ name b2 rest,
        w = name ++ b2 :: 62 :: rest ∧ is_bar b2 = true ∧ Forall (λ c, c ≠ 62) name.
Proof.
  induction w as [|x w IH]; intros b H; [discriminate|].
  cbn [closed] in H. destruct (Z.eqb_spec x 62) as [-> | Hx].
  - left. split; [exact H | eauto].
  - right. destruct (IH _ H) as [[Hb [rest ->]] | (name & b2 & rest & -> & Hb2 & Hname)].
    + exists [], x, rest. split; [reflexivity|]. split; [exact Hb | constructor].
    + exists (x :: name), b2, rest. split; [reflexivity|].
      split; [exact Hb2 | constructor; assumption].
Qed.

(** A [<] followed by a sentinel target and closed in its text is the
    start of a match of the token expression. *)
Lemma kept_sentinel (p : option Z) (s t : jsstring) :
  t ∈ SENTINEL_TARGETS →
  regex_exec false KIMI_TOKEN_RE p (60 :: s) = None →
  ok_after s = true → startsWith t s = true → False.
Proof.
  intros Ht He Hok Hst.
  assert (HtT : t ∈ TARGETS) by (unfold TARGETS; apply elem_of_app; right; exact Ht).
  apply (startsWith_lead t s (TARGETS_no_lt t HtT)) in Hst.
  unfold ok_after in Hok. apply andb_true_iff in Hok as [_ Hun].
  apply negb_true_iff in Hun. unfold unclosed in Hun.
  assert (Hex : existsb (λ t, startsWith t (lead s)) SENTINEL_TARGETS = true).
  { apply existsb_exists. exists t. split; [apply list_elem_of_In, Ht | exact Hst]. }
  rewrite Hex in Hun. cbn [andb] in Hun. apply negb_false_iff in Hun.
  pose proof (lead_no_lt s) as Hlead. pose proof (lead_split s) as Hs.
  assert (Hw : ∃ w, lead s = FULLWIDTH_BAR :: w ∧ ¬ (∃ rest, w = 62 :: rest)).
  { apply startsWith_spec in Hst as [u Hu]. unfold SENTINEL_TARGETS in Ht.
    rewrite !elem_of_cons, elem_of_nil in Ht. destruct Ht as [-> | [-> | []]].
    - eexists. split; [exact Hu|]. intros [rest [=]].
    - eexists. split; [exact Hu|]. intros [rest [=]]. }
  destruct Hw as (w & Hw & Hnot). rewrite Hw in Hun, Hlead, Hs.
  change (closed false (FULLWIDTH_BAR :: w)) with (closed true w) in Hun.
  destruct (closed_split w true Hun) as [[_ Hrest] | (name & b2 & rest & -> & Hb2 & Hname)];
    [exact (Hnot Hrest)|].
  apply Forall_cons in Hlead as [_ Hlead]. apply Forall_app in Hlead as [Hn60 _].
  assert (Hboth : Forall (λ c, c ≠ 60 ∧ c ≠ 62) name).
  { rewrite Forall_forall in *. intros c Hc. split; [apply Hn60 | apply Hname]; exact Hc. }
  set (tail := match after_lead s with Some t0 => 60 :: t0 | None => [] end) in Hs.
  assert (Heq : s = (FULLWIDTH_BAR :: name ++ [b2; 62]) ++ (rest ++ tail)).
  { rewrite Hs at 1. cbn [app]. rewrite <- !app_assoc. reflexivity. }
  rewrite Heq in He.
  rewrite (exec_token_sentinel p FULLWIDTH_BAR b2 name (rest ++ tail) eq_refl Hb2 Hboth)
    in He.
  discriminate He.
Qed.

(** A [<] followed by [think>] or [thinking>] is the start of a match
    of the tag expression. *)
Lemma kept_tag (p : option Z) (s t : jsstring) :
  t ∈ [ lit "think>"; lit "thinking>" ] →
  regex_exec true THINKING_TAG_RE p (60 :: s) = None →
  startsWith t s = true → False.
Proof.
  intros Ht He Hst. apply startsWith_spec in Hst as [u ->].
  assert (Htag : is_thinking_tag (60 :: t)).
  { unfold is_thinking_tag, THINKING_TAGS. cbn [map].
    rewrite !elem_of_cons, elem_of_nil in Ht.
    destruct Ht as [-> | [-> | []]]; rewrite !elem_of_cons; tauto. }
  rewrite (exec_tag p t u Htag) in He. discriminate He.
Qed.

(** A pass does not bring a target back. *)
Lemma pass_keeps_free (ic : bool) (r : regex) (t s out : jsstring) :
  (∀ p s, regex_exec ic r p (60 :: s) ≠ None → may_open s = true) →
  t ∈ TARGETS → pass ic r s out → guarded s = true →
  includes (60 :: t) s = false → includes (60 :: t) out = false.
Proof.
  intros Hopen Ht Hp Hg Hfree.
  apply (pass_free ic r Hopen (λ s, includes (60 :: t) s = false) t Ht) with (s := s);
    try assumption.
  - intros m s0 H. apply (includes_app _ m s0 H).
  - intros p s0 _ H _ Hst. cbn [includes startsWith] in H.
    change (60 =? 60) with true in H. rewrite Hst in H. discriminate H.
Qed.

(** On guarded content no target is left by [stripThinkingTokens]. *)
Lemma stripThinkingTokens_free (content : jsstring) :
  guarded content = true → free (stripThinkingTokens content) = true.
Proof.
  intros Hg. unfold stripThinkingTokens. destruct content as [|x content']; [reflexivity|].
  set (s0 := x :: content') in *.
  set (s1 := remove_all true KIMI_BLOCK_RE s0).
  set (s2 := remove_all false KIMI_TOKEN_RE s1).
  set (s3 := remove_all true THINKING_BLOCK_RE s2).
  set (s4 := remove_all true THINKING_TAG_RE s3).
  cbv zeta.
  pose proof (remove_all_pass true KIMI_BLOCK_RE s0 starts_KIMI_BLOCK_RE eq_refl) as P1.
  pose proof (remove_all_pass false KIMI_TOKEN_RE s1 starts_KIMI_TOKEN_RE eq_refl) as P2.
  pose proof (remove_all_pass true THINKING_BLOCK_RE s2 starts_THINKING_BLOCK_RE eq_refl)
    as P3.
  pose proof (remove_all_pass true THINKING_TAG_RE s3 starts_THINKING_TAG_RE eq_refl) as P4.
  fold s1 in P1. fold s2 in P2. fold s3 in P3. fold s4 in P4.
  pose proof (guarded_pass _ _ exec_KIMI_BLOCK_open s0 s1 P1 Hg) as G1.
  pose proof (guarded_pass _ _ exec_KIMI_TOKEN_open s1 s2 P2 G1) as G2.
  pose proof (guarded_pass _ _ exec_THINKING_BLOCK_open s2 s3 P3 G2) as G3.
  assert (Hsent : ∀ t, t ∈ SENTINEL_TARGETS → includes (60 :: t) s4 = false).
  { intros t Ht.
    assert (HtT : t ∈ TARGETS) by (unfold TARGETS; apply elem_of_app; right; exact Ht).
    apply (pass_keeps_free _ _ t s3 s4 exec_THINKING_TAG_open HtT P4 G3).
    apply (pass_keeps_free _ _ t s2 s3 exec_THINKING_BLOCK_open HtT P3 G2).
    apply (pass_free _ _ exec_KIMI_TOKEN_open (λ _, True) t HtT) with (s := s1);
      try assumption; try (intros; exact I).
    intros p s He _ Hok Hst. exact (kept_sentinel p s t Ht He Hok Hst). }
  assert (Htag : ∀ t, t ∈ [ lit "think>"; lit "thinking>" ] → includes (60 :: t) s4 = false).
  { intros t Ht.
    assert (HtT : t ∈ TARGETS) by (unfold TARGETS; apply elem_of_app; left; exact Ht).
    apply (pass_free _ _ exec_THINKING_TAG_open (λ _, True) t HtT) with (s := s3);
      try assumption; try (intros; exact I).
    intros p s He _ _ Hst. exact (kept_tag p s t Ht He Hst). }
  unfold free, FORBIDDEN, TARGETS, SENTINEL_TARGETS. cbn [app map forallb].
  rewrite !Htag by (rewrite !elem_of_cons; tauto).
  rewrite !Hsent by (unfold SENTINEL_TARGETS; rewrite !elem_of_cons; tauto).
  reflexivity.
Qed.

(** *** Blocks *)

Lemma exec_prev (ic : bool) (r : regex) (p p' : option Z) (s : jsstring) :
  starts_with_lt r → regex_exec ic r p s = regex_exec ic r p' s.
Proof. intros [r' ->]. unfold regex_exec. destruct s; reflexivity. Qed.

Lemma remove_go_prev (ic : bool) (r : regex) (p p' : option Z) (k : nat) (s : jsstring) :
  starts_with_lt r → remove_go ic r p k s = remove_go ic r p' k s.
Proof.
  intros Hr. destruct s as [|x s]; [reflexivity|]. cbn [remove_go].
  destruct k; [|reflexivity]. rewrite (exec_prev ic r p p' _ Hr). reflexivity.
Qed.

Lemma remove_all_text (ic : bool) (r : regex) (body s : jsstring) :
  starts_with_lt r → Forall (λ c, c ≠ 60) body →
  remove_all ic r (body ++ s) = body ++ remove_all ic r s.
Proof.
  intros Hr Hb. unfold remove_all.
  destruct (remove_go_text ic r body Hr Hb None s) as [p' ->].
  rewrite (remove_go_prev ic r p' None O s Hr). reflexivity.
Qed.

Lemma remove_all_kept (ic : bool) (r : regex) (x : Z) (s : jsstring) :
  starts_with_lt r → regex_exec ic r None (x :: s) = None →
  remove_all ic r (x :: s) = x :: remove_all ic r s.
Proof.
  intros Hr He. unfold remove_all. cbn [remove_go]. rewrite He.
  rewrite (remove_go_prev ic r (Some x) None O s Hr). reflexivity.
Qed.

Lemma remove_all_dropped (ic : bool) (r : regex) (x : Z) (m s : jsstring) :
  starts_with_lt r → regex_exec ic r None (x :: m ++ s) = Some s →
  remove_all ic r (x :: m ++ s) = remove_all ic r s.
Proof.
  intros Hr He. unfold remove_all.
  destruct (remove_go_match ic r None x m s He) as [p' ->].
  apply remove_go_prev, Hr.
Qed.

Lemma stripThinkingTokens_passes (content : jsstring) :
  stripThinkingTokens content
  = remove_all true THINKING_TAG_RE
      (remove_all true THINKING_BLOCK_RE
         (remove_all false KIMI_TOKEN_RE (remove_all true KIMI_BLOCK_RE content))).
Proof. destruct content; reflexivity. Qed.

Lemma chr_eq_refl (ic : bool) (c : Z) : chr_eq ic c c = true.
Proof. unfold chr_eq. destruct ic; apply Z.eqb_refl. Qed.

Lemma in_class_any (x : Z) : in_class false [CSpace; CNonSpace] x = true.
Proof. unfold in_class. cbn. destruct (is_space x); reflexivity. Qed.

(** The lazy [[\s\S]*?] runs over a text without [<] up to the [<]
    where what follows it matches. *)
Lemma lazy_any {A : Type} (K : option Z → jsstring → option A) (R : A) (rest : jsstring) :
  (∀ p, K p (60 :: rest) = Some R) →
  (∀ p x s, x ≠ 60 → K p (x :: s) = None) →
  ∀ inner p, Forall (λ c, c ≠ 60) inner →
    star_cls false [CSpace; CNonSpace] false K p (inner ++ 60 :: rest) = Some R.
Proof.
  intros Hend Hskip inner. induction inner as [|x inner IH]; intros p Hin.
  - cbn [app star_cls]. rewrite Hend. reflexivity.
  - apply Forall_cons in Hin as [Hx Hin]. cbn [app star_cls].
    rewrite (Hskip p x _ Hx), in_class_any. apply IH, Hin.
Qed.

Lemma rmatch_cls_form_seqs {A : Type} (ic : bool) (r : regex) (rs : list regex)
    (p : option Z) (s : jsstring) (k : option Z → jsstring → option A) :
  rmatch_cls_form ic (seqs (r :: rs)) p s k
  = rmatch_cls_form ic r p s (λ p' s', rmatch_cls_form ic (seqs rs) p' s' k).
Proof. destruct rs; reflexivity. Qed.

(** A word either fails or runs over as many code units as it has. *)
Lemma word_cases {A : Type} (ic : bool) (w : jsstring) :
  ∀ (p : option Z) (s : jsstring) (k : option Z → jsstring → option A),
    rmatch_cls_form ic (seqs (map Chr w)) p s k = None
    ∨ ∃ m s' p',
        s = m ++ s' ∧ Forall2 (λ c x, chr_eq ic c x = true) w m
        ∧ rmatch_cls_form ic (seqs (map Chr w)) p s k = k p' s'.
Proof.
  induction w as [|c w IH]; intros p s k.
  - right. exists [], s, p. split; [reflexivity|]. split; [constructor | reflexivity].
  - cbn [map]. rewrite rmatch_cls_form_seqs. cbn [rmatch_cls_form].
    destruct s as [|x s]; [left; reflexivity|].
    destruct (chr_eq ic c x) eqn:Hc; [|left; reflexivity].
    destruct (IH (Some x) s k) as [-> | (m & s' & p' & -> & Hm & ->)]; [left; reflexivity|].
    right. exists (x :: m), s', p'. split; [reflexivity|].
    split; [constructor; assumption | reflexivity].
Qed.

Lemma word_self {A : Type} (ic : bool) (w : jsstring) :
  ∀ (p : option Z) (s : jsstring) (k : option Z → jsstring → option A),
    ∃ p', rmatch_cls_form ic (seqs (map Chr w)) p (w ++ s) k = k p' s.
Proof.
  induction w as [|c w IH]; intros p s k.
  - exists p. reflexivity.
  - cbn [map app]. rewrite rmatch_cls_form_seqs. cbn [rmatch_cls_form].
    rewrite chr_eq_refl. apply IH.
Qed.

(** What is read by a word whose letters are no bars ends before the
    closing bar. *)
Lemma word_before_bar (ic : bool) (b2 : Z) (tail : jsstring) (w : jsstring) :
  is_bar b2 = true →
  Forall (λ c, ∀ x, chr_eq ic c x = true → is_bar x = false) w →
  ∀ m0 m s',
    Forall2 (λ c x, chr_eq ic c x = true) w m0 →
    m ++ b2 :: tail = m0 ++ s' →
    ∃ m', m = m0 ++ m' ∧ s' = m' ++ b2 :: tail.
Proof.
  intros Hb Hw m0 m s' H2. revert m. induction H2 as [|c y w m0 Hcy _ IH]; intros m Heq.
  - exists m. split; [reflexivity | symmetry; exact Heq].
  - apply Forall_cons in Hw as [Hc Hw]. destruct m as [|x m].
    + cbn [app] in Heq. injection Heq as -> _. rewrite (Hc _ Hcy) in Hb. discriminate Hb.
    + cbn [app] in Heq. injection Heq as -> Heq.
      destruct (IH Hw m Heq) as (m' & -> & ->). exists m'. split; reflexivity.
Qed.

Section Sentinel.

Context {A : Type}.
Variable ic : bool.
Variable w : jsstring.
Variable K : option Z → jsstring → option A.
Variables (b2 : Z) (rest : jsstring).

Hypothesis bar_b2 : is_bar b2 = true.
Hypothesis w_letters :
  Forall (λ c, ∀ x, chr_eq ic c x = true → is_bar x = false ∧ x ≠ 62) w.
Hypothesis w_nonempty : w ≠ [].

Lemma b2_not_angle : b2 ≠ 60 ∧ b2 ≠ 62.
Proof. destruct (is_bar_cases b2 bar_b2) as [-> | ->]; split; discriminate. Qed.

Lemma closing_early (p : option Z) (x y : Z) (s : jsstring) :
  y ≠ 62 → token_closing ic K p (x :: y :: s) = None.
Proof.
  intros Hy. unfold token_closing. cbn [rmatch_cls_form].
  rewrite (chr_eq_gt ic y Hy). destruct (in_class _ _ x); reflexivity.
Qed.

Lemma tail_exact (m : jsstring) :
  Forall (λ c, c ≠ 60 ∧ c ≠ 62) m →
  ∀ p, token_tail ic K p (m ++ b2 :: 62 :: rest) = K (Some 62) rest.
Proof.
  pose proof b2_not_angle as [Hb60 Hb62].
  induction 1 as [|x m [Hx1 Hx2] Hm IH]; intros p.
  - unfold token_tail. cbn [app star_cls].
    rewrite (in_class_not_angle b2 Hb60 Hb62).
    change (in_class true [CChar 60; CChar 62] 62) with false. cbv iota.
    unfold token_closing at 1. cbn [rmatch_cls_form].
    change (in_class false [CChar 65372; CChar 124] 62) with false. cbv iota.
    unfold token_closing. cbn [rmatch_cls_form].
    rewrite in_class_bar, bar_b2, chr_eq_refl. reflexivity.
  - unfold token_tail. cbn [app star_cls]. rewrite (in_class_not_angle x Hx1 Hx2).
    fold (token_tail ic K). rewrite IH.
    destruct (K (Some 62) rest) as [t|] eqn:HK; [reflexivity|].
    destruct m as [|y m]; cbn [app].
    + apply closing_early, Hb62.
    + apply Forall_cons in Hm as [[_ Hy] _]. apply closing_early, Hy.
Qed.

Lemma named_cases (m : jsstring) (p : option Z) :
  Forall (λ c, c ≠ 60 ∧ c ≠ 62) m →
  token_named ic w K p (m ++ b2 :: 62 :: rest) = None
  ∨ token_named ic w K p (m ++ b2 :: 62 :: rest) = K (Some 62) rest.
Proof.
  intros Hm. unfold token_named.
  destruct (word_cases ic w p (m ++ b2 :: 62 :: rest) (token_tail ic K))
    as [-> | (m0 & s' & p' & Heq & H2 & ->)]; [left; reflexivity|].
  right.
  assert (Hw : Forall (λ c, ∀ x, chr_eq ic c x = true → is_bar x = false) w).
  { eapply Forall_impl; [exact w_letters|]. intros c Hc x Hx. apply (Hc x Hx). }
  destruct (word_before_bar ic b2 (62 :: rest) w bar_b2 Hw m0 m s' H2 Heq)
    as (m' & -> & ->).
  apply tail_exact. apply Forall_app in Hm as [_ Hm]. exact Hm.
Qed.

Lemma named_at_gt (p : option Z) (s : jsstring) : token_named ic w K p (62 :: s) = None.
Proof.
  unfold token_named. pose proof w_letters as Hw. pose proof w_nonempty as Hne.
  revert Hw Hne. generalize w. intros [|c w'] Hw Hne; [congruence|].
  cbn [map]. rewrite rmatch_cls_form_seqs. cbn [rmatch_cls_form].
  destruct (chr_eq ic c 62) eqn:Hc; [|reflexivity].
  apply Forall_cons in Hw as [Hw _].
  destruct (Hw 62 Hc) as [_ H62]. congruence.
Qed.

Lemma head_cases (m : jsstring) :
  Forall (λ c, c ≠ 60 ∧ c ≠ 62) m →
  ∀ p, star_cls true [CChar 60; CChar 62] true (token_named ic w K) p
         (m ++ b2 :: 62 :: rest) = None
       ∨ star_cls true [CChar 60; CChar 62] true (token_named ic w K) p
           (m ++ b2 :: 62 :: rest) = K (Some 62) rest.
Proof.
  pose proof b2_not_angle as [Hb60 Hb62].
  intros Hm. induction Hm as [|x m [Hx1 Hx2] Hm IH]; intros p.
  - cbn [app star_cls]. rewrite (in_class_not_angle b2 Hb60 Hb62).
    change (in_class true [CChar 60; CChar 62] 62) with false. cbv iota.
    rewrite named_at_gt. apply (named_cases [] p). constructor.
  - assert (Hn : token_named ic w K p ((x :: m) ++ b2 :: 62 :: rest) = None
                 ∨ token_named ic w K p ((x :: m) ++ b2 :: 62 :: rest) = K (Some 62) rest).
    { apply named_cases. constructor; [split|]; assumption. }
    cbn [app star_cls] in Hn |- *. rewrite (in_class_not_angle x Hx1 Hx2).
    destruct (IH (Some x)) as [-> | ->]; [exact Hn|].
    destruct (K (Some 62) rest) as [t|]; [right; reflexivity | exact Hn].
Qed.

(** [[^<>]*], the word, [[^<>]*[｜|]>]: on a name that starts with the
    word, the match ends at the [>] of the token. *)
Lemma head_exact (n : jsstring) (p : option Z) :
  Forall (λ c, c ≠ 60 ∧ c ≠ 62) w → Forall (λ c, c ≠ 60 ∧ c ≠ 62) n →
  star_cls true [CChar 60; CChar 62] true (token_named ic w K) p
    (w ++ n ++ b2 :: 62 :: rest)
  = K (Some 62) rest.
Proof.
  intros Hw Hn.
  assert (Hzero : token_named ic w K p (w ++ n ++ b2 :: 62 :: rest) = K (Some 62) rest).
  { unfold token_named.
    destruct (word_self ic w p (n ++ b2 :: 62 :: rest) (token_tail ic K)) as [p' ->].
    apply tail_exact, Hn. }
  assert (Hm : Forall (λ c, c ≠ 60 ∧ c ≠ 62) (w ++ n)) by (apply Forall_app; split; assumption).
  rewrite app_assoc in Hzero |- *.
  destruct (w ++ n) as [|x m] eqn:Em.
  { apply app_eq_nil in Em as [Ew _]. congruence. }
  apply Forall_cons in Hm as [[Hx1 Hx2] Hm].
  cbn [app star_cls] in Hzero |- *. rewrite (in_class_not_angle x Hx1 Hx2).
  destruct (head_cases m Hm (Some x)) as [-> | ->]; [exact Hzero|].
  destruct (K (Some 62) rest); [reflexivity | exact Hzero].
Qed.

End Sentinel.

Lemma letter_no_bar (c : Z) :
  97 ≤ c ≤ 122 → ∀ x, chr_eq true c x = true → is_bar x = false ∧ x ≠ 62.
Proof.
  intros Hc x H. unfold chr_eq, canon in H.
  assert (Hr : (97 <=? c) && (c <=? 122) = true)
    by (apply andb_true_iff; split; apply Z.leb_le; lia).
  rewrite Hr in H. unfold is_bar, FULLWIDTH_BAR.
  destruct ((97 <=? x) && (x <=? 122)) eqn:Hx; apply Z.eqb_eq in H.
  - apply andb_true_iff in Hx as [H1 H2]. apply Z.leb_le in H1, H2.
    split; [|lia]. apply orb_false_iff. split; apply Z.eqb_neq; lia.
  - split; [|lia]. apply orb_false_iff. split; apply Z.eqb_neq; lia.
Qed.

Lemma letters_no_bar (w : jsstring) :
  Forall (λ c, 97 ≤ c ≤ 122) w →
  Forall (λ c, ∀ x, chr_eq true c x = true → is_bar x = false ∧ x ≠ 62) w
  ∧ Forall (λ c, c ≠ 60 ∧ c ≠ 62) w.
Proof.
  intros H. split; (eapply Forall_impl; [exact H|]); intros c Hc.
  - apply letter_no_bar, Hc.
  - cbv beta in Hc. lia.
Qed.

Lemma begin_letters : Forall (λ c, 97 ≤ c ≤ 122) (lit "begin").
Proof. cbv. repeat (apply Forall_cons_2; [split; discriminate|]). apply Forall_nil_2. Qed.

Lemma end_letters : Forall (λ c, 97 ≤ c ≤ 122) (lit "end").
Proof. cbv. repeat (apply Forall_cons_2; [split; discriminate|]). apply Forall_nil_2. Qed.

(** A sentinel token whose name starts with the word [w] is matched by
    [<[｜|][^<>]*w[^<>]*[｜|]>] up to its [>]. *)
Lemma sentinel_token_exact {A : Type} (w : jsstring)
    (K : option Z → jsstring → option A) (b1 b2 : Z) (n rest : jsstring) (p : option Z) :
  Forall (λ c, 97 ≤ c ≤ 122) w → w ≠ [] →
  is_bar b1 = true → is_bar b2 = true → Forall (λ c, c ≠ 60 ∧ c ≠ 62) n →
  rmatch_cls_form true (Chr 60) p (60 :: b1 :: w ++ n ++ b2 :: 62 :: rest)
    (λ p1 s1, rmatch_cls_form true (Cls false [CChar 65372; CChar 124]) p1 s1
       (star_cls true [CChar 60; CChar 62] true
          (λ p3 s3, rmatch_cls_form true (seqs (map Chr w)) p3 s3
             (star_cls true [CChar 60; CChar 62] true
                (λ p5 s5, rmatch_cls_form true (Cls false [CChar 65372; CChar 124]) p5 s5
                   (λ p6 s6, rmatch_cls_form true (Chr 62) p6 s6 K))))))
  = K (Some 62) rest.
Proof.
  intros Hw Hne Hb1 Hb2 Hn. destruct (letters_no_bar w Hw) as [Hw1 Hw2].
  cbn [rmatch_cls_form]. change (chr_eq true 60 60) with true. cbv iota.
  rewrite in_class_bar, Hb1.
  apply (head_exact true w K b2 rest Hb2 Hw1 Hne n (Some b1) Hw2 Hn).
Qed.

Lemma exec_sentinel_block (p : option Z) (b1 b2 b3 b4 : Z) (n1 n2 inner post : jsstring) :
  is_bar b1 = true → is_bar b2 = true → is_bar b3 = true → is_bar b4 = true →
  Forall (λ c, c ≠ 60 ∧ c ≠ 62) n1 → Forall (λ c, c ≠ 60 ∧ c ≠ 62) n2 →
  Forall (λ c, c ≠ 60) inner →
  regex_exec true KIMI_BLOCK_RE p
    (60 :: b1 :: lit "begin" ++ n1 ++ b2 :: 62 :: inner
     ++ 60 :: b3 :: lit "end" ++ n2 ++ b4 :: 62 :: post)
  = Some post.
Proof.
  intros Hb1 Hb2 Hb3 Hb4 Hn1 Hn2 Hin. rewrite regex_exec_cls_form.
  set (closing := λ (p : option Z) (s : jsstring),
         rmatch_cls_form true (Chr 60) p s
           (λ p1 s1, rmatch_cls_form true (Cls false [CChar 65372; CChar 124]) p1 s1
              (star_cls true [CChar 60; CChar 62] true
                 (λ p3 s3, rmatch_cls_form true (seqs (map Chr (lit "end"))) p3 s3
                    (star_cls true [CChar 60; CChar 62] true
                       (λ p5 s5,
                          rmatch_cls_form true (Cls false [CChar 65372; CChar 124]) p5 s5
                            (λ p6 s6, rmatch_cls_form true (Chr 62) p6 s6
                                        (λ _ t, Some t)))))))).
  transitivity (star_cls false [CSpace; CNonSpace] false closing (Some 62)
                  (inner ++ 60 :: b3 :: lit "end" ++ n2 ++ b4 :: 62 :: post)).
  - exact (sentinel_token_exact (lit "begin")
             (star_cls false [CSpace; CNonSpace] false closing) b1 b2 n1 _ p
             begin_letters ltac:(discriminate) Hb1 Hb2 Hn1).
  - apply lazy_any; [| |exact Hin].
    + intros p'. exact (sentinel_token_exact (lit "end") (λ _ t, Some t) b3 b4 n2 post p'
                          end_letters ltac:(discriminate) Hb3 Hb4 Hn2).
    + intros p' x s Hx. unfold closing. cbn [rmatch_cls_form].
      rewrite (chr_eq_lt true x Hx). reflexivity.
Qed.

Lemma tag_name_cases (n : jsstring) :
  n ∈ TAG_NAMES →
  n = lit "think" ∨ n = lit "thinking" ∨ n = lit "thought" ∨ n = lit "antthinking".
Proof.
  unfold TAG_NAMES. cbn [map]. rewrite !elem_of_cons, elem_of_nil. tauto.
Qed.

(** [<name>] is matched by the opening part of the block expression. *)
Lemma open_tag_exact {A : Type} (K : option Z → jsstring → option A)
    (n rest : jsstring) (p : option Z) :
  n ∈ TAG_NAMES →
  rmatch_cls_form true
    (Seq (Chr 60) (Seq SPACES (Seq TAG_NAME (Seq WordB (Seq (Star true NOT_GT) (Chr 62))))))
    p (60 :: n ++ 62 :: rest) K
  = K (Some 62) rest.
Proof.
  intros Hn. destruct (tag_name_cases n Hn) as [-> | [-> | [-> | ->]]];
    vm_compute; destruct (K (Some 62) rest); reflexivity.
Qed.

(** [</name>] is matched by the closing part. *)
Lemma close_tag_exact {A : Type} (K : option Z → jsstring → option A)
    (n rest : jsstring) (p : option Z) :
  n ∈ TAG_NAMES →
  rmatch_cls_form true
    (Seq (Chr 60) (Seq SPACES (Seq (Chr 47) (Seq SPACES (Seq TAG_NAME (Seq SPACES (Chr 62)))))))
    p (60 :: 47 :: n ++ 62 :: rest) K
  = K (Some 62) rest.
Proof.
  intros Hn. destruct (tag_name_cases n Hn) as [-> | [-> | [-> | ->]]];
    vm_compute; destruct (K (Some 62) rest); reflexivity.
Qed.

Lemma exec_paired_block (p : option Z) (n1 n2 inner post : jsstring) :
  n1 ∈ TAG_NAMES → n2 ∈ TAG_NAMES → Forall (λ c, c ≠ 60) inner →
  regex_exec true THINKING_BLOCK_RE p
    (60 :: n1 ++ 62 :: inner ++ 60 :: 47 :: n2 ++ 62 :: post)
  = Some post.
Proof.
  intros Hn1 Hn2 Hin. rewrite regex_exec_cls_form.
  set (CLOSE := Seq (Chr 60) (Seq SPACES (Seq (Chr 47) (Seq SPACES
                  (Seq TAG_NAME (Seq SPACES (Chr 62))))))).
  set (closing := λ (p : option Z) (s : jsstring),
         rmatch_cls_form true CLOSE p s (λ _ t, Some t)).
  transitivity (star_cls false [CSpace; CNonSpace] false closing (Some 62)
                  (inner ++ 60 :: 47 :: n2 ++ 62 :: post)).
  - exact (open_tag_exact (star_cls false [CSpace; CNonSpace] false closing) n1 _ p Hn1).
  - apply lazy_any; [| |exact Hin].
    + intros p'. exact (close_tag_exact (λ _ t, Some t) n2 post p' Hn2).
    + intros p' x s Hx. unfold closing, CLOSE. cbn [rmatch_cls_form].
      rewrite (chr_eq_lt true x Hx). reflexivity.
Qed.

Lemma exec_KIMI_BLOCK_no_bar (p : option Z) (x : Z) (s : jsstring) :
  is_bar x = false → regex_exec true KIMI_BLOCK_RE p (60 :: x :: s) = None.
Proof.
  intros Hx. unfold regex_exec. cbn [KIMI_BLOCK_RE seqs rmatch ch BAR].
  change (chr_eq true (code "<") 60) with true. cbv iota.
  rewrite in_class_bar, Hx. reflexivity.
Qed.

Lemma exec_KIMI_TOKEN_no_bar (p : option Z) (x : Z) (s : jsstring) :
  is_bar x = false → regex_exec false KIMI_TOKEN_RE p (60 :: x :: s) = None.
Proof.
  intros Hx. unfold regex_exec. rewrite KIMI_TOKEN_RE_eq.
  rewrite rmatch_seq, rmatch_chr. change (chr_eq false 60 60) with true. cbv iota.
  rewrite rmatch_seq, rmatch_cls, in_class_bar, Hx. reflexivity.
Qed.

Lemma tag_name_head (n : jsstring) :
  n ∈ TAG_NAMES →
  ∃ x n', n = x :: n' ∧ is_bar x = false ∧ Forall (λ c, c ≠ 60) n.
Proof.
  intros Hn. destruct (tag_name_cases n Hn) as [-> | [-> | [-> | ->]]];
    eexists _, _; (split; [reflexivity|]); (split; [reflexivity|]);
    repeat (apply Forall_cons_2; [discriminate|]); apply Forall_nil_2.
Qed.

(** The passes for the sentinel tokens leave a pair of plain tags as it
    is. *)
Lemma remove_all_keeps_paired (ic : bool) (r : regex) (n1 n2 inner post : jsstring) :
  starts_with_lt r →
  (∀ p x s, is_bar x = false → regex_exec ic r p (60 :: x :: s) = None) →
  n1 ∈ TAG_NAMES → n2 ∈ TAG_NAMES → Forall (λ c, c ≠ 60) inner →
  remove_all ic r (60 :: n1 ++ 62 :: inner ++ 60 :: 47 :: n2 ++ 62 :: post)
  = 60 :: n1 ++ 62 :: inner ++ 60 :: 47 :: n2 ++ 62 :: remove_all ic r post.
Proof.
  intros Hr Hno Hn1 Hn2 Hin.
  destruct (tag_name_head n1 Hn1) as (x1 & n1' & E1 & Hx1 & Hf1).
  destruct (tag_name_head n2 Hn2) as (x2 & n2' & E2 & Hx2 & Hf2).
  assert (Hbody1 : Forall (λ c, c ≠ 60) (n1 ++ 62 :: inner)).
  { apply Forall_app. split; [exact Hf1|]. apply Forall_cons_2; [discriminate | exact Hin]. }
  assert (Hbody2 : Forall (λ c, c ≠ 60) (47 :: n2 ++ [62])).
  { apply Forall_cons_2; [discriminate|]. apply Forall_app. split; [exact Hf2|].
    apply Forall_cons_2; [discriminate | apply Forall_nil_2]. }
  rewrite remove_all_kept; [|exact Hr|rewrite E1; apply Hno, Hx1].
  f_equal.
  replace (n1 ++ 62 :: inner ++ 60 :: 47 :: n2 ++ 62 :: post)
    with ((n1 ++ 62 :: inner) ++ 60 :: 47 :: n2 ++ 62 :: post)
    by (rewrite <- app_assoc; reflexivity).
  rewrite (remove_all_text ic r _ _ Hr Hbody1).
  rewrite <- app_assoc. cbn [app]. do 3 f_equal.
  rewrite remove_all_kept; [|exact Hr|apply Hno; reflexivity].
  f_equal.
  replace (47 :: n2 ++ 62 :: post) with ((47 :: n2 ++ [62]) ++ post)
    by (cbn [app]; rewrite <- app_assoc; reflexivity).
  rewrite (remove_all_text ic r _ _ Hr Hbody2).
  cbn [app]. rewrite <- app_assoc. reflexivity.
Qed.

Lemma stripThinkingTokens_paired (pre n1 n2 inner post : jsstring) :
  Forall (λ c, c ≠ 60) pre →
  n1 ∈ TAG_NAMES → n2 ∈ TAG_NAMES → Forall (λ c, c ≠ 60) inner →
  stripThinkingTokens (pre ++ 60 :: n1 ++ 62 :: inner ++ 60 :: 47 :: n2 ++ 62 :: post)
  = pre ++ stripThinkingTokens post.
Proof.
  intros Hpre Hn1 Hn2 Hin. rewrite !stripThinkingTokens_passes.
  rewrite (remove_all_text true KIMI_BLOCK_RE _ _ starts_KIMI_BLOCK_RE Hpre).
  rewrite (remove_all_keeps_paired true KIMI_BLOCK_RE n1 n2 inner post
             starts_KIMI_BLOCK_RE exec_KIMI_BLOCK_no_bar Hn1 Hn2 Hin).
  rewrite (remove_all_text false KIMI_TOKEN_RE _ _ starts_KIMI_TOKEN_RE Hpre).
  rewrite (remove_all_keeps_paired false KIMI_TOKEN_RE n1 n2 inner _
             starts_KIMI_TOKEN_RE exec_KIMI_TOKEN_no_bar Hn1 Hn2 Hin).
  rewrite (remove_all_text true THINKING_BLOCK_RE _ _ starts_THINKING_BLOCK_RE Hpre).
  set (post2 := remove_all false KIMI_TOKEN_RE (remove_all true KIMI_BLOCK_RE post)).
  replace (60 :: n1 ++ 62 :: inner ++ 60 :: 47 :: n2 ++ 62 :: post2)
    with (60 :: (n1 ++ 62 :: inner ++ 60 :: 47 :: n2 ++ [62]) ++ post2)
    by (rewrite <- app_assoc; cbn [app]; rewrite <- app_assoc; cbn [app];
        rewrite <- app_assoc; reflexivity).
  rewrite (remove_all_dropped true THINKING_BLOCK_RE 60 _ post2 starts_THINKING_BLOCK_RE).
  - apply (remove_all_text true THINKING_TAG_RE _ _ starts_THINKING_TAG_RE Hpre).
  - rewrite <- app_assoc; cbn [app]; rewrite <- app_assoc; cbn [app];
      rewrite <- app_assoc. cbn [app].
    apply (exec_paired_block None n1 n2 inner post2 Hn1 Hn2 Hin).
Qed.

Lemma stripThinkingTokens_sentinel (pre : jsstring) (b1 b2 b3 b4 : Z)
    (n1 n2 inner post : jsstring) :
  Forall (λ c, c ≠ 60) pre →
  is_bar b1 = true → is_bar b2 = true → is_bar b3 = true → is_bar b4 = true →
  Forall (λ c, c ≠ 60 ∧ c ≠ 62) n1 → Forall (λ c, c ≠ 60 ∧ c ≠ 62) n2 →
  Forall (λ c, c ≠ 60) inner →
  stripThinkingTokens
    (pre ++ 60 :: b1 :: lit "begin" ++ n1 ++ b2 :: 62 :: inner
     ++ 60 :: b3 :: lit "end" ++ n2 ++ b4 :: 62 :: post)
  = pre ++ stripThinkingTokens post.
Proof.
  intros Hpre Hb1 Hb2 Hb3 Hb4 Hn1 Hn2 Hin. rewrite !stripThinkingTokens_passes.
  rewrite (remove_all_text true KIMI_BLOCK_RE _ _ starts_KIMI_BLOCK_RE Hpre).
  pose proof (exec_sentinel_block None b1 b2 b3 b4 n1 n2 inner post
                Hb1 Hb2 Hb3 Hb4 Hn1 Hn2 Hin) as He.
  assert (Hform :
    60 :: b1 :: lit "begin" ++ n1 ++ b2 :: 62 :: inner
      ++ 60 :: b3 :: lit "end" ++ n2 ++ b4 :: 62 :: post
    = 60 :: (b1 :: lit "begin" ++ n1 ++ b2 :: 62 :: inner
               ++ 60 :: b3 :: lit "end" ++ n2 ++ [b4; 62]) ++ post).
  { cbn [app]. do 2 f_equal. repeat (rewrite <- app_assoc; cbn [app]). reflexivity. }
  rewrite Hform in He |- *.
  rewrite (remove_all_dropped true KIMI_BLOCK_RE 60 _ post starts_KIMI_BLOCK_RE He).
  rewrite (remove_all_text false KIMI_TOKEN_RE _ _ starts_KIMI_TOKEN_RE Hpre).
  rewrite (remove_all_text true THINKING_BLOCK_RE _ _ starts_THINKING_BLOCK_RE Hpre).
  apply (remove_all_text true THINKING_TAG_RE _ _ starts_THINKING_TAG_RE Hpre).
Qed.

(** A thinking block after a text without [<] is deleted as a whole,
    and with it what it encloses. *)
Lemma stripThinkingTokens_block (pre block post : jsstring) :
  Forall (λ c, c ≠ 60) pre → thinking_block block →
  stripThinkingTokens (pre ++ block ++ post) = pre ++ stripThinkingTokens post.
Proof.
  intros Hpre Hb. destruct Hb as [n1 n2 inner Hn1 Hn2 Hin
                                | b1 b2 b3 b4 n1 n2 inner Hb1 Hb2 Hb3 Hb4 Hn1 Hn2 Hin].
  - rewrite <- (stripThinkingTokens_paired pre n1 n2 inner post Hpre Hn1 Hn2 Hin).
    do 2 f_equal. cbn [app]. f_equal. repeat (rewrite <- app_assoc; cbn [app]). reflexivity.
  - rewrite <- (stripThinkingTokens_sentinel pre b1 b2 b3 b4 n1 n2 inner post
                  Hpre Hb1 Hb2 Hb3 Hb4 Hn1 Hn2 Hin).
    do 2 f_equal. cbn [app]. do 2 f_equal. repeat (rewrite <- app_assoc; cbn [app]).
    reflexivity.
Qed.

(** *** What the streaming path writes *)

Section StreamingProperties.

Variable ToolCall : Type.

Implicit Types (choice : Choice ToolCall) (choices : list (Choice ToolCall)).

(** The content frames of one choice: the stripped content, when it is
    not empty. *)
Lemma contentsWritten_choice choice :
  contentsWritten (map WriteChunk (chunksOfChoice choice))
  = match stripThinkingTokens (rawContentOf choice) with
    | [] => []
    | c :: content => [c :: content]
    end.
Proof.
  unfold chunksOfChoice.
  destruct (stripThinkingTokens (rawContentOf choice)) as [|c content];
    destruct (nullish (choice_message _ choice ≫= part_tool_calls _)
                      (choice_delta _ choice ≫= part_tool_calls _)) as [[|t ts]|];
    reflexivity.
Qed.

Lemma contentsWritten_app (ws1 ws2 : list (written ToolCall)) :
  contentsWritten (ws1 ++ ws2) = contentsWritten ws1 ++ contentsWritten ws2.
Proof. unfold contentsWritten. apply omap_app. Qed.

Lemma contentsWritten_choices choices (content : jsstring) :
  content ∈ contentsWritten (map WriteChunk (concat (map chunksOfChoice choices))) →
  ∃ choice, choice ∈ choices ∧ content = stripThinkingTokens (rawContentOf choice).
Proof.
  induction choices as [|choice choices IH].
  - simpl. intros H. apply elem_of_nil in H. destruct H.
  - cbn [map concat]. rewrite map_app, contentsWritten_app, elem_of_app.
    intros [H | H].
    + exists choice. split; [left|].
      rewrite contentsWritten_choice in H.
      destruct (stripThinkingTokens (rawContentOf choice)) as [|c t].
      * apply elem_of_nil in H. destruct H.
      * apply list_elem_of_singleton in H. exact H.
    + destruct (IH H) as [ch [Hin Heq]]. exists ch. split; [right; exact Hin | exact Heq].
Qed.


End StreamingProperties.



(** * Further properties *)

(** ** Reachability of models *)

Lemma truthy_opt_Some (o : option string) :
  truthy_opt o = true ↔ ∃ s, o = Some s ∧ s ≠ ""%string.
Proof.
  destruct o as [s|]; simpl.
  - unfold truthy. rewrite negb_true_iff, String.eqb_neq.
    split; [eauto | intros [s' [[= <-] H]]; exact H].
  - split; [discriminate | intros [s [[=] _]]].
Qed.

(** X1.  With a gateway key every model id is reachable; without one, a
    model is reachable exactly when its provider is OpenAI-compatible
    and has both a non-empty direct key and a non-empty base URL. *)
Theorem isModelAccessible_iff (config : ApiKeysConfig) (modelId : string) :
  isModelAccessible config modelId = true ↔
  hasOpenRouter config = true
  ∨ (getProviderFromModel modelId ∈ OPENAI_COMPATIBLE_PROVIDERS
     ∧ truthy_opt (getApiKey config (getProviderFromModel modelId)) = true
     ∧ truthy_opt (getProviderBaseUrl config (getProviderFromModel modelId)) = true).
Proof.
  unfold isModelAccessible. rewrite bool_decide_eq_true, resolveProviderAccess_unfold.
  cbv zeta. unfold gatewayKeyExists, directKeyExists, hasOpenRouter, speaksDialectA.
  set (p := getProviderFromModel modelId).
  destruct (truthy_opt (getApiKey config "openrouter")).
  - split; [intros _; left; reflexivity|]. intros _.
    destruct (String.eqb p "anthropic" || String.eqb p "google"); simpl; [discriminate|].
    destruct (_ && _ && _); discriminate.
  - rewrite andb_false_r.
    destruct (truthy_opt (getApiKey config p)), (truthy_opt (getProviderBaseUrl config p));
      simpl; try (split; [congruence | intros [? | (? & ? & ?)]; discriminate]).
    destruct (bool_decide_reflect (p ∈ OPENAI_COMPATIBLE_PROVIDERS)) as [Hin | Hnin].
    + split; [intros _; right; auto | discriminate].
    + split; [congruence | intros [? | (? & ? & ?)]; [discriminate | tauto]].
Qed.

(** X2.  An access that is returned always carries a non-empty key; a
    direct one is for the provider named by the model id, an
    OpenAI-compatible one, with a non-empty base URL; any other goes to
    the gateway with the gateway's key. *)
Theorem resolveProviderAccess_sound
    (config : ApiKeysConfig) (modelId : string) (access : ProviderAccess) :
  resolveProviderAccess config modelId = Some access →
  access_apiKey access ≠ ""%string
  ∧ (viaOpenRouter access = false →
     access_provider access = getProviderFromModel modelId
     ∧ access_provider access ∈ OPENAI_COMPATIBLE_PROVIDERS
     ∧ getApiKey config (access_provider access) = Some (access_apiKey access)
     ∧ ∃ url, access_baseUrl access = Some url ∧ url ≠ ""%string)
  ∧ (viaOpenRouter access = true →
     access_provider access = "openrouter"%string
     ∧ getApiKey config "openrouter" = Some (access_apiKey access)).
Proof.
  rewrite resolveProviderAccess_unfold. cbv zeta.
  unfold gatewayKeyExists, directKeyExists, speaksDialectA.
  set (p := getProviderFromModel modelId).
  match goal with
  | |- _ → ?G =>
      assert (Hgw : truthy_opt (getApiKey config "openrouter") = true →
                    Some (gatewayAccess config) = Some access → G)
  end.
  { intros Hk [= <-]. apply truthy_opt_Some in Hk as [k [Hk Hne]].
    unfold gatewayAccess. cbn. rewrite Hk. cbn.
    split; [exact Hne|]. split; [discriminate | auto]. }
  destruct ((String.eqb p "anthropic" || String.eqb p "google")
            && truthy_opt (getApiKey config "openrouter")) eqn:H1.
  { apply andb_true_iff in H1 as [_ Hk]. exact (Hgw Hk). }
  destruct (truthy_opt (getApiKey config p) && truthy_opt (getProviderBaseUrl config p)
            && bool_decide (p ∈ OPENAI_COMPATIBLE_PROVIDERS)) eqn:H2.
  - apply andb_true_iff in H2 as [H2 Hc]. apply andb_true_iff in H2 as [Hk Hu].
    apply bool_decide_eq_true in Hc.
    apply truthy_opt_Some in Hk as [k [Hk Hkne]].
    apply truthy_opt_Some in Hu as [u [Hu Hune]].
    intros [= <-]. unfold directAccess. cbn. rewrite Hk, Hu. cbn.
    split; [exact Hkne|]. split; [|discriminate].
    intros _. repeat split; try assumption. eauto.
  - destruct (truthy_opt (getApiKey config "openrouter")) eqn:Hk; [|discriminate].
    exact (Hgw eq_refl).
Qed.

Lemma resolveProviderAccess_sound_witness :
  let config :=
    {| providers := {[ "openai"%string := {| apiKey := "sk-test"; baseUrl := None |} ]} |} in
  let access := {| access_apiKey := "sk-test";
                   access_baseUrl := Some "https://api.openai.com/v1"%string;
                   access_provider := "openai"; viaOpenRouter := false |} in
  resolveProviderAccess config "openai/gpt-4o" = Some access
  ∧ access_apiKey access ≠ ""%string.
Proof.
  cbv zeta.
  match goal with
  | |- resolveProviderAccess ?c ?m = Some ?a ∧ _ =>
      assert (H : resolveProviderAccess c m = Some a) by (vm_compute; reflexivity);
      split; [exact H|];
      exact (proj1 (resolveProviderAccess_sound c m a H))
  end.
Defined.

Lemma elem_of_getConfiguredProviders (config : ApiKeysConfig) (p : string) :
  p ∈ getConfiguredProviders config ↔ truthy_opt (getApiKey config p) = true.
Proof.
  unfold getConfiguredProviders, getApiKey. rewrite elem_of_dom. unfold is_Some.
  split.
  - intros [c Hc]. apply map_lookup_filter_Some in Hc as [Hc Ht].
    rewrite Hc. exact Ht.
  - destruct (providers config !! p) as [c|] eqn:Hc; [|discriminate].
    intros Ht. exists c. apply map_lookup_filter_Some. split; [exact Hc | exact Ht].
Qed.

(** X3.  Without a gateway key, the models of [anthropic] and [google]
    are listed by [/v1/models] as soon as the provider has a key, and
    none of them is reachable. *)
Theorem listed_but_not_reachable (config : ApiKeysConfig) (id : string) :
  hasOpenRouter config = false →
  String.eqb (getProviderFromModel id) "anthropic"
  || String.eqb (getProviderFromModel id) "google" = true →
  truthy_opt (getApiKey config (getProviderFromModel id)) = true →
  modelListed config id = true
  ∧ isModelAccessible config id = false
  ∧ resolveProviderAccess config id = None.
Proof.
  intros Hno Hconv Hkey.
  assert (Hnone : resolveProviderAccess config id = None)
    by (rewrite (needsConversion_access _ _ Hconv), Hno; reflexivity).
  split; [|split; [apply isModelAccessible_false, Hnone | exact Hnone]].
  unfold modelListed. apply orb_true_iff. right. apply bool_decide_eq_true.
  unfold getAccessibleProviders. rewrite Hno. cbv zeta.
  apply elem_of_difference. split.
  - apply elem_of_getConfiguredProviders, Hkey.
  - rewrite elem_of_singleton. intros Heq. rewrite Heq in Hconv. discriminate.
Qed.

Lemma listed_but_not_reachable_witness :
  let config :=
    {| providers :=
         {[ "anthropic"%string := {| apiKey := "sk-ant-test"; baseUrl := None |} ]} |} in
  hasOpenRouter config = false
  ∧ modelListed config "anthropic/claude-sonnet-4" = true
  ∧ isModelAccessible config "anthropic/claude-sonnet-4" = false.
Proof.
  cbv zeta.
  match goal with
  | |- hasOpenRouter ?c = false ∧ _ =>
      assert (Hno : hasOpenRouter c = false) by (vm_compute; reflexivity);
      split; [exact Hno|];
      destruct (listed_but_not_reachable c "anthropic/claude-sonnet-4" Hno
                  eq_refl ltac:(vm_compute; reflexivity)) as [H1 [H2 _]]
  end.
  split; [exact H1 | exact H2].
Defined.

(** ** The rate-limit map *)

(** X4.  A model marked at [t] counts as rate-limited at every instant
    less than the cooldown after [t]; from the cooldown on it does not,
    and asking removes its mark.  Marks of other models are not
    touched by the question. *)
Theorem markRateLimited_cooldown
    (t now : Z) (m : string) (rateLimitedModels : gmap string Z) :
  t ≠ 0 →
  let marked := markRateLimited t m rateLimitedModels in
  (now - t < RATE_LIMIT_COOLDOWN_MS → isRateLimited now m marked = (true, marked))
  ∧ (RATE_LIMIT_COOLDOWN_MS ≤ now - t →
     isRateLimited now m marked = (false, delete m rateLimitedModels)
     ∧ snd (isRateLimited now m marked) !! m = None)
  ∧ ∀ other, other ≠ m →
      snd (isRateLimited now m marked) !! other = rateLimitedModels !! other.
Proof.
  intros Ht marked. unfold isRateLimited, marked, markRateLimited.
  rewrite lookup_insert_eq.
  apply Z.eqb_neq in Ht. rewrite Ht.
  destruct (Z.leb_spec RATE_LIMIT_COOLDOWN_MS (now - t)) as [Hexp | Hin].
  - split; [lia|]. split.
    + intros _. rewrite delete_insert_eq. split; [reflexivity|].
      cbn [snd]. apply lookup_delete_eq.
    + intros other Hne. cbn [snd].
      rewrite lookup_delete_ne by congruence. apply lookup_insert_ne. congruence.
  - split; [reflexivity|]. split; [lia|].
    intros other Hne. cbn [snd]. apply lookup_insert_ne. congruence.
Qed.

Lemma markRateLimited_cooldown_witness :
  (1000 : Z) ≠ 0
  ∧ isRateLimited 60999 "openai/gpt-4o" (markRateLimited 1000 "openai/gpt-4o" ∅)
    = (true, markRateLimited 1000 "openai/gpt-4o" ∅)
  ∧ isRateLimited 61000 "openai/gpt-4o" (markRateLimited 1000 "openai/gpt-4o" ∅)
    = (false, delete "openai/gpt-4o"%string ∅).
Proof.
  split; [discriminate|].
  destruct (markRateLimited_cooldown 1000 60999 "openai/gpt-4o" ∅ ltac:(discriminate))
    as [H1 _].
  destruct (markRateLimited_cooldown 1000 61000 "openai/gpt-4o" ∅ ltac:(discriminate))
    as [_ [H2 _]].
  split; [apply H1; reflexivity | apply H2; discriminate].
Defined.

Lemma filter_partition_Permutation {A : Type} (f : A → bool) (l : list A) :
  filter (λ x, f x = false) l ++ filter (λ x, f x = true) l ≡ₚ l.
Proof.
  induction l as [|a l IH]; [reflexivity|].
  destruct (f a) eqn:Hf.
  - rewrite (filter_cons_False (λ x, f x = false)) by (rewrite Hf; discriminate).
    rewrite (filter_cons_True (λ x, f x = true)) by exact Hf.
    rewrite <- Permutation_middle. constructor. exact IH.
  - rewrite (filter_cons_True (λ x, f x = false)) by exact Hf.
    rewrite (filter_cons_False (λ x, f x = true)) by (rewrite Hf; discriminate).
    cbn [app]. constructor. exact IH.
Qed.

(** X5.  [prioritizeNonRateLimited] only reorders: its result is a
    permutation of the models it is given, in which no rate-limited
    model stands before one that is not; and the marks that are still
    within their cooldown are all kept. *)
Theorem prioritizeNonRateLimited_permutation
    (now : Z) (models : list string) (rateLimitedModels : gmap string Z) :
  fst (prioritizeNonRateLimited now models rateLimitedModels) ≡ₚ models
  ∧ (∀ before after a b,
       fst (prioritizeNonRateLimited now models rateLimitedModels)
       = before ++ a :: after →
       b ∈ after →
       fst (isRateLimited now a rateLimitedModels) = true →
       fst (isRateLimited now b rateLimitedModels) = true)
  ∧ ∀ m, fst (isRateLimited now m
                (snd (prioritizeNonRateLimited now models rateLimitedModels)))
         = fst (isRateLimited now m rateLimitedModels).
Proof.
  split; [|split].
  - rewrite prioritizeNonRateLimited_partition.
    apply (filter_partition_Permutation (λ m, fst (isRateLimited now m rateLimitedModels))).
  - rewrite prioritizeNonRateLimited_partition.
    intros before after a b Heq Hb Ha.
    set (f := λ m, fst (isRateLimited now m rateLimitedModels)) in *.
    assert (Hsplit : ∀ (l1 l2 pre : list string),
               Forall (λ x, f x = false) l1 → Forall (λ x, f x = true) l2 →
               l1 ++ l2 = pre ++ a :: after → Forall (λ x, f x = true) after).
    { clear Heq. induction l1 as [|x l1 IHl]; intros l2 pre H1 H2 Hl.
      - cbn [app] in Hl. subst l2. rewrite Forall_app, Forall_cons in H2.
        destruct H2 as [_ [_ H2]]. exact H2.
      - destruct pre as [|y pre].
        + cbn [app] in Hl. injection Hl as -> _.
          apply Forall_cons in H1 as [H1 _]. cbn beta in H1. unfold f in H1. congruence.
        + cbn [app] in Hl. injection Hl as _ Hl.
          apply Forall_cons in H1 as [_ H1]. exact (IHl l2 pre H1 H2 Hl). }
    assert (Hafter : Forall (λ x, f x = true) after).
    { apply (Hsplit _ _ before) with (3 := Heq).
      - apply Forall_forall. intros x Hx. apply list_elem_of_filter in Hx as [Hx _]. exact Hx.
      - apply Forall_forall. intros x Hx. apply list_elem_of_filter in Hx as [Hx _]. exact Hx. }
    rewrite Forall_forall in Hafter. exact (Hafter b Hb).
  - intros m. unfold prioritizeNonRateLimited.
    assert (Hgen : ∀ l av lim mk,
              (∀ x, fst (isRateLimited now x mk) = fst (isRateLimited now x rateLimitedModels)) →
              ∀ x, fst (isRateLimited now x
                          (snd (fold_left (prioritize_step now) l (av, lim, mk))))
                   = fst (isRateLimited now x rateLimitedModels)).
    { induction l as [|y l IHl]; intros av lim mk Hmk x; [apply Hmk|].
      cbn [fold_left]. unfold prioritize_step at 2.
      pose proof (isRateLimited_same now y) as Hsame.
      destruct (isRateLimited now y mk) as [isLimited mk1] eqn:Hr.
      assert (Hmk1 : ∀ z, fst (isRateLimited now z mk1)
                          = fst (isRateLimited now z rateLimitedModels)).
      { intros z. specialize (Hsame z mk). rewrite Hr in Hsame. cbn [snd] in Hsame.
        rewrite Hsame. apply Hmk. }
      destruct isLimited; apply IHl; exact Hmk1. }
    specialize (Hgen models [] [] rateLimitedModels (λ _, eq_refl) m).
    destruct (fold_left (prioritize_step now) models ([], [], rateLimitedModels))
      as [[av lim] mk]. exact Hgen.
Qed.

(** ** The attempt loop *)

(** What a result with status 429 and the provider-error flag comes from. *)
Lemma tryModelRequest_429 (apiKeys : ApiKeysConfig) (modelId : string)
    (reply : upstream_reply) :
  errorStatus (tryModelRequest apiKeys modelId reply) = Some 429 →
  isProviderErrorFlag (tryModelRequest apiKeys modelId reply) = true →
  ∃ body, reply = Reply 429 body ∧ isProviderError 429 body = true.
Proof.
  unfold tryModelRequest.
  destruct (resolveProviderAccess apiKeys modelId); [|discriminate].
  destruct reply as [status body | message]; [|discriminate].
  destruct (Z.eqb_spec status 200) as [-> | Hne]; [discriminate|].
  cbn. intros [= ->] Hflag. eauto.
Qed.

Lemma tryModelRequest_success (apiKeys : ApiKeysConfig) (modelId : string)
    (reply : upstream_reply) :
  success (tryModelRequest apiKeys modelId reply) = true →
  ∃ body, reply = Reply 200 body
          ∧ response (tryModelRequest apiKeys modelId reply) = Some body
          ∧ isModelAccessible apiKeys modelId = true.
Proof.
  unfold tryModelRequest, isModelAccessible.
  destruct (resolveProviderAccess apiKeys modelId); [|discriminate].
  destruct reply as [status body | message]; [|discriminate].
  destruct (Z.eqb_spec status 200) as [-> | Hne]; [|discriminate].
  intros _. exists body. repeat split; try (apply bool_decide_eq_true; discriminate).
Qed.

(** X6.  The outcome of the loop.  When an upstream reply is kept, it is
    the 200 reply of the last model called, and that model is the one
    reported as used; when none is kept although there was a model to
    try, the error kept is the one of the last model called, and the
    model reported is unchanged. *)
Theorem attemptLoop_outcome (apiKeys : ApiKeysConfig)
    (fetch : nat → string → upstream_reply) (clock : nat → Z) (models : list string) :
  ∀ (i : nat) (st : attempts),
    upstream st = None →
    let after := attemptLoop apiKeys fetch clock i models st in
    match upstream after with
    | Some body =>
        ∃ pre m, tried after = tried st ++ pre ++ [m]
                 ∧ actualModelUsed after = m
                 ∧ fetch (i + length pre)%nat m = Reply 200 body
                 ∧ isModelAccessible apiKeys m = true
    | None =>
        actualModelUsed after = actualModelUsed st
        ∧ (models ≠ [] →
           ∃ pre m, tried after = tried st ++ pre ++ [m]
                    ∧ lastError after
                      = Some (failureOf (tryModelRequest apiKeys m
                                           (fetch (i + length pre)%nat m))))
    end.
Proof.
  induction models as [|m rest IH]; intros i st Hup.
  - cbn. rewrite Hup. split; [reflexivity | congruence].
  - cbv zeta. rewrite attemptLoop_cons. cbv zeta.
    destruct (success (tryModelRequest apiKeys m (fetch i m))) eqn:Hs.
    + apply tryModelRequest_success in Hs as [body [Hf [Hr Hacc]]].
      cbn [upstream]. rewrite Hr.
      exists [], m. cbn. rewrite Nat.add_0_r. auto.
    + destruct (isProviderErrorFlag (tryModelRequest apiKeys m (fetch i m))
                && negb (bool_decide (rest = []))) eqn:Hgo.
      * apply andb_true_iff in Hgo as [_ Hrest].
        apply negb_true_iff, bool_decide_eq_false in Hrest.
        match goal with
        | |- context [attemptLoop _ _ _ (S i) rest ?st'] =>
            specialize (IH (S i) st' Hup); cbv zeta in IH;
            destruct (upstream (attemptLoop apiKeys fetch clock (S i) rest st'))
        end.
        -- destruct IH as (pre & m' & Ht & Hm & Hf & Hacc).
           exists (m :: pre), m'. cbn [tried length] in *.
           rewrite Ht, <- app_assoc. cbn [app].
           replace (i + S (length pre))%nat with (S i + length pre)%nat by lia. auto.
        -- destruct IH as [Hm IH]. split; [exact Hm|]. intros _.
           destruct (IH Hrest) as (pre & m' & Ht & He).
           exists (m :: pre), m'. cbn [tried length] in *.
           rewrite Ht, <- app_assoc. cbn [app].
           replace (i + S (length pre))%nat with (S i + length pre)%nat by lia. auto.
      * cbn [upstream]. rewrite Hup. split; [reflexivity|]. intros _.
        exists [], m. cbn. rewrite Nat.add_0_r. auto.
Qed.

Lemma attemptLoop_outcome_witness :
  let apiKeys :=
    {| providers := {[ "openrouter"%string := {| apiKey := "sk-or-test"; baseUrl := None |} ]} |} in
  let fetch := λ (i : nat) (_ : string),
                 match i with
                 | O => Reply 503 (lit "overloaded")
                 | _ => Reply 200 (lit "{}")
                 end in
  let st := {| upstream := None; lastError := None; actualModelUsed := "openai/gpt-4o";
               marks := ∅; tried := [] |} in
  let after := attemptLoop apiKeys fetch (λ _, 0) 0
                 ["openai/gpt-4o"; "deepseek/deepseek-chat"]%string st in
  upstream st = None
  ∧ upstream after = Some (lit "{}")
  ∧ actualModelUsed after = "deepseek/deepseek-chat"%string.
Proof.
  cbv zeta. split; [reflexivity|].
  match goal with
  | |- upstream (attemptLoop ?k ?f ?c ?i ?ms ?st) = _ ∧ _ =>
      pose proof (attemptLoop_outcome k f c ms i st eq_refl) as H;
      cbv zeta in H;
      assert (Hu : upstream (attemptLoop k f c i ms st) = Some (lit "{}"))
        by (vm_compute; reflexivity);
      rewrite Hu in H; split; [exact Hu|]
  end.
  vm_compute. reflexivity.
Defined.

(** X7.  The loop changes the mark of a model only for a reply with
    status 429 that is retryable (its body matches an error pattern)
    and that is followed by another attempt: the new mark is the clock
    of that attempt.  A chain of one model leaves the map as it is,
    whatever the upstream answers. *)
Theorem attemptLoop_marks (apiKeys : ApiKeysConfig)
    (fetch : nat → string → upstream_reply) (clock : nat → Z) (models : list string) :
  ∀ (i : nat) (st : attempts),
    let after := attemptLoop apiKeys fetch clock i models st in
    (∀ m, marks after !! m ≠ marks st !! m →
          ∃ j body, (i ≤ j < i + length models - 1)%nat
                    ∧ fetch j m = Reply 429 body
                    ∧ isProviderError 429 body = true
                    ∧ marks after !! m = Some (clock j))
    ∧ (length models ≤ 1 → marks after = marks st)%nat.
Proof.
  induction models as [|x rest IH]; intros i st; cbv zeta.
  - cbn. split; [congruence | reflexivity].
  - rewrite attemptLoop_cons. cbv zeta.
    destruct (success (tryModelRequest apiKeys x (fetch i x))).
    { cbn [marks]. split; [congruence | reflexivity]. }
    destruct (isProviderErrorFlag (tryModelRequest apiKeys x (fetch i x))
              && negb (bool_decide (rest = []))) eqn:Hgo.
    2: { cbn [marks]. split; [congruence | reflexivity]. }
    apply andb_true_iff in Hgo as [Hflag Hrest].
    apply negb_true_iff, bool_decide_eq_false in Hrest.
    split.
    2: { cbn [length]. intros Hlen. destruct rest; [congruence | cbn in Hlen; lia]. }
    intros m Hm.
    match goal with
    | _ : context [attemptLoop _ _ _ (S i) rest ?st'] |- _ =>
        destruct (IH (S i) st') as [IHm _]; cbv zeta in IHm;
        destruct (decide (marks (attemptLoop apiKeys fetch clock (S i) rest st') !! m
                          = marks st' !! m)) as [Hsame | Hdiff]
    end.
    + rewrite Hsame in Hm |- *. cbn [marks] in Hm |- *.
      destruct (bool_decide_reflect
                  (errorStatus (tryModelRequest apiKeys x (fetch i x)) = Some 429))
        as [H429 | Hn]; [|congruence].
      unfold markRateLimited in Hm |- *.
      destruct (decide (x = m)) as [-> | Hne].
      * destruct (tryModelRequest_429 _ _ _ H429 Hflag) as [body [Hf Hp]].
        exists i, body. rewrite lookup_insert_eq.
        repeat split; try assumption; try lia.
        destruct rest; [congruence | cbn [length]; lia].
      * rewrite lookup_insert_ne in Hm by exact Hne. congruence.
    + destruct (IHm m Hdiff) as (j & body & Hj & Hf & Hp & Hmark).
      exists j, body. repeat split; try assumption; cbn [length]; lia.
Qed.

Section AttemptBounds.

Variable TierTable : Type.
Variable getFallbackChainFiltered : Tier → TierTable → Z → (string → option Z) → list string.
Variable getModelContextWindow : string → option Z.

(** X8.  A routed request calls at most [MAX_FALLBACK_ATTEMPTS] models,
    and only models that are reachable with the configured keys. *)
Theorem routed_attempts_bounded
    (apiKeys : ApiKeysConfig) (config : RouterConfig TierTable)
    (decision : RoutingDecision) (modelId : string) (bodyLength maxTokens now : Z)
    (rateLimitedModels : gmap string Z)
    (fetch : nat → string → upstream_reply) (clock : nat → Z) :
  let after := dispatch getFallbackChainFiltered getModelContextWindow
                 apiKeys config (Some decision) modelId bodyLength maxTokens now
                 rateLimitedModels fetch clock in
  (length (tried after) ≤ MAX_FALLBACK_ATTEMPTS)%nat
  ∧ ∀ m, m ∈ tried after → isModelAccessible apiKeys m = true.
Proof.
  cbv zeta. unfold dispatch, buildModelsToTry.
  match goal with
  | |- context [prioritizeNonRateLimited now ?c rateLimitedModels] =>
      set (candidates := c);
      pose proof (prioritizeNonRateLimited_partition now candidates rateLimitedModels)
        as Hpart;
      destruct (prioritizeNonRateLimited now candidates rateLimitedModels)
        as [models marks0]
  end.
  cbn [fst] in Hpart.
  assert (Hperm : models ≡ₚ candidates).
  { rewrite Hpart.
    apply (filter_partition_Permutation
             (λ m, fst (isRateLimited now m rateLimitedModels))). }
  match goal with
  | |- context [attemptLoop _ _ _ _ _ ?st] =>
      destruct (attemptLoop_prefix apiKeys fetch clock models 0 st) as [n Hn]
  end.
  rewrite Hn. cbn [tried app]. split.
  - rewrite length_take. etransitivity; [apply Nat.le_min_r|].
    rewrite Hperm. unfold candidates.
    etransitivity; [apply length_filter|].
    rewrite length_take. apply Nat.le_min_l.
  - intros m Hm.
    assert (Hc : m ∈ candidates).
    { rewrite <- Hperm. apply list_elem_of_lookup in Hm as [j Hj].
      apply lookup_take_Some in Hj as [Hj _]. apply list_elem_of_lookup. eauto. }
    apply list_elem_of_filter in Hc as [Hacc _]. exact Hacc.
Qed.

(** X9.  With no model to try (no model named in the body, or no
    reachable candidate among the first of the chain) nothing is sent
    upstream, and the client gets status 502 with the message "All
    models in fallback chain failed"; on a stream whose headers are
    sent, status 200 with the same message in the error frame. *)
Theorem no_model_to_try
    (apiKeys : ApiKeysConfig) (config : RouterConfig TierTable)
    (routingDecision : option RoutingDecision) (modelId : string)
    (bodyLength maxTokens now : Z) (rateLimitedModels : gmap string Z)
    (fetch : nat → string → upstream_reply) (clock : nat → Z) :
  fst (buildModelsToTry getFallbackChainFiltered getModelContextWindow
         apiKeys config routingDecision modelId bodyLength maxTokens now
         rateLimitedModels) = [] →
  let after := dispatch getFallbackChainFiltered getModelContextWindow
                 apiKeys config routingDecision modelId bodyLength maxTokens now
                 rateLimitedModels fetch clock in
  tried after = [] ∧ upstream after = None
  ∧ allModelsFailed false after
    = {| reply_status := 502; reply_sse := false;
         reply_message := lit "All models in fallback chain failed";
         reply_error_status := 502 |}
  ∧ allModelsFailed true after
    = {| reply_status := 200; reply_sse := true;
         reply_message := lit "All models in fallback chain failed";
         reply_error_status := 502 |}.
Proof.
  intros Hempty. cbv zeta. unfold dispatch.
  destruct (buildModelsToTry _ _ _ _ _ _ _ _ _ _) as [models marks0].
  cbn [fst] in Hempty. subst models. cbn. repeat split.
Qed.

(** X10.  A request that names a model whose provider has no usable
    key fails with the message that names the provider and error status
    401: a request that is not streamed is answered with HTTP status
    401, and a streamed one, whose headers are sent with status 200, is
    answered with that message and status 401 in an error frame
    followed by [DONE]; the reply of the upstream plays no part, none
    being asked. *)
Theorem explicit_model_without_key
    (apiKeys : ApiKeysConfig) (config : RouterConfig TierTable)
    (modelId : string) (bodyLength maxTokens now : Z)
    (rateLimitedModels : gmap string Z)
    (fetch : nat → string → upstream_reply) (clock : nat → Z) :
  modelId ≠ ""%string →
  resolveProviderAccess apiKeys modelId = None →
  let after := dispatch getFallbackChainFiltered getModelContextWindow
                 apiKeys config None modelId bodyLength maxTokens now
                 rateLimitedModels fetch clock in
  upstream after = None
  ∧ marks after = rateLimitedModels
  ∧ allModelsFailed false after
    = {| reply_status := 401; reply_sse := false;
         reply_message := lit "No API key configured for provider: "
                          ++ lit (getProviderFromModel modelId)
                          ++ lit " (and no OpenRouter fallback)";
         reply_error_status := 401 |}
  ∧ allModelsFailed true after
    = {| reply_status := 200; reply_sse := true;
         reply_message := lit "No API key configured for provider: "
                          ++ lit (getProviderFromModel modelId)
                          ++ lit " (and no OpenRouter fallback)";
         reply_error_status := 401 |}.
Proof.
  intros Hne Hnone. cbv zeta. unfold dispatch, buildModelsToTry.
  assert (Hb : String.eqb modelId "" = false) by (apply String.eqb_neq, Hne).
  rewrite Hb. rewrite attemptLoop_cons. cbv zeta.
  unfold tryModelRequest. rewrite Hnone. cbn -[lit getProviderFromModel].
  repeat split.
Qed.

End AttemptBounds.

Lemma no_model_to_try_witness :
  let apiKeys := {| providers := ∅ |} in
  let config := {| tiers := tt; agenticTiers := None |} in
  let chain := λ (_ : Tier) (_ : unit) (_ : Z) (_ : string → option Z), @nil string in
  let fetch := λ (_ : nat) (_ : string), Reply 200 (lit "{}") in
  fst (buildModelsToTry chain (λ _, None) apiKeys config None "" 0 4096 0 ∅) = []
  ∧ tried (dispatch chain (λ _, None) apiKeys config None "" 0 4096 0 ∅ fetch (λ _, 0))
    = [].
Proof.
  cbv zeta. split; [reflexivity|].
  apply (no_model_to_try unit). reflexivity.
Defined.

Lemma explicit_model_without_key_witness :
  let apiKeys :=
    {| providers :=
         {[ "anthropic"%string := {| apiKey := "sk-ant-test"; baseUrl := None |} ]} |} in
  let config := {| tiers := tt; agenticTiers := None |} in
  let chain := λ (_ : Tier) (_ : unit) (_ : Z) (_ : string → option Z), @nil string in
  let fetch := λ (_ : nat) (_ : string), Reply 200 (lit "{}") in
  let after := dispatch chain (λ _, None) apiKeys config None "anthropic/claude-sonnet-4"
                 120 4096 0 ∅ fetch (λ _, 0) in
  ("anthropic/claude-sonnet-4" ≠ "")%string
  ∧ resolveProviderAccess apiKeys "anthropic/claude-sonnet-4" = None
  ∧ upstream after = None
  ∧ reply_status (allModelsFailed false after) = 401
  ∧ reply_status (allModelsFailed true after) = 200
  ∧ reply_error_status (allModelsFailed true after) = 401.
Proof.
  cbv zeta. split; [discriminate|].
  match goal with
  | |- resolveProviderAccess ?k ?m = None ∧ _ =>
      assert (Hn : resolveProviderAccess k m = None) by (vm_compute; reflexivity);
      split; [exact Hn|]
  end.
  match goal with
  | |- upstream (dispatch ?c ?w ?k ?cfg None ?m ?bl ?mt ?now ?marks ?f ?clk) = None ∧ _ =>
      destruct (explicit_model_without_key unit c w k cfg m bl mt now marks f clk
                  ltac:(discriminate) Hn) as (Hup & _ & Hplain & Hstream)
  end.
  split; [exact Hup|]. rewrite Hplain, Hstream. repeat split.
Defined.

(** ** Message normalization *)

Section NormalizationProperties.

Variable Value : Type.

Implicit Types (messages : list (ChatMessage Value)) (msg : ChatMessage Value).

Lemma valid_role_cases (r : string) :
  r ∈ VALID_ROLES ↔
  r = "system"%string ∨ r = "user"%string ∨ r = "assistant"%string
  ∨ r = "tool"%string ∨ r = "function"%string.
Proof.
  unfold VALID_ROLES. rewrite elem_of_list_to_set, !elem_of_cons, elem_of_nil. tauto.
Qed.

Lemma isValidRole_spec (r : role_value) :
  isValidRole r = true ↔ ∃ x, x ∈ VALID_ROLES ∧ r = RoleString x.
Proof.
  destruct r as [x|key]; cbn.
  - rewrite bool_decide_eq_true. split; [eauto | intros (y & Hy & [= ->]); exact Hy].
  - split; [discriminate | intros (y & _ & [=])].
Qed.

Lemma ROLE_MAPPINGS_own (r v : string) :
  own_properties ROLE_MAPPINGS !! r = Some v →
  (r = "developer" ∧ v = "system")%string ∨ (r = "model" ∧ v = "assistant")%string.
Proof.
  unfold ROLE_MAPPINGS. cbn [own_properties]. intros Hm.
  apply elem_of_list_to_map_2 in Hm.
  rewrite !elem_of_cons, elem_of_nil in Hm.
  destruct Hm as [[= -> ->] | [[= -> ->] | []]]; auto.
Qed.

(** The role [normalizeRole] gives, by the role it finds. *)
Lemma normalizeRole_role msg :
  let out := fst (normalizeRole Value msg) in
  content out = content msg
  ∧ match role msg with
    | RoleString r =>
        if bool_decide (r ∈ VALID_ROLES) then out = msg
        else if String.eqb r "developer" then role out = "system"%string
        else if String.eqb r "model" then role out = "assistant"%string
        else if bool_decide (r ∈ OBJECT_PROTOTYPE_KEYS) then role out = RoleInherited r
        else role out = "user"%string
    | RoleInherited _ => role out = "user"%string
    end.
Proof.
  cbv zeta. unfold normalizeRole. destruct msg as [[r|key] c]; cbn [role isValidRole].
  - case_bool_decide as Hv; [split; reflexivity|]. cbn [property].
    destruct (String.eqb_spec r "developer") as [-> | Hd]; [split; reflexivity|].
    destruct (String.eqb_spec r "model") as [-> | Hm]; [split; reflexivity|].
    destruct (own_properties ROLE_MAPPINGS !! r) as [v|] eqn:Hown.
    { apply ROLE_MAPPINGS_own in Hown as [[-> _] | [-> _]]; congruence. }
    case_bool_decide; split; reflexivity.
  - split; reflexivity.
Qed.

Lemma normalizeRole_cases msg :
  isValidRole (role (fst (normalizeRole Value msg))) = true
  ∨ ∃ key, key ∈ OBJECT_PROTOTYPE_KEYS ∧ role msg = RoleString key
           ∧ role (fst (normalizeRole Value msg)) = RoleInherited key.
Proof.
  destruct (normalizeRole_role msg) as [_ H]. cbv zeta in H.
  destruct (role msg) as [r|key] eqn:Hr.
  - case_bool_decide as Hv.
    { left. rewrite H, Hr. cbn. apply bool_decide_eq_true_2, Hv. }
    destruct (String.eqb r "developer"); [left; rewrite H; reflexivity|].
    destruct (String.eqb r "model"); [left; rewrite H; reflexivity|].
    case_bool_decide as Hk; [right; eauto | left; rewrite H; reflexivity].
  - left. rewrite H. reflexivity.
Qed.

Lemma normalizeRole_fixed msg :
  snd (normalizeRole Value msg) = false → fst (normalizeRole Value msg) = msg.
Proof.
  unfold normalizeRole. destruct (isValidRole (role msg)); [reflexivity|].
  destruct (property ROLE_MAPPINGS (role msg)) as [mapped|]; [|discriminate].
  destruct (role_truthy mapped); discriminate.
Qed.

Lemma normalizeRole_valid_fixed msg :
  isValidRole (role msg) = true → fst (normalizeRole Value msg) = msg.
Proof. intros Hv. unfold normalizeRole. rewrite Hv. reflexivity. Qed.

(** The list returned is the list of the mapped messages, whether a
    change was seen or not. *)
Lemma normalizeMessageRoles_map messages :
  normalizeMessageRoles messages = map (λ msg, fst (normalizeRole Value msg)) messages.
Proof.
  unfold normalizeMessageRoles. destruct messages as [|m0 rest]; [reflexivity|].
  set (messages := m0 :: rest). rewrite map_map.
  destruct (existsb snd (map (normalizeRole Value) messages)) eqn:He; [reflexivity|].
  clearbody messages. induction messages as [|m l IH]; [reflexivity|].
  cbn in He. apply orb_false_iff in He as [H1 H2].
  cbn. rewrite (normalizeRole_fixed m H1), <- (IH H2). reflexivity.
Qed.

(** Every role of the result is one of the five, or a member of
    [Object.prototype] whose name was the role. *)
Lemma normalizeMessageRoles_roles messages :
  Forall (λ out, isValidRole (role out) = true
                 ∨ ∃ msg key, msg ∈ messages ∧ key ∈ OBJECT_PROTOTYPE_KEYS
                              ∧ role msg = RoleString key ∧ role out = RoleInherited key)
         (normalizeMessageRoles messages).
Proof.
  rewrite normalizeMessageRoles_map.
  apply Forall_map, Forall_forall. intros msg Hin. cbv beta.
  destruct (normalizeRole_cases msg) as [Hv | (key & Hk & Hr & Ho)]; [left; exact Hv|].
  right. exists msg, key. auto.
Qed.

Lemma normalizeMessageRoles_plain messages :
  (∀ msg key, msg ∈ messages → key ∈ OBJECT_PROTOTYPE_KEYS → role msg ≠ RoleString key) →
  Forall (λ out, isValidRole (role out) = true) (normalizeMessageRoles messages).
Proof.
  intros Hplain. eapply Forall_impl; [apply normalizeMessageRoles_roles|].
  intros out [Hv | (msg & key & Hin & Hk & Hr & _)]; [exact Hv|].
  destruct (Hplain msg key Hin Hk Hr).
Qed.

Lemma normalizeMessageRoles_fixed messages :
  Forall (λ msg, isValidRole (role msg) = true) messages →
  normalizeMessageRoles messages = messages.
Proof.
  intros Hv. rewrite normalizeMessageRoles_map.
  induction Hv as [|msg l Hmsg _ IH]; [reflexivity|].
  cbn [map]. rewrite (normalizeRole_valid_fixed msg Hmsg), IH. reflexivity.
Qed.

(** X11.  [normalizeMessageRoles] keeps the messages, their contents
    and their order, and gives each one a role by the role it has: one
    of [system], [user], [assistant], [tool], [function] is kept with
    the message as it is, [developer] becomes [system], [model] becomes
    [assistant], and any other role becomes [user], but for a role
    that is the name of a member of [Object.prototype] ([constructor],
    [toString], [__proto__], ...): there the role becomes that member,
    which is not a string.  So every role of the result is one of the
    five and a second application changes nothing when no role of the
    request is such a name; and after a second application every role
    is one of the five in any case. *)
Theorem normalizeMessageRoles_valid messages :
  let normalized := normalizeMessageRoles messages in
  Forall2 (λ msg out,
             content out = content msg
             ∧ match role msg with
               | RoleString r =>
                   if bool_decide (r ∈ VALID_ROLES) then out = msg
                   else if String.eqb r "developer" then role out = "system"%string
                   else if String.eqb r "model" then role out = "assistant"%string
                   else if bool_decide (r ∈ OBJECT_PROTOTYPE_KEYS)
                        then role out = RoleInherited r
                   else role out = "user"%string
               | RoleInherited _ => role out = "user"%string
               end)
          messages normalized
  ∧ ((∀ msg key, msg ∈ messages → key ∈ OBJECT_PROTOTYPE_KEYS →
                 role msg ≠ RoleString key) →
     Forall (λ out, ∃ r, r ∈ VALID_ROLES ∧ role out = RoleString r) normalized
     ∧ normalizeMessageRoles normalized = normalized)
  ∧ Forall (λ out, ∃ r, r ∈ VALID_ROLES ∧ role out = RoleString r)
           (normalizeMessageRoles normalized).
Proof.
  cbv zeta. split; [|split].
  - rewrite normalizeMessageRoles_map.
    induction messages as [|msg l IH]; [constructor|].
    cbn [map]. constructor; [apply normalizeRole_role | exact IH].
  - intros Hplain. pose proof (normalizeMessageRoles_plain messages Hplain) as Hv.
    split; [|apply normalizeMessageRoles_fixed, Hv].
    eapply Forall_impl; [exact Hv|]. intros out Ho. apply isValidRole_spec, Ho.
  - eapply Forall_impl; [apply normalizeMessageRoles_plain|].
    + intros msg key Hin Hk Hr.
      pose proof (normalizeMessageRoles_roles messages) as Hroles.
      rewrite Forall_forall in Hroles.
      destruct (Hroles msg Hin) as [Hv | (m0 & k0 & _ & _ & _ & Ho)].
      * rewrite Hr in Hv. cbn in Hv. apply bool_decide_eq_true in Hv.
        apply valid_role_cases in Hv. unfold OBJECT_PROTOTYPE_KEYS in Hk.
        rewrite !elem_of_cons, elem_of_nil in Hk.
        repeat (destruct Hk as [-> | Hk]; [intuition discriminate|]). destruct Hk.
      * congruence.
    + intros out Ho. apply isValidRole_spec, Ho.
Qed.

Lemma firstNonSystem_unchanged_user messages first :
  firstNonSystem messages = Some first → role first = "user"%string →
  normalizeMessagesForGoogle messages = messages.
Proof.
  intros Hf Hu. rewrite normalizeMessagesForGoogle_cases, Hf, Hu. reflexivity.
Qed.

(** X12.  [normalizeMessagesForGoogle] keeps every message, in order,
    adds at most one, and a second application changes nothing. *)
Theorem normalizeMessagesForGoogle_idempotent messages :
  normalizeMessagesForGoogle (normalizeMessagesForGoogle messages)
  = normalizeMessagesForGoogle messages
  ∧ messages `sublist_of` normalizeMessagesForGoogle messages
  ∧ (length (normalizeMessagesForGoogle messages) ≤ S (length messages))%nat.
Proof.
  rewrite (normalizeMessagesForGoogle_cases _ messages).
  destruct (firstNonSystem messages) as [first|] eqn:Hf.
  2: { rewrite normalizeMessagesForGoogle_cases, Hf. split; [reflexivity|].
       split; [reflexivity | lia]. }
  destruct (role_is (role first) "user") eqn:Hu.
  { rewrite normalizeMessagesForGoogle_cases, Hf, Hu. split; [reflexivity|].
    split; [reflexivity | lia]. }
  destruct (role_is (role first) "assistant" || role_is (role first) "model") eqn:Ha.
  - split; [|split].
    + apply (firstNonSystem_unchanged_user _ CONTINUING); [|reflexivity].
      rewrite firstNonSystem_leading. reflexivity.
    + rewrite (leading_after _ messages) at 1.
      apply sublist_app; [reflexivity|]. apply sublist_cons. reflexivity.
    + pose proof (f_equal length (leading_after _ messages)) as Hlen.
      rewrite length_app in Hlen. rewrite length_app. cbn [length]. lia.
  - rewrite normalizeMessagesForGoogle_cases, Hf, Hu, Ha. split; [reflexivity|].
    split; [reflexivity | lia].
Qed.

Lemma firstNonSystem_elem messages first :
  firstNonSystem messages = Some first →
  first ∈ messages ∧ role first ≠ "system"%string.
Proof.
  induction messages as [|m l IH]; [discriminate|]. cbn.
  destruct (role_is_spec (role m) "system") as [Hs | Hs].
  - intros H. destruct (IH H) as [H1 H2]. split; [right; exact H1 | exact H2].
  - intros [= <-]. split; [left | exact Hs].
Qed.

(** X13.  [normalizeMessageRoles] followed by
    [normalizeMessagesForGoogle], the order in which [tryModelRequest]
    applies them for a Google model: the first message of the result
    that is not a [system] one, if there is one, has role [user],
    [tool] or [function], never [assistant], or else has as its role a
    member of [Object.prototype], which is not a string, and this only
    when a message of the request has the name of that member as its
    role; without such a message in the request the role is [user],
    [tool] or [function]. *)
Theorem google_first_role messages :
  let sent := normalizeMessagesForGoogle (normalizeMessageRoles messages) in
  match firstNonSystem sent with
  | Some first =>
      role first = "user"%string ∨ role first = "tool"%string
      ∨ role first = "function"%string
      ∨ ∃ msg key, msg ∈ messages ∧ key ∈ OBJECT_PROTOTYPE_KEYS
                   ∧ role msg = RoleString key ∧ role first = RoleInherited key
  | None =>
      Forall (λ msg, role msg = "system"%string) (normalizeMessageRoles messages)
  end
  ∧ ((∀ msg key, msg ∈ messages → key ∈ OBJECT_PROTOTYPE_KEYS →
                 role msg ≠ RoleString key) →
     ∀ first, firstNonSystem sent = Some first →
       role first = "user"%string ∨ role first = "tool"%string
       ∨ role first = "function"%string).
Proof.
  cbv zeta.
  assert (Hmain :
    match firstNonSystem (normalizeMessagesForGoogle (normalizeMessageRoles messages)) with
    | Some first =>
        role first = "user"%string ∨ role first = "tool"%string
        ∨ role first = "function"%string
        ∨ ∃ msg key, msg ∈ messages ∧ key ∈ OBJECT_PROTOTYPE_KEYS
                     ∧ role msg = RoleString key ∧ role first = RoleInherited key
    | None =>
        Forall (λ msg, role msg = "system"%string) (normalizeMessageRoles messages)
    end).
  { pose proof (normalizeMessageRoles_roles messages) as Hvalid.
    set (normalized := normalizeMessageRoles messages) in *. clearbody normalized.
    rewrite normalizeMessagesForGoogle_cases.
    destruct (firstNonSystem normalized) as [first|] eqn:Hf.
    - destruct (firstNonSystem_elem _ _ Hf) as [Hin Hns].
      rewrite Forall_forall in Hvalid. specialize (Hvalid first Hin). cbn beta in Hvalid.
      destruct Hvalid as [Hv | (msg & key & Hm & Hk & Hr & Ho)].
      + apply isValidRole_spec in Hv as (r & Hv & Hr). apply valid_role_cases in Hv.
        destruct Hv as [H | [H | [H | [H | H]]]]; subst r; rewrite Hr; [congruence |..]; cbn.
        * rewrite Hf. tauto.
        * rewrite firstNonSystem_leading. cbn. tauto.
        * rewrite Hf. tauto.
        * rewrite Hf. tauto.
      + rewrite Ho. cbn. rewrite Hf. do 3 right. exists msg, key. auto.
    - rewrite Hf.
      induction normalized as [|m l IH]; [constructor|].
      cbn in Hf. destruct (role_is_spec (role m) "system") as [Hs | Hs]; [|discriminate].
      apply Forall_cons in Hvalid as [_ Hl]. constructor; [exact Hs | exact (IH Hl Hf)]. }
  split; [exact Hmain|].
  intros Hplain first Hf. rewrite Hf in Hmain.
  destruct Hmain as [H | [H | [H | (msg & key & Hin & Hk & Hr & _)]]]; auto.
  destruct (Hplain msg key Hin Hk Hr).
Qed.

End NormalizationProperties.

Lemma normalizeMessageRoles_valid_witness :
  let messages : list (ChatMessage unit) :=
    [ {| role := "developer"; content := CString (lit "Be brief.") |};
      {| role := "bot"; content := CString (lit "hello") |};
      {| role := "model"; content := CString (lit "hi") |} ] in
  let named : list (ChatMessage unit) :=
    [ {| role := "constructor"; content := CString (lit "hello") |} ] in
  (∀ msg key, msg ∈ messages → key ∈ OBJECT_PROTOTYPE_KEYS → role msg ≠ RoleString key)
  ∧ normalizeMessageRoles messages
    = [ {| role := "system"; content := CString (lit "Be brief.") |};
        {| role := "user"; content := CString (lit "hello") |};
        {| role := "assistant"; content := CString (lit "hi") |} ]
  ∧ normalizeMessageRoles (normalizeMessageRoles messages) = normalizeMessageRoles messages
  ∧ normalizeMessageRoles named
    = [ {| role := RoleInherited "constructor"; content := CString (lit "hello") |} ]
  ∧ normalizeMessageRoles (normalizeMessageRoles named)
    = [ {| role := "user"; content := CString (lit "hello") |} ].
Proof.
  cbv zeta.
  match goal with
  | |- (∀ msg key, msg ∈ ?l → _ → _) ∧ _ =>
      assert (Hplain : ∀ msg key, msg ∈ l → key ∈ OBJECT_PROTOTYPE_KEYS →
                                  role msg ≠ RoleString key);
      [|split; [exact Hplain|];
        destruct (normalizeMessageRoles_valid unit l) as (_ & Hfixed & _);
        destruct (Hfixed Hplain) as [_ Hsame]]
  end.
  { intros msg key Hm Hk Hr. rewrite !elem_of_cons, elem_of_nil in Hm.
    unfold OBJECT_PROTOTYPE_KEYS in Hk. rewrite !elem_of_cons, elem_of_nil in Hk.
    destruct Hm as [-> | [-> | [-> | []]]]; cbn in Hr; injection Hr as <-;
      repeat (destruct Hk as [Hk | Hk]; [discriminate Hk|]); destruct Hk. }
  split; [vm_compute; reflexivity|]. split; [exact Hsame|].
  split; vm_compute; reflexivity.
Defined.

Lemma google_first_role_witness :
  let messages : list (ChatMessage unit) :=
    [ {| role := "system"; content := CString (lit "Be brief.") |};
      {| role := "model"; content := CString (lit "hi") |} ] in
  (∀ msg key, msg ∈ messages → key ∈ OBJECT_PROTOTYPE_KEYS → role msg ≠ RoleString key)
  ∧ firstNonSystem (normalizeMessagesForGoogle (normalizeMessageRoles messages))
    = Some CONTINUING
  ∧ (role (@CONTINUING unit) = "user"%string ∨ role (@CONTINUING unit) = "tool"%string
     ∨ role (@CONTINUING unit) = "function"%string).
Proof.
  cbv zeta.
  match goal with
  | |- (∀ msg key, msg ∈ ?l → _ → _) ∧ _ =>
      assert (Hplain : ∀ msg key, msg ∈ l → key ∈ OBJECT_PROTOTYPE_KEYS →
                                  role msg ≠ RoleString key);
      [|split; [exact Hplain|];
        destruct (google_first_role unit l) as [_ Hfirst];
        assert (Hf : firstNonSystem (normalizeMessagesForGoogle (normalizeMessageRoles l))
                     = Some CONTINUING) by (vm_compute; reflexivity);
        split; [exact Hf | exact (Hfirst Hplain CONTINUING Hf)]]
  end.
  intros msg key Hm Hk Hr. rewrite !elem_of_cons, elem_of_nil in Hm.
  unfold OBJECT_PROTOTYPE_KEYS in Hk. rewrite !elem_of_cons, elem_of_nil in Hk.
  destruct Hm as [-> | [-> | []]]; cbn in Hr; injection Hr as <-;
    repeat (destruct Hk as [Hk | Hk]; [discriminate Hk|]); destruct Hk.
Defined.

(** ** Stripping only deletes *)

Lemma remove_go_sublist (ic : bool) (r : regex) (s : jsstring) :
  ∀ (p : option Z) (skip : nat), remove_go ic r p skip s `sublist_of` s.
Proof.
  induction s as [|x s IH]; intros p skip; [reflexivity|].
  cbn [remove_go]. destruct skip as [|n].
  - destruct (regex_exec ic r p (x :: s)) as [rest|].
    + destruct (length (x :: s) - length rest)%nat.
      * apply sublist_skip, IH.
      * apply sublist_cons, IH.
    + apply sublist_skip, IH.
  - apply sublist_cons, IH.
Qed.

Lemma remove_all_no_lt (ic : bool) (r : regex) (s : jsstring) :
  starts_with_lt r → Forall (λ c, c ≠ 60) s → remove_all ic r s = s.
Proof.
  intros Hr Hs. unfold remove_all.
  destruct (remove_go_text ic r s Hr Hs None []) as [p' H].
  rewrite app_nil_r in H. rewrite H. cbn. apply app_nil_r.
Qed.

(** X14.  [stripThinkingTokens] only deletes: what it returns is what
    is left of the content when some of its code units are taken out,
    the others staying in order; and a content without [<] is returned
    as it is. *)
Theorem stripThinkingTokens_deletes (content : jsstring) :
  stripThinkingTokens content `sublist_of` content
  ∧ (length (stripThinkingTokens content) ≤ length content)%nat
  ∧ (Forall (λ c, c ≠ 60) content → stripThinkingTokens content = content).
Proof.
  assert (Hsub : stripThinkingTokens content `sublist_of` content).
  { unfold stripThinkingTokens. destruct content as [|x content']; [reflexivity|].
    set (content := x :: content'). unfold remove_all.
    etransitivity; [apply remove_go_sublist|].
    etransitivity; [apply remove_go_sublist|].
    etransitivity; [apply remove_go_sublist|].
    apply remove_go_sublist. }
  split; [exact Hsub|]. split; [apply sublist_length, Hsub|].
  intros Hc. unfold stripThinkingTokens. destruct content as [|x content']; [reflexivity|].
  set (content := x :: content') in *.
  rewrite (remove_all_no_lt true KIMI_BLOCK_RE content starts_KIMI_BLOCK_RE Hc).
  rewrite (remove_all_no_lt false KIMI_TOKEN_RE content starts_KIMI_TOKEN_RE Hc).
  rewrite (remove_all_no_lt true THINKING_BLOCK_RE content starts_THINKING_BLOCK_RE Hc).
  apply (remove_all_no_lt true THINKING_TAG_RE content starts_THINKING_TAG_RE Hc).
Qed.

(** ** Event streams passed through *)

Lemma split_lines_nonempty (s : jsstring) : split_lines s ≠ [].
Proof.
  induction s as [|x s IH]; [discriminate|]. cbn.
  destruct (x =? NL); [discriminate|]. destruct (split_lines s); [congruence | discriminate].
Qed.

Lemma join_split_lines (s : jsstring) : join_lines (split_lines s) = s.
Proof.
  induction s as [|x s IH]; [reflexivity|]. cbn [split_lines].
  destruct (Z.eqb_spec x NL) as [-> | Hx].
  - pose proof (split_lines_nonempty s) as Hne.
    destruct (split_lines s) as [|l ls] eqn:Hs; [congruence|].
    change (join_lines ([] :: l :: ls)) with (NL :: join_lines (l :: ls)).
    rewrite IH. reflexivity.
  - destruct (split_lines s) as [|l ls] eqn:Hs.
    + exfalso. exact (split_lines_nonempty s Hs).
    + rewrite <- IH. destruct ls; reflexivity.
Qed.

Lemma split_lines_no_NL (s : jsstring) :
  Forall (λ line, NL ∉ line) (split_lines s).
Proof.
  induction s as [|x s IH].
  - cbn. constructor; [apply not_elem_of_nil | constructor].
  - cbn [split_lines]. destruct (Z.eqb_spec x NL) as [-> | Hx].
    + constructor; [apply not_elem_of_nil | exact IH].
    + destruct (split_lines s) as [|l ls].
      * constructor; [|constructor]. rewrite elem_of_cons, elem_of_nil. intros [? | []].
        congruence.
      * apply Forall_cons in IH as [Hl Hls]. constructor; [|exact Hls].
        rewrite elem_of_cons. intros [? | ?]; [congruence | tauto].
Qed.

Lemma split_lines_line (l : jsstring) : NL ∉ l → split_lines l = [l].
Proof.
  induction l as [|x l IH]; intros Hl; [reflexivity|].
  rewrite not_elem_of_cons in Hl. destruct Hl as [Hx Hl].
  cbn [split_lines]. destruct (Z.eqb_spec x NL) as [-> | _]; [congruence|].
  rewrite (IH Hl). reflexivity.
Qed.

Lemma split_lines_app (l t : jsstring) :
  NL ∉ l → split_lines (l ++ NL :: t) = l :: split_lines t.
Proof.
  induction l as [|x l IH]; intros Hl.
  - cbn. reflexivity.
  - rewrite not_elem_of_cons in Hl. destruct Hl as [Hx Hl].
    cbn [app split_lines]. destruct (Z.eqb_spec x NL) as [-> | _]; [congruence|].
    rewrite (IH Hl). reflexivity.
Qed.

Lemma split_join_lines (ls : list jsstring) :
  ls ≠ [] → Forall (λ line, NL ∉ line) ls → split_lines (join_lines ls) = ls.
Proof.
  induction ls as [|l ls IH]; [congruence|]. intros _ Hall.
  apply Forall_cons in Hall as [Hl Hls].
  destruct ls as [|l2 ls'].
  - cbn. apply split_lines_line, Hl.
  - change (join_lines (l :: l2 :: ls')) with (l ++ NL :: join_lines (l2 :: ls')).
    rewrite (split_lines_app _ _ Hl).
    rewrite IH by (discriminate || exact Hls). reflexivity.
Qed.

Lemma startsWith_app (a b s : jsstring) :
  startsWith (a ++ b) s = true → startsWith a s = true.
Proof.
  revert s. induction a as [|x a IH]; intros s; [reflexivity|].
  destruct s as [|y s]; [discriminate|]. cbn.
  rewrite !andb_true_iff. intros [H1 H2]. split; [exact H1 | apply IH, H2].
Qed.

Section PassThroughProperties.

Variable ToolCall : Type.

(** X15.  An upstream event stream without [data: :] lines is written
    to the client as it is, code unit for code unit, followed by one
    [data: [DONE]] frame, whether or not the stream had its own. *)
Theorem stream_passed_through
    (jsonStr : jsstring) (parsed : option (UpstreamJson ToolCall)) :
  isSSE jsonStr = true →
  (∀ line, line ∈ split_lines jsonStr → startsWith (lit "data: :") line = false) →
  streamUpstream jsonStr parsed
  = [ WriteText jsonStr; WriteText (lit "data: [DONE]" ++ [NL; NL]) ].
Proof.
  intros Hsse Hlines. unfold streamUpstream. rewrite Hsse.
  rewrite filter_all.
  - rewrite join_split_lines. reflexivity.
  - intros line Hin. cbn beta.
    destruct (startsWith (lit "data: :") line) eqn:H1.
    + rewrite (Hlines line Hin) in H1. discriminate.
    + destruct (startsWith (lit "data: : ") line) eqn:H2; [|reflexivity].
      apply (startsWith_app (lit "data: :") (lit " ")) in H2. congruence.
Qed.

(** X16.  Of an upstream event stream, exactly the lines that start
    with [data: :] are dropped: the lines of what is written are the
    other lines, in order. *)
Theorem stream_filtered
    (jsonStr : jsstring) (parsed : option (UpstreamJson ToolCall)) :
  isSSE jsonStr = true →
  let kept := filter (λ line, startsWith (lit "data: :") line = false)
                     (split_lines jsonStr) in
  ∃ text,
    streamUpstream jsonStr parsed
    = [ WriteText text; WriteText (lit "data: [DONE]" ++ [NL; NL]) ]
    ∧ (kept ≠ [] → split_lines text = kept)
    ∧ (kept = [] → text = [])
    ∧ Forall (λ line, startsWith (lit "data: :") line = false) (split_lines text).
Proof.
  intros Hsse kept. unfold streamUpstream. rewrite Hsse.
  assert (Hfilter :
    filter (λ line, startsWith (lit "data: :") line
                    || startsWith (lit "data: : ") line = false) (split_lines jsonStr)
    = kept).
  { unfold kept. apply list_filter_iff. intros line.
    destruct (startsWith (lit "data: :") line) eqn:H1; [cbn; tauto|].
    destruct (startsWith (lit "data: : ") line) eqn:H2; [|cbn; tauto].
    apply (startsWith_app (lit "data: :") (lit " ")) in H2. congruence. }
  rewrite Hfilter. exists (join_lines kept). split; [reflexivity|].
  assert (Hkept : Forall (λ line, NL ∉ line) kept).
  { unfold kept. apply Forall_forall. intros line Hin.
    apply list_elem_of_filter in Hin as [_ Hin].
    pose proof (split_lines_no_NL jsonStr) as Hall.
    rewrite Forall_forall in Hall. exact (Hall line Hin). }
  split; [intros Hne; apply split_join_lines; assumption|].
  split; [intros ->; reflexivity|].
  destruct kept as [|l ls] eqn:Hk.
  - cbn. constructor; [reflexivity | constructor].
  - rewrite split_join_lines by (discriminate || exact Hkept).
    rewrite <- Hk. unfold kept. apply Forall_forall. intros line Hin.
    apply list_elem_of_filter in Hin as [Hin _]. exact Hin.
Qed.

End PassThroughProperties.

Lemma stream_passed_through_witness :
  let jsonStr := lit "data: {}" ++ [NL; NL] ++ lit "data: [DONE]" ++ [NL; NL] in
  isSSE jsonStr = true
  ∧ streamUpstream jsonStr (@None (UpstreamJson unit))
    = [ WriteText jsonStr; WriteText (lit "data: [DONE]" ++ [NL; NL]) ].
Proof.
  cbv zeta. split; [reflexivity|].
  apply stream_passed_through; [reflexivity|].
  intros line Hin. vm_compute in Hin.
  repeat (apply elem_of_cons in Hin as [-> | Hin]; [reflexivity|]).
  apply elem_of_nil in Hin. destruct Hin.
Defined.

Lemma stream_filtered_witness :
  let jsonStr := lit "data: : OPENROUTER PROCESSING" ++ [NL; NL] ++ lit "data: {}" in
  isSSE jsonStr = true
  ∧ ∃ text,
      streamUpstream jsonStr (@None (UpstreamJson unit))
      = [ WriteText text; WriteText (lit "data: [DONE]" ++ [NL; NL]) ]
      ∧ Forall (λ line, startsWith (lit "data: :") line = false) (split_lines text).
Proof.
  cbv zeta. split; [reflexivity|].
  match goal with
  | |- ∃ text, streamUpstream ?j ?p = _ ∧ _ =>
      destruct (stream_filtered unit j p eq_refl) as [text [H1 [_ [_ H2]]]]
  end.
  exists text. split; [exact H1 | exact H2].
Defined.

(** ** Tool-call ids *)

Lemma star_cls_to_end (negated : bool) (items : list citem) (s : jsstring) :
  ∀ p,
    star_cls negated items true
      (λ _ t, match t with [] => Some tt | _ => None end) p s
    = if forallb (in_class negated items) s then Some tt else None.
Proof.
  induction s as [|x s IH]; intros p; [reflexivity|].
  cbn [star_cls forallb]. rewrite IH.
  destruct (in_class negated items x); [|reflexivity].
  cbn [andb]. destruct (forallb (in_class negated items) s); reflexivity.
Qed.

Lemma valid_tool_id_iff (s : jsstring) :
  regex_test_whole false VALID_TOOL_ID_PATTERN s = true ↔
  s ≠ [] ∧ forallb (in_class false TOOL_ID_CHARS) s = true.
Proof.
  unfold regex_test_whole, VALID_TOOL_ID_PATTERN.
  rewrite rmatch_seq. destruct s as [|x s].
  - cbn. split; [discriminate | intros [H _]; congruence].
  - rewrite rmatch_cls, rmatch_star_cls, star_cls_to_end. cbn [forallb].
    destruct (in_class false TOOL_ID_CHARS x); cbn [andb].
    + destruct (forallb (in_class false TOOL_ID_CHARS) s);
        (split; [intros H; split; [discriminate | exact H] | intros [_ H]; exact H]).
    + split; [discriminate | intros [_ H]; discriminate].
Qed.

(** Replacing every code unit of a class is a [map]. *)
Lemma substitute_class (negated : bool) (items : list citem) (replacement : Z)
    (s : jsstring) :
  ∀ p,
    substitute_go false (Cls negated items) [replacement] p O s
    = map (λ c, if in_class negated items c then replacement else c) s.
Proof.
  induction s as [|x s IH]; intros p; [reflexivity|].
  cbn [substitute_go map]. unfold regex_exec. rewrite rmatch_cls.
  destruct (in_class negated items x).
  - replace (length (x :: s) - length s)%nat with 1%nat by (cbn [length]; lia).
    cbn [app]. rewrite IH. reflexivity.
  - rewrite IH. reflexivity.
Qed.

Lemma in_class_negated (items : list citem) (c : Z) :
  in_class true items c = negb (in_class false items c).
Proof. reflexivity. Qed.

Lemma replaced_valid (id : jsstring) :
  id ≠ [] →
  regex_test_whole false VALID_TOOL_ID_PATTERN
    (map (λ c, if in_class false TOOL_ID_CHARS c then c else 95) id) = true.
Proof.
  intros Hne. apply valid_tool_id_iff. split.
  - destruct id; [congruence | discriminate].
  - apply forallb_forall. intros c Hc. apply in_map_iff in Hc as [c0 [<- _]].
    destruct (in_class false TOOL_ID_CHARS c0) eqn:Hc0; [exact Hc0 | reflexivity].
Qed.

Lemma valid_not_replaced (id : jsstring) :
  regex_test_whole false VALID_TOOL_ID_PATTERN id = true →
  map (λ c, if in_class false TOOL_ID_CHARS c then c else 95) id = id.
Proof.
  intros Hv. apply valid_tool_id_iff in Hv as [_ Hv].
  rewrite forallb_forall in Hv.
  rewrite <- (map_id id) at 2. apply map_ext_in. intros c Hc.
  rewrite (Hv c Hc). reflexivity.
Qed.

Lemma sanitizeToolId_map (id : jsstring) :
  sanitizeToolId (Some id)
  = Some (map (λ c, if in_class false TOOL_ID_CHARS c then c else 95) id).
Proof.
  unfold sanitizeToolId. destruct id as [|x id']; [reflexivity|].
  destruct (regex_test_whole false VALID_TOOL_ID_PATTERN (x :: id')) eqn:Hv.
  - rewrite (valid_not_replaced _ Hv). reflexivity.
  - unfold substitute_all. change (lit "_") with [95].
    rewrite substitute_class. f_equal. apply map_ext. intros c.
    rewrite in_class_negated.
    destruct (in_class false TOOL_ID_CHARS c); reflexivity.
Qed.

Lemma sanitizeToolId_idempotent (id : option jsstring) :
  sanitizeToolId (sanitizeToolId id) = sanitizeToolId id.
Proof.
  destruct id as [[|x id']|]; try reflexivity.
  rewrite sanitizeToolId_map.
  pose proof (replaced_valid (x :: id') ltac:(discriminate)) as Hv.
  unfold sanitizeToolId at 1.
  destruct (map _ (x :: id')) as [|y out'] eqn:Hm; [discriminate Hm|].
  rewrite Hv. reflexivity.
Qed.

(** X17.  [sanitizeToolId] turns every non-empty id into one that
    passes [VALID_TOOL_ID_PATTERN], of the same length, with the code
    units that were valid left in place and each other one replaced by
    [_]; an id that passes the pattern is returned as it is, so a
    second application changes nothing. *)
Theorem sanitizeToolId_valid (id : jsstring) :
  id ≠ [] →
  ∃ out,
    sanitizeToolId (Some id) = Some out
    ∧ regex_test_whole false VALID_TOOL_ID_PATTERN out = true
    ∧ out = map (λ c, if in_class false TOOL_ID_CHARS c then c else 95) id
    ∧ length out = length id
    ∧ (regex_test_whole false VALID_TOOL_ID_PATTERN id = true → out = id)
    ∧ sanitizeToolId (Some out) = Some out.
Proof.
  intros Hne. eexists. split; [apply sanitizeToolId_map|].
  split; [exact (replaced_valid id Hne)|]. split; [reflexivity|].
  split; [apply length_map|]. split; [apply valid_not_replaced|].
  rewrite <- sanitizeToolId_map. apply sanitizeToolId_idempotent.
Qed.

Lemma sanitizeToolId_valid_witness :
  lit "call:1/a b" ≠ []
  ∧ sanitizeToolId (Some (lit "call:1/a b")) = Some (lit "call_1_a_b").
Proof.
  split; [discriminate|].
  destruct (sanitizeToolId_valid (lit "call:1/a b") ltac:(discriminate))
    as (out & Hout & _ & Hmap & _).
  rewrite Hout, Hmap. vm_compute. reflexivity.
Defined.

(** ** Reasoning content of a thinking request *)

Section ThinkingProperties.

Variable Value : Type.
Variable ToolCall : Type.

Implicit Types (messages : list (ExtendedChatMessage Value ToolCall))
               (msg : ExtendedChatMessage Value ToolCall).

Lemma addReasoning_fixed msg : snd (addReasoning msg) = false → fst (addReasoning msg) = msg.
Proof. unfold addReasoning. destruct (_ && _ && _); [discriminate | reflexivity]. Qed.

Lemma normalizeMessagesForThinking_map messages :
  normalizeMessagesForThinking messages = map (λ msg, fst (addReasoning msg)) messages.
Proof.
  unfold normalizeMessagesForThinking. destruct messages as [|m0 rest]; [reflexivity|].
  set (messages := m0 :: rest). rewrite map_map.
  destruct (existsb snd (map addReasoning messages)) eqn:He; [reflexivity|].
  clearbody messages. induction messages as [|m l IH]; [reflexivity|].
  cbn in He. apply orb_false_iff in He as [H1 H2].
  cbn. rewrite (addReasoning_fixed m H1), <- (IH H2). reflexivity.
Qed.

(** X18.  After [normalizeMessagesForThinking] every [assistant] message
    that carries tool calls has a [reasoning_content]; a message that
    had one, or that is not such a message, is unchanged; messages,
    roles, contents and tool calls are the same and in the same order;
    a second application changes nothing. *)
Theorem normalizeMessagesForThinking_reasoning messages :
  let normalized := normalizeMessagesForThinking messages in
  Forall (λ msg, role (ext_message msg) = "assistant"%string →
                 hasToolCalls msg = true → ext_reasoning_content msg ≠ None)
         normalized
  ∧ Forall2 (λ msg out,
               ext_message out = ext_message msg
               ∧ ext_tool_calls out = ext_tool_calls msg
               ∧ (ext_reasoning_content out = ext_reasoning_content msg
                  ∨ (ext_reasoning_content msg = None
                     ∧ ext_reasoning_content out = Some (ReasoningText [])
                     ∧ role (ext_message msg) = "assistant"%string
                     ∧ hasToolCalls msg = true)))
            messages normalized
  ∧ normalizeMessagesForThinking normalized = normalized.
Proof.
  cbv zeta. rewrite !normalizeMessagesForThinking_map. split; [|split].
  - apply Forall_map, Forall_forall. intros msg _. unfold addReasoning.
    destruct (role_is_spec (role (ext_message msg)) "assistant") as [Hr | Hr];
      destruct (hasToolCalls msg) eqn:Ht;
      destruct (ext_reasoning_content msg) eqn:Hc;
      cbn [andb fst ext_reasoning_content]; intros; congruence.
  - induction messages as [|m l IH]; [constructor|]. cbn [map]. constructor; [|exact IH].
    unfold addReasoning.
    destruct (role_is_spec (role (ext_message m)) "assistant") as [Hr | Hr];
      destruct (hasToolCalls m) eqn:Ht;
      destruct (ext_reasoning_content m) eqn:Hc; cbn; auto 10.
  - rewrite map_map. apply map_ext. intros msg. unfold addReasoning.
    destruct (role_is (role (ext_message msg)) "assistant") eqn:Hr;
      destruct (hasToolCalls msg) eqn:Ht;
      destruct (ext_reasoning_content msg) eqn:Hc;
      cbn [andb fst ext_reasoning_content ext_message];
      rewrite ?Hr, ?Ht, ?Hc; cbn [andb fst]; try reflexivity.
    rewrite andb_false_r. reflexivity.
Qed.

End ThinkingProperties.

(** ** The port *)

Lemma digits_value_nonneg (ds : jsstring) :
  Forall (λ d, is_digit d = true) ds →
  ∀ acc, 0 ≤ acc → 0 ≤ fold_left (λ a d, a * 10 + (d - 48)) ds acc.
Proof.
  induction 1 as [|d ds Hd _ IH]; intros acc Hacc; [exact Hacc|].
  cbn. apply IH. unfold is_digit in Hd. apply andb_true_iff in Hd as [H1 H2].
  apply Z.leb_le in H1, H2. lia.
Qed.

Lemma leading_digits_app (ds rest : jsstring) :
  Forall (λ d, is_digit d = true) ds → head_is is_digit rest = false →
  leading_digits (ds ++ rest) = ds.
Proof.
  intros Hds Hrest. induction Hds as [|d ds Hd _ IH].
  - destruct rest as [|x rest]; [reflexivity|]. cbn in Hrest |- *.
    rewrite Hrest. reflexivity.
  - cbn. rewrite Hd, IH. reflexivity.
Qed.

Lemma digit_cases (d : Z) :
  is_digit d = true →
  d = 48 ∨ d = 49 ∨ d = 50 ∨ d = 51 ∨ d = 52 ∨ d = 53 ∨ d = 54 ∨ d = 55 ∨ d = 56 ∨ d = 57.
Proof.
  unfold is_digit. intros H. apply andb_true_iff in H as [H1 H2].
  apply Z.leb_le in H1, H2. lia.
Qed.

Lemma digit_plain (d : Z) :
  is_digit d = true → is_space d = false ∧ (d =? 45) = false ∧ (d =? 43) = false.
Proof.
  intros H. apply digit_cases in H.
  repeat (destruct H as [-> | H]); try subst d; repeat split.
Qed.

Lemma skip_spaces_app (ws s : jsstring) :
  Forall (λ c, is_space c = true) ws → head_is is_space s = false →
  skip_spaces (ws ++ s) = s.
Proof.
  intros Hws Hs. induction Hws as [|c ws Hc _ IH].
  - destruct s as [|x s]; [reflexivity|]. cbn in Hs |- *. rewrite Hs. reflexivity.
  - cbn [app skip_spaces]. rewrite Hc. exact IH.
Qed.

(** What [parseInt] makes of the parts of a value. *)
Lemma parseInt10_parts (value ws sign ds rest : jsstring) :
  port_parts value ws sign ds rest →
  parseInt10 value
  = match ds with
    | [] => None
    | _ :: _ => Some ((if bool_decide (sign = [45]) then -1 else 1) * digits_value ds)
    end.
Proof.
  intros (-> & Hws & Hsign & Hds & Hrest & Hplain).
  pose proof (leading_digits_app ds rest Hds Hrest) as Hlead.
  assert (Hhead : head_is is_space (sign ++ ds ++ rest) = false).
  { destruct Hsign as [-> | [-> | ->]]; [|reflexivity..]. cbn [app].
    destruct ds as [|d ds']; [apply (Hplain eq_refl eq_refl)|].
    apply Forall_cons in Hds as [Hd _]. apply (digit_plain d Hd). }
  unfold parseInt10. rewrite (skip_spaces_app ws _ Hws Hhead).
  destruct Hsign as [-> | [-> | ->]].
  - cbn [app]. destruct ds as [|d ds'].
    + cbn [app] in Hlead |- *. destruct (Hplain eq_refl eq_refl) as [_ Hs].
      destruct rest as [|x rest]; [reflexivity|]. cbn [head_is] in Hs.
      unfold is_sign in Hs. apply orb_false_iff in Hs as [H43 H45].
      rewrite H45, H43, Hlead. reflexivity.
    + pose proof Hds as Hall. apply Forall_cons in Hds as [Hd _].
      destruct (digit_plain d Hd) as (_ & H45 & H43).
      cbn [app]. rewrite H45, H43. cbn [app] in Hlead. rewrite Hlead.
      rewrite bool_decide_eq_false_2 by discriminate. reflexivity.
  - cbn [app]. change (43 =? 45) with false. change (43 =? 43) with true. cbv iota.
    rewrite Hlead. destruct ds; [reflexivity|].
    rewrite bool_decide_eq_false_2 by discriminate. reflexivity.
  - cbn [app]. change (45 =? 45) with true. cbv iota.
    rewrite Hlead. destruct ds; [reflexivity|].
    rewrite bool_decide_eq_true_2 by reflexivity. reflexivity.
Qed.

Lemma spaces_split (s : jsstring) :
  ∃ ws s', s = ws ++ s' ∧ Forall (λ c, is_space c = true) ws
           ∧ head_is is_space s' = false.
Proof.
  induction s as [|x s (ws & s' & -> & Hws & Hs')].
  - exists [], []. repeat split. constructor.
  - destruct (is_space x) eqn:Hx.
    + exists (x :: ws), s'. split; [reflexivity|]. split; [constructor; assumption | exact Hs'].
    + exists [], (x :: ws ++ s'). split; [reflexivity|]. split; [constructor | exact Hx].
Qed.

Lemma digits_split (s : jsstring) :
  ∃ ds rest, s = ds ++ rest ∧ Forall (λ d, is_digit d = true) ds
             ∧ head_is is_digit rest = false.
Proof.
  induction s as [|x s (ds & rest & -> & Hds & Hrest)].
  - exists [], []. repeat split. constructor.
  - destruct (is_digit x) eqn:Hx.
    + exists (x :: ds), rest. split; [reflexivity|].
      split; [constructor; assumption | exact Hrest].
    + exists [], (x :: ds ++ rest). split; [reflexivity|]. split; [constructor | exact Hx].
Qed.

(** Every value has its parts. *)
Lemma port_parts_exist (value : jsstring) :
  ∃ ws sign ds rest, port_parts value ws sign ds rest.
Proof.
  destruct (spaces_split value) as (ws & s' & -> & Hws & Hs').
  destruct s' as [|x t].
  { exists ws, [], [], []. unfold port_parts. repeat split; auto. }
  cbn [head_is] in Hs'.
  destruct (Z.eqb_spec x 43) as [-> | H43]; [|destruct (Z.eqb_spec x 45) as [-> | H45]].
  - destruct (digits_split t) as (ds & rest & -> & Hds & Hrest).
    exists ws, [43], ds, rest. unfold port_parts.
    repeat split; auto; discriminate.
  - destruct (digits_split t) as (ds & rest & -> & Hds & Hrest).
    exists ws, [45], ds, rest. unfold port_parts.
    repeat split; auto; discriminate.
  - destruct (digits_split (x :: t)) as (ds & rest & Heq & Hds & Hrest).
    exists ws, [], ds, rest. unfold port_parts. cbn [app]. rewrite <- Heq.
    split; [reflexivity|]. split; [exact Hws|]. split; [auto|].
    split; [exact Hds|]. split; [exact Hrest|].
    intros _ ->. cbn [app] in Heq. subst rest. cbn [head_is]. split; [exact Hs'|].
    unfold is_sign. apply orb_false_iff. split; apply Z.eqb_neq; assumption.
Qed.

(** X19.  [getProxyPort] always returns a port between 1 and 65535.  It
    is the default 8402 when the variable is unset or empty.  Otherwise
    the value is read as [parseInt] reads it, as white space, at most
    one sign, the longest run of digits and a rest that is ignored, and
    the port is the number the digits write when there are digits, the
    sign is not [-] and the number is between 1 and 65535; it is the
    default 8402 when there is no digit (not a number), when the sign
    is [-], and when the number is 0 or above 65535. *)
Theorem getProxyPort_range (envPort : option jsstring) :
  1 ≤ getProxyPort envPort ≤ 65535
  ∧ getProxyPort None = 8402 ∧ getProxyPort (Some []) = 8402
  ∧ (∀ value, envPort = Some value → ∃ ws sign ds rest, port_parts value ws sign ds rest)
  ∧ ∀ value ws sign ds rest,
      envPort = Some value → port_parts value ws sign ds rest →
      (ds = [] → getProxyPort envPort = 8402)
      ∧ (sign = [45] → getProxyPort envPort = 8402)
      ∧ (ds ≠ [] → sign ≠ [45] → 0 < digits_value ds < 65536 →
         getProxyPort envPort = digits_value ds)
      ∧ (digits_value ds = 0 ∨ 65536 ≤ digits_value ds → getProxyPort envPort = 8402).
Proof.
  split; [|split; [reflexivity | split; [reflexivity | split]]].
  - unfold getProxyPort, DEFAULT_PORT. destruct envPort as [[|x t]|]; try lia.
    destruct (parseInt10 (x :: t)) as [parsed|]; [|lia].
    destruct (Z.ltb_spec 0 parsed), (Z.ltb_spec parsed 65536); cbn; lia.
  - intros value _. apply port_parts_exist.
  - intros value ws sign ds rest -> Hparts.
    pose proof (parseInt10_parts value ws sign ds rest Hparts) as Hparse.
    assert (Hnonneg : 0 ≤ digits_value ds).
    { destruct Hparts as (_ & _ & _ & Hds & _).
      apply (digits_value_nonneg ds Hds 0). lia. }
    unfold getProxyPort, DEFAULT_PORT.
    destruct value as [|x t].
    { destruct ds as [|d ds'].
      - split; [reflexivity|]. split; [reflexivity|].
        split; [congruence | reflexivity].
      - destruct Hparts as (Heq & _). symmetry in Heq.
        apply app_eq_nil in Heq as [_ Heq]. apply app_eq_nil in Heq as [_ Heq].
        discriminate Heq. }
    rewrite Hparse. destruct ds as [|d ds'].
    { split; [reflexivity|]. split; [reflexivity|].
      split; [congruence | reflexivity]. }
    set (v := digits_value (d :: ds')) in *.
    split; [discriminate|]. split; [|split].
    + intros ->. rewrite bool_decide_eq_true_2 by reflexivity.
      destruct (Z.ltb_spec 0 (-1 * v)); [lia | reflexivity].
    + intros _ Hsign [H1 H2]. rewrite bool_decide_eq_false_2 by exact Hsign.
      rewrite Z.mul_1_l. apply Z.ltb_lt in H1, H2. rewrite H1, H2. reflexivity.
    + intros Hv. destruct (bool_decide (sign = [45])).
      * destruct (Z.ltb_spec 0 (-1 * v)); [lia | reflexivity].
      * rewrite Z.mul_1_l.
        destruct (Z.ltb_spec 0 v), (Z.ltb_spec v 65536); cbn; try reflexivity; lia.
Qed.

Lemma getProxyPort_range_witness :
  port_parts (lit " +8080abc") (lit " ") (lit "+") (lit "8080") (lit "abc")
  ∧ getProxyPort (Some (lit " +8080abc")) = 8080
  ∧ port_parts (lit "abc") [] [] [] (lit "abc")
  ∧ getProxyPort (Some (lit "abc")) = 8402
  ∧ port_parts (lit "-80") [] (lit "-") (lit "80") []
  ∧ getProxyPort (Some (lit "-80")) = 8402.
Proof.
  assert (H1 : port_parts (lit " +8080abc") (lit " ") (lit "+") (lit "8080") (lit "abc")).
  { unfold port_parts. split; [reflexivity|]. split; [repeat constructor|].
    split; [right; left; reflexivity|]. split; [repeat constructor|].
    split; [reflexivity | discriminate]. }
  assert (H2 : port_parts (lit "abc") [] [] [] (lit "abc")).
  { unfold port_parts. split; [reflexivity|]. split; [constructor|].
    split; [left; reflexivity|]. split; [constructor|].
    split; [reflexivity|]. intros _ _. split; reflexivity. }
  assert (H3 : port_parts (lit "-80") [] (lit "-") (lit "80") []).
  { unfold port_parts. split; [reflexivity|]. split; [constructor|].
    split; [right; right; reflexivity|]. split; [repeat constructor|].
    split; [reflexivity | discriminate]. }
  destruct (getProxyPort_range (Some (lit " +8080abc"))) as (_ & _ & _ & _ & Hall1).
  destruct (Hall1 _ _ _ _ _ eq_refl H1) as (_ & _ & Hvalue & _).
  destruct (getProxyPort_range (Some (lit "abc"))) as (_ & _ & _ & _ & Hall2).
  destruct (Hall2 _ _ _ _ _ eq_refl H2) as (Hnan & _).
  destruct (getProxyPort_range (Some (lit "-80"))) as (_ & _ & _ & _ & Hall3).
  destruct (Hall3 _ _ _ _ _ eq_refl H3) as (_ & Hminus & _).
  split; [exact H1|]. split.
  { rewrite Hvalue; [reflexivity | discriminate | discriminate |].
    vm_compute. split; reflexivity. }
  split; [exact H2|]. split; [exact (Hnan eq_refl)|].
  split; [exact H3 | exact (Hminus eq_refl)].
Defined.

(** ** The upstream request *)

Lemma prefix_empty (s : string) : String.prefix "" s = true.
Proof. destruct s; reflexivity. Qed.

Lemma index_slash_cons (c : ascii) (s : string) :
  String.index 0 "/" (String c s) =
  if Ascii.eqb c "/" then Some 0%nat else S <$> String.index 0 "/" s.
Proof.
  cbn [String.index String.prefix].
  destruct (Ascii.eqb_spec c "/") as [-> | Hne].
  - destruct (ascii_dec "/" "/") as [_ | Hn]; [|congruence].
    rewrite prefix_empty. reflexivity.
  - destruct (ascii_dec "/" c) as [He | _]; [congruence|].
    destruct (String.index 0 "/" s); reflexivity.
Qed.

Lemma str_split_nonempty (sep : ascii) (s : string) : str_split sep s ≠ [].
Proof.
  destruct s as [|c s]; cbn; [discriminate|].
  destruct (Ascii.eqb c sep); [discriminate|].
  destruct (str_split sep s); discriminate.
Qed.

Lemma str_join_cons (sep x y : string) (l : list string) :
  str_join sep (x :: y :: l) = (x +:+ sep +:+ str_join sep (y :: l))%string.
Proof. reflexivity. Qed.

Lemma str_join_split (s : string) : str_join "/" (str_split "/" s) = s.
Proof.
  induction s as [|c s IH]; [reflexivity|].
  cbn [str_split]. destruct (Ascii.eqb_spec c "/") as [-> | Hne].
  - pose proof (str_split_nonempty "/" s) as Hn.
    destruct (str_split "/" s) as [|h t]; [congruence|].
    rewrite str_join_cons, IH. reflexivity.
  - pose proof (str_split_nonempty "/" s) as Hn.
    destruct (str_split "/" s) as [|h t]; [congruence|].
    destruct t as [|y t].
    + cbn in IH |- *. rewrite IH. reflexivity.
    + rewrite str_join_cons in IH |- *. cbn. rewrite <- IH. reflexivity.
Qed.

(** A model id with a slash is its part before the first slash, the
    slash, and the parts after it joined again. *)
Lemma split_first_slash (s : string) (n : nat) :
  String.index 0 "/" s = Some n →
  s = (String.substring 0 n s +:+ "/" +:+ str_join "/" (tail (str_split "/" s)))%string.
Proof.
  revert n. induction s as [|c s IH]; intros n; [discriminate|].
  rewrite index_slash_cons. cbn [str_split].
  destruct (Ascii.eqb_spec c "/") as [-> | Hne].
  - intros [= <-]. cbn. rewrite str_join_split. reflexivity.
  - destruct (String.index 0 "/" s) as [k|] eqn:Hk; [|discriminate].
    intros [= <-]. specialize (IH k eq_refl).
    pose proof (str_split_nonempty "/" s) as Hn.
    destruct (str_split "/" s) as [|h t]; [congruence|].
    cbn [tail] in IH |- *.
    transitivity (String c (String.substring 0 k s +:+ "/" +:+ str_join "/" t)%string);
      [f_equal; exact IH | reflexivity].
Qed.

Lemma substring_full (s : string) : String.substring 0 (String.length s) s = s.
Proof. induction s as [|c s IH]; [reflexivity|]. cbn. rewrite IH. reflexivity. Qed.

Lemma prefix_cons_inv (c : ascii) (s1 s2 : string) :
  String.prefix (String c s1) s2 = true →
  ∃ s2', s2 = String c s2' ∧ String.prefix s1 s2' = true.
Proof.
  destruct s2 as [|c' s2']; cbn [String.prefix]; [discriminate|].
  destruct (ascii_dec c c') as [<- | _]; [eauto | discriminate].
Qed.

Lemma prefix_v1_slice (path : string) :
  String.prefix "/v1" path = true → path = ("/v1" +:+ slice_from 3 path)%string.
Proof.
  intros H.
  apply prefix_cons_inv in H as (p1 & -> & H).
  apply prefix_cons_inv in H as (p2 & -> & H).
  apply prefix_cons_inv in H as (rest & -> & _).
  unfold slice_from. simpl. rewrite Nat.sub_0_r, substring_full. reflexivity.
Qed.

Lemma gateway_url_Some (config : ApiKeysConfig) :
  ∃ url, getProviderBaseUrl config "openrouter" = Some url.
Proof.
  unfold getProviderBaseUrl.
  destruct (providers config !! "openrouter"%string ≫= baseUrl) as [u|]; cbn; [eauto|].
  eexists. vm_compute. reflexivity.
Qed.

(** The two kinds of access that [resolveProviderAccess] returns. *)
Lemma resolveProviderAccess_cases
    (config : ApiKeysConfig) (modelId : string) (access : ProviderAccess) :
  resolveProviderAccess config modelId = Some access →
  ∃ key url,
    access_apiKey access = key ∧ key ≠ ""%string ∧ access_baseUrl access = Some url
    ∧ ((viaOpenRouter access = true ∧ access_provider access = "openrouter"%string
        ∧ getApiKey config "openrouter" = Some key
        ∧ getProviderBaseUrl config "openrouter" = Some url)
       ∨ (viaOpenRouter access = false
          ∧ access_provider access = getProviderFromModel modelId
          ∧ getProviderFromModel modelId ∈ OPENAI_COMPATIBLE_PROVIDERS
          ∧ getApiKey config (getProviderFromModel modelId) = Some key
          ∧ getProviderBaseUrl config (getProviderFromModel modelId) = Some url
          ∧ url ≠ ""%string)).
Proof.
  rewrite resolveProviderAccess_unfold. cbv zeta.
  unfold gatewayKeyExists, directKeyExists, speaksDialectA.
  set (p := getProviderFromModel modelId).
  match goal with
  | |- _ → ?G =>
      assert (Hgw : truthy_opt (getApiKey config "openrouter") = true →
                    Some (gatewayAccess config) = Some access → G)
  end.
  { intros Hk [= <-]. apply truthy_opt_Some in Hk as [k [Hk Hne]].
    destruct (gateway_url_Some config) as [u Hu].
    unfold gatewayAccess. cbn. rewrite Hk, Hu. cbn.
    exists k, u. auto 10. }
  destruct ((String.eqb p "anthropic" || String.eqb p "google")
            && truthy_opt (getApiKey config "openrouter")) eqn:H1.
  { apply andb_true_iff in H1 as [_ Hk]. exact (Hgw Hk). }
  destruct (truthy_opt (getApiKey config p) && truthy_opt (getProviderBaseUrl config p)
            && bool_decide (p ∈ OPENAI_COMPATIBLE_PROVIDERS)) eqn:H2.
  - apply andb_true_iff in H2 as [H2 Hc]. apply andb_true_iff in H2 as [Hk Hu].
    apply bool_decide_eq_true in Hc.
    apply truthy_opt_Some in Hk as [k [Hk Hkne]].
    apply truthy_opt_Some in Hu as [u [Hu Hune]].
    intros [= <-]. unfold directAccess. cbn. rewrite Hk, Hu. cbn.
    exists k, u. auto 10.
  - destruct (truthy_opt (getApiKey config "openrouter")) eqn:Hk; [|discriminate].
    exact (Hgw eq_refl).
Qed.

Lemma compatible_not_converted (p : string) :
  p ∈ OPENAI_COMPATIBLE_PROVIDERS →
  String.eqb p "google" = false ∧ String.eqb p "anthropic" = false
  ∧ String.index 0 "/" p = None.
Proof.
  intros H. apply compatible_cases in H.
  destruct H as [-> | [-> | [-> | [-> | ->]]]]; repeat split; reflexivity.
Qed.

(** The only two forms of an upstream target. *)
Lemma buildUpstreamUrl_cases (modelId path : string) (apiKeys : ApiKeysConfig)
    (upstream : Upstream) :
  buildUpstreamUrl modelId path apiKeys = Some upstream →
  ∃ key url,
    key ≠ ""%string
    ∧ let actualModelId :=
        if includes_slash modelId then str_join "/" (tail (str_split "/" modelId))
        else modelId in
      (upstream = {| up_url := url +:+ normalizePath url path;
                     up_provider := "openrouter"; up_apiKey := key;
                     up_actualModelId := modelId; up_viaOpenRouter := true |}
       ∧ getApiKey apiKeys "openrouter" = Some key
       ∧ getProviderBaseUrl apiKeys "openrouter" = Some url)
      ∨ (upstream = {| up_url := url +:+ normalizePath url path;
                       up_provider := getProviderFromModel modelId; up_apiKey := key;
                       up_actualModelId := actualModelId; up_viaOpenRouter := false |}
         ∧ getProviderFromModel modelId ∈ OPENAI_COMPATIBLE_PROVIDERS
         ∧ getApiKey apiKeys (getProviderFromModel modelId) = Some key
         ∧ getProviderBaseUrl apiKeys (getProviderFromModel modelId) = Some url
         ∧ url ≠ ""%string).
Proof.
  unfold buildUpstreamUrl.
  destruct (resolveProviderAccess apiKeys modelId) as [access|] eqn:Hacc; [|discriminate].
  pose proof Hacc as Hres.
  apply resolveProviderAccess_cases in Hacc
    as (key & url & Hkey & Hne & Hurl
        & [(Hvia & Hp & Hk & Hu) | (Hvia & Hp & Hc & Hk & Hu & Hune)]).
  - rewrite Hvia, Hurl, Hkey, Hp. cbn [default]. intros [= <-].
    exists key, url. split; [exact Hne|]. cbv zeta. left. auto.
  - rewrite Hvia, Hurl, Hkey, Hp. cbn [default].
    destruct (compatible_not_converted _ Hc) as (Hg & Ha & _).
    rewrite Hg, Ha. intros [= <-].
    exists key, url. split; [exact Hne|]. cbv zeta. right. auto 10.
Qed.

(** X20.  The model id sent upstream: through the gateway it is the full
    id; on direct access the provider is the OpenAI-compatible provider
    named by the id, and either the id has no slash and is sent as it
    is, or the id is the provider, a slash, and the id that is sent. *)
Theorem upstream_model_id (modelId path : string) (apiKeys : ApiKeysConfig)
    (upstream : Upstream) :
  buildUpstreamUrl modelId path apiKeys = Some upstream →
  (up_viaOpenRouter upstream = true →
   up_provider upstream = "openrouter"%string ∧ up_actualModelId upstream = modelId)
  ∧ (up_viaOpenRouter upstream = false →
     up_provider upstream = getProviderFromModel modelId
     ∧ up_provider upstream ∈ OPENAI_COMPATIBLE_PROVIDERS
     ∧ ((includes_slash modelId = false ∧ up_actualModelId upstream = modelId)
        ∨ modelId = (up_provider upstream +:+ "/" +:+ up_actualModelId upstream)%string)).
Proof.
  intros H. apply buildUpstreamUrl_cases in H as (key & url & _ & H). cbv zeta in H.
  destruct H as [(-> & _) | (-> & Hc & _)]; cbn.
  - split; [auto | discriminate].
  - split; [discriminate|]. intros _. split; [reflexivity|]. split; [exact Hc|].
    unfold includes_slash, getProviderFromModel in *.
    destruct (String.index 0 "/" modelId) as [[|n]|] eqn:Hi.
    + destruct (compatible_not_converted _ Hc) as (_ & _ & Hno). congruence.
    + right. exact (split_first_slash modelId (S n) Hi).
    + left. auto.
Qed.

Lemma upstream_model_id_witness :
  let apiKeys :=
    {| providers := {[ "deepseek"%string := {| apiKey := "sk-test"; baseUrl := None |} ]} |} in
  let upstream :=
    {| up_url := "https://api.deepseek.com/v1/chat/completions";
       up_provider := "deepseek"; up_apiKey := "sk-test";
       up_actualModelId := "deepseek-chat"; up_viaOpenRouter := false |} in
  buildUpstreamUrl "deepseek/deepseek-chat" "/v1/chat/completions" apiKeys = Some upstream
  ∧ up_provider upstream = getProviderFromModel "deepseek/deepseek-chat".
Proof.
  cbv zeta.
  match goal with
  | |- buildUpstreamUrl ?m ?p ?c = Some ?u ∧ _ =>
      assert (H : buildUpstreamUrl m p c = Some u) by (vm_compute; reflexivity);
      split; [exact H|];
      exact (proj1 (proj2 (upstream_model_id m p c u H) eq_refl))
  end.
Defined.

(** X21.  The URL that is called is always the base URL of the provider
    that is called (its configured override, else the built-in
    endpoint) followed by the request path, a leading [/v1] of the
    path being dropped when the base URL ends with [/v1], so that
    [/v1] is not doubled; the URL forms of the generate-content and
    messages dialects are never built. *)
Theorem upstream_url (modelId path : string) (apiKeys : ApiKeysConfig)
    (upstream : Upstream) :
  buildUpstreamUrl modelId path apiKeys = Some upstream →
  ∃ base,
    getProviderBaseUrl apiKeys (up_provider upstream) = Some base
    ∧ ((endsWith "/v1" base = true
        ∧ ∃ rest, path = ("/v1" +:+ rest)%string ∧ up_url upstream = (base +:+ rest)%string)
       ∨ ((endsWith "/v1" base = false ∨ String.prefix "/v1" path = false)
          ∧ up_url upstream = (base +:+ path)%string)).
Proof.
  intros H. apply buildUpstreamUrl_cases in H as (key & url & _ & H). cbv zeta in H.
  assert (Hpath : (endsWith "/v1" url = true
                   ∧ ∃ rest, path = ("/v1" +:+ rest)%string
                             ∧ (url +:+ normalizePath url path = url +:+ rest)%string)
                  ∨ ((endsWith "/v1" url = false ∨ String.prefix "/v1" path = false)
                     ∧ (url +:+ normalizePath url path = url +:+ path)%string)).
  { unfold normalizePath. destruct (endsWith "/v1" url) eqn:He; cbn [andb]; [|auto].
    destruct (String.prefix "/v1" path) eqn:Hp; [|auto].
    left. split; [reflexivity|]. exists (slice_from 3 path).
    split; [exact (prefix_v1_slice path Hp) | reflexivity]. }
  destruct H as [(-> & _ & Hu) | (-> & _ & _ & Hu & _)]; cbn; exists url; auto.
Qed.

Lemma upstream_url_witness :
  let apiKeys :=
    {| providers := {[ "openrouter"%string := {| apiKey := "or-test"; baseUrl := None |} ]} |} in
  let path := "/v1/chat/completions"%string in
  let upstream :=
    {| up_url := "https://openrouter.ai/api/v1/chat/completions";
       up_provider := "openrouter"; up_apiKey := "or-test";
       up_actualModelId := "anthropic/claude-sonnet-4"; up_viaOpenRouter := true |} in
  buildUpstreamUrl "anthropic/claude-sonnet-4" path apiKeys = Some upstream
  ∧ ∃ base,
      getProviderBaseUrl apiKeys (up_provider upstream) = Some base
      ∧ ((endsWith "/v1" base = true
          ∧ ∃ rest, path = ("/v1" +:+ rest)%string ∧ up_url upstream = (base +:+ rest)%string)
         ∨ ((endsWith "/v1" base = false ∨ String.prefix "/v1" path = false)
            ∧ up_url upstream = (base +:+ path)%string)).
Proof.
  cbv zeta.
  match goal with
  | |- buildUpstreamUrl ?m ?p ?c = Some ?u ∧ _ =>
      assert (H : buildUpstreamUrl m p c = Some u) by (vm_compute; reflexivity);
      split; [exact H|];
      exact (upstream_url m p c u H)
  end.
Defined.

Section UpstreamRequestProperties.

Variable USER_AGENT : string.

(** X22.  Every request that is sent upstream authenticates with
    [authorization: Bearer <key>], the key being the non-empty key
    configured for the provider that is called; it carries [x-title]
    exactly when it goes through the gateway; it never carries
    [x-api-key], [anthropic-version] or [x-goog-api-key], and its body
    is never converted to the messages dialect. *)
Theorem upstream_request_bearer (modelId path : string) (apiKeys : ApiKeysConfig)
    (request : UpstreamRequest) :
  upstreamRequest USER_AGENT modelId path apiKeys = Some request →
  ∃ provider key,
    getApiKey apiKeys provider = Some key ∧ key ≠ ""%string
    ∧ (provider = "openrouter"%string ∨ provider = getProviderFromModel modelId)
    ∧ req_headers request !! "authorization"%string = Some ("Bearer " +:+ key)%string
    ∧ req_headers request !! "content-type"%string = Some "application/json"%string
    ∧ req_headers request !! "user-agent"%string = Some USER_AGENT
    ∧ (req_headers request !! "x-title"%string = Some "ClawRouter"%string
       ↔ provider = "openrouter"%string)
    ∧ req_headers request !! "x-api-key"%string = None
    ∧ req_headers request !! "anthropic-version"%string = None
    ∧ req_headers request !! "x-goog-api-key"%string = None
    ∧ req_anthropicFormat request = false.
Proof.
  unfold upstreamRequest.
  destruct (buildUpstreamUrl modelId path apiKeys) as [upstream|] eqn:H; [|discriminate].
  intros [= <-]. apply buildUpstreamUrl_cases in H as (key & url & Hne & H). cbv zeta in H.
  destruct H as [(-> & Hk & _) | (-> & Hc & Hk & _)]; cbn.
  - exists "openrouter"%string, key. unfold buildProviderHeaders.
    repeat split; auto.
  - exists (getProviderFromModel modelId), key.
    destruct (compatible_not_converted _ Hc) as (Hg & Ha & _).
    unfold buildProviderHeaders. rewrite Hg, Ha.
    repeat split; auto.
    + intros Hx. vm_compute in Hx. discriminate Hx.
    + intros Heq. rewrite Heq in Hc. apply compatible_cases in Hc.
      destruct Hc as [? | [? | [? | [? | ?]]]]; discriminate.
Qed.

End UpstreamRequestProperties.

Lemma upstream_request_bearer_witness :
  let apiKeys :=
    {| providers := {[ "openai"%string := {| apiKey := "sk-test"; baseUrl := None |} ]} |} in
  ∃ request,
    upstreamRequest "clawrouter" "openai/gpt-4o" "/v1/chat/completions" apiKeys = Some request
    ∧ ∃ provider key,
        getApiKey apiKeys provider = Some key
        ∧ req_headers request !! "authorization"%string = Some ("Bearer " +:+ key)%string
        ∧ req_headers request !! "x-api-key"%string = None.
Proof.
  cbv zeta.
  match goal with
  | |- ∃ request, upstreamRequest ?ua ?m ?p ?c = Some request ∧ _ =>
      destruct (upstreamRequest ua m p c) as [r|] eqn:H;
        [|vm_compute in H; discriminate H];
      exists r; split; [reflexivity|];
      destruct (upstream_request_bearer ua m p c r H)
        as (provider & key & Hk & _ & _ & Hauth & _ & _ & _ & Hx & _);
      exists provider, key; auto
  end.
Defined.

(** ** Tool-call ids in messages *)

(** A [map] that reports changes and keeps the input when there is
    none is the [map] of the function without the flag. *)
Lemma map_flagged {A : Type} (f : A → A * bool) (g : A → A) :
  (∀ a, fst (f a) = g a) →
  (∀ a, snd (f a) = false → g a = a) →
  ∀ l, map fst (map f l) = map g l
       ∧ (existsb snd (map f l) = false → map g l = l).
Proof.
  intros Hfst Hsnd l. split.
  - rewrite map_map. apply map_ext. exact Hfst.
  - induction l as [|a l IH]; [reflexivity|].
    cbn. intros H. apply orb_false_iff in H as [Ha Hl].
    rewrite (Hsnd a Ha), (IH Hl). reflexivity.
Qed.

Lemma sanitizeToolId_not_string (id : option jsstring) :
  isStringId id = false → sanitizeToolId id = id.
Proof. destruct id as [[|x s]|]; [reflexivity | discriminate | reflexivity]. Qed.

Section ToolIdProperties.

Variable Value : Type.

Implicit Types (tc : ToolCallEntry Value) (item : block_item Value)
               (msg : ToolMessage Value) (messages : list (ToolMessage Value)).

Lemma sanitizeToolCall_clean tc :
  fst (sanitizeToolCall tc) = cleanToolCall tc
  ∧ (snd (sanitizeToolCall tc) = false → cleanToolCall tc = tc).
Proof.
  destruct tc as [id rest]. unfold sanitizeToolCall, cleanToolCall. cbn [tc_id tc_rest].
  destruct (isStringId id) eqn:Hs.
  - destruct (bool_decide_reflect (sanitizeToolId id ≠ id)) as [Hne | He]; cbn.
    + split; [reflexivity | discriminate].
    + apply dec_stable in He. rewrite He. auto.
  - rewrite (sanitizeToolId_not_string id Hs). auto.
Qed.

Lemma sanitizeBlock_clean item :
  fst (sanitizeBlock item) = cleanBlock item
  ∧ (snd (sanitizeBlock item) = false → cleanBlock item = item).
Proof.
  destruct item as [[type id use rest] | v]; [|cbn; auto].
  unfold sanitizeBlock, cleanBlock. cbn [cb_type cb_id cb_tool_use_id cb_rest].
  destruct (bool_decide (type = Some "tool_use"%string)) eqn:Ht1;
    destruct (bool_decide (type = Some "tool_result"%string)) eqn:Ht2;
    cbn [andb].
  - apply bool_decide_eq_true in Ht1, Ht2. congruence.
  - destruct (isStringId id) eqn:Hs.
    + destruct (bool_decide_reflect (sanitizeToolId id ≠ id)) as [Hne | He]; cbn.
      * split; [reflexivity | discriminate].
      * apply dec_stable in He. rewrite He. auto.
    + cbn. rewrite (sanitizeToolId_not_string id Hs). auto.
  - destruct (isStringId use) eqn:Hs.
    + destruct (bool_decide_reflect (sanitizeToolId use ≠ use)) as [Hne | He]; cbn.
      * split; [reflexivity | discriminate].
      * apply dec_stable in He. rewrite He. auto.
    + cbn. rewrite (sanitizeToolId_not_string use Hs). auto.
  - cbn. auto.
Qed.

Lemma sanitizeMessage_clean msg :
  fst (sanitizeMessage msg) = cleanMessage msg
  ∧ (snd (sanitizeMessage msg) = false → cleanMessage msg = msg).
Proof.
  destruct msg as [calls id content rest].
  unfold sanitizeMessage, cleanMessage.
  cbn [tm_tool_calls tm_tool_call_id tm_content tm_rest].
  assert (Hcalls : ∀ l : list (ToolCallEntry Value),
            map fst (map sanitizeToolCall l) = map cleanToolCall l
            ∧ (existsb snd (map sanitizeToolCall l) = false → map cleanToolCall l = l)).
  { apply map_flagged; intros tc; apply sanitizeToolCall_clean. }
  assert (Hblocks : ∀ l : list (block_item Value),
            map fst (map sanitizeBlock l) = map cleanBlock l
            ∧ (existsb snd (map sanitizeBlock l) = false → map cleanBlock l = l)).
  { apply map_flagged; intros b; apply sanitizeBlock_clean. }
  assert (Hid : isStringId id = false ∨ bool_decide (sanitizeToolId id ≠ id) = false →
                sanitizeToolId id = id).
  { intros [Hs | Hd]; [exact (sanitizeToolId_not_string id Hs)|].
    apply bool_decide_eq_false in Hd. apply dec_stable in Hd. exact Hd. }
  destruct calls as [l|]; cbn [fmap option_fmap option_map];
    [destruct (Hcalls l) as [Hl1 Hl2]; rewrite Hl1;
     destruct (existsb snd (map sanitizeToolCall l)) eqn:Hc;
     [|rewrite (Hl2 eq_refl)]
    |];
    (destruct (isStringId id) eqn:Hs;
     [destruct (bool_decide (sanitizeToolId id ≠ id)) eqn:Hd;
      [|rewrite (Hid (or_intror eq_refl))]
     |rewrite (Hid (or_introl eq_refl))]);
    cbn [tm_tool_calls tm_tool_call_id tm_content tm_rest];
    (destruct content as [blocks | v];
     [destruct (Hblocks blocks) as [Hb1 Hb2]; rewrite Hb1; cbn [orb];
      destruct (existsb snd (map sanitizeBlock blocks)) eqn:He;
      [|rewrite ?(Hb2 eq_refl)]
     |]);
    cbn; (split; [reflexivity | first [discriminate | intros _; reflexivity]]).
Qed.

Lemma sanitizeToolIds_map messages : sanitizeToolIds messages = map cleanMessage messages.
Proof.
  unfold sanitizeToolIds. destruct messages as [|m0 l0]; [reflexivity|].
  set (messages := m0 :: l0).
  destruct (map_flagged sanitizeMessage cleanMessage
              (λ m, proj1 (sanitizeMessage_clean m))
              (λ m, proj2 (sanitizeMessage_clean m)) messages) as [H1 H2].
  destruct (existsb snd (map sanitizeMessage messages)); [exact H1|].
  symmetry. exact (H2 eq_refl).
Qed.

Lemma stringId_sanitized (id : option jsstring) :
  stringId (sanitizeToolId id)
  = map (map (λ c, if in_class false TOOL_ID_CHARS c then c else 95)) (stringId id).
Proof.
  destruct id as [[|x s]|]; try reflexivity.
  rewrite sanitizeToolId_map. reflexivity.
Qed.

Lemma messageToolIds_clean msg :
  messageToolIds (cleanMessage msg)
  = map (map (λ c, if in_class false TOOL_ID_CHARS c then c else 95)) (messageToolIds msg).
Proof.
  destruct msg as [calls id content rest]. unfold messageToolIds, cleanMessage.
  cbn [tm_tool_calls tm_tool_call_id tm_content tm_rest].
  rewrite !map_app, stringId_sanitized. f_equal; [|f_equal].
  - destruct calls as [l|]; [|reflexivity]. cbn [fmap option_fmap option_map].
    induction l as [|tc l IH]; [reflexivity|].
    cbn [map flat_map]. rewrite map_app, IH. f_equal.
    unfold cleanToolCall. cbn [tc_id]. apply stringId_sanitized.
  - destruct content as [blocks | v]; [|reflexivity].
    induction blocks as [|b l IH]; [reflexivity|].
    cbn [map flat_map]. rewrite map_app, IH. f_equal.
    destruct b as [[type bid use brest] | v]; [|reflexivity].
    unfold blockToolIds, cleanBlock. cbn [cb_type cb_id cb_tool_use_id].
    rewrite map_app.
    destruct (bool_decide (type = Some "tool_use"%string));
      destruct (bool_decide (type = Some "tool_result"%string));
      rewrite ?stringId_sanitized; reflexivity.
Qed.

Lemma stringId_nonempty (id : option jsstring) : Forall (λ s, s ≠ []) (stringId id).
Proof. destruct id as [[|x s]|]; repeat constructor. discriminate. Qed.

Lemma messageToolIds_nonempty msg : Forall (λ s, s ≠ []) (messageToolIds msg).
Proof.
  destruct msg as [calls id content rest]. unfold messageToolIds.
  cbn [tm_tool_calls tm_tool_call_id tm_content].
  rewrite !Forall_app. split; [|split].
  - destruct calls as [l|]; [|constructor].
    induction l as [|tc l IH]; [constructor|].
    cbn [flat_map]. apply Forall_app. split; [apply stringId_nonempty | exact IH].
  - apply stringId_nonempty.
  - destruct content as [blocks | v]; [|constructor].
    induction blocks as [|b l IH]; [constructor|].
    cbn [flat_map]. apply Forall_app. split; [|exact IH].
    destruct b as [block | v]; [|constructor]. unfold blockToolIds.
    apply Forall_app.
    split; destruct (bool_decide _); try constructor; apply stringId_nonempty.
Qed.

Lemma cleanMessage_idempotent msg : cleanMessage (cleanMessage msg) = cleanMessage msg.
Proof.
  destruct msg as [calls id content rest]. unfold cleanMessage.
  cbn [tm_tool_calls tm_tool_call_id tm_content tm_rest]. f_equal.
  - destruct calls as [l|]; [|reflexivity]. cbn. f_equal.
    rewrite map_map. apply map_ext. intros [tid trest]. unfold cleanToolCall. cbn.
    rewrite sanitizeToolId_idempotent. reflexivity.
  - apply sanitizeToolId_idempotent.
  - destruct content as [blocks | v]; [|reflexivity]. f_equal.
    rewrite map_map. apply map_ext. intros [[type bid use brest] | v]; [|reflexivity].
    unfold cleanBlock. cbn [cb_type cb_id cb_tool_use_id cb_rest].
    destruct (bool_decide (type = Some "tool_use"%string));
      destruct (bool_decide (type = Some "tool_result"%string));
      rewrite ?sanitizeToolId_idempotent; reflexivity.
Qed.

(** X23.  After [sanitizeToolIds] every tool id of every message (the
    ids of its tool calls, its [tool_call_id], the ids of its
    [tool_use] blocks and the [tool_use_id] of its [tool_result]
    blocks) passes [VALID_TOOL_ID_PATTERN].  The ids of a message are
    those it had, in order, each with its invalid code units replaced
    by [_], so that two occurrences of one id stay equal; the other
    fields are kept; a second application changes nothing. *)
Theorem sanitizeToolIds_valid messages :
  let sanitized := sanitizeToolIds messages in
  Forall (λ out, Forall (λ id, regex_test_whole false VALID_TOOL_ID_PATTERN id = true)
                        (messageToolIds out))
         sanitized
  ∧ Forall2 (λ msg out,
               messageToolIds out
               = map (map (λ c, if in_class false TOOL_ID_CHARS c then c else 95))
                     (messageToolIds msg)
               ∧ tm_rest out = tm_rest msg)
            messages sanitized
  ∧ sanitizeToolIds sanitized = sanitized.
Proof.
  cbv zeta. rewrite !sanitizeToolIds_map. split; [|split].
  - apply Forall_map, Forall_forall. intros msg _. cbn beta.
    rewrite messageToolIds_clean. apply Forall_map.
    eapply Forall_impl; [apply messageToolIds_nonempty|].
    intros id Hne. exact (replaced_valid id Hne).
  - induction messages as [|m l IH]; [constructor|]. cbn [map].
    constructor; [|exact IH]. split; [apply messageToolIds_clean | reflexivity].
  - rewrite map_map. apply map_ext. apply cleanMessage_idempotent.
Qed.

End ToolIdProperties.

(** ** Binding the port *)

Lemma tryListen_cases (listen : nat → listen_result) (attempt : nat) :
  (∀ i, listen i ≠ ListenError "RETRY") →
  match tryListen listen attempt with
  | Resolved => listen attempt = Listening
  | Rejected code =>
      if String.eqb code "RETRY"
      then listen attempt = ListenError "EADDRINUSE" ∧ (attempt < PORT_RETRY_ATTEMPTS)%nat
      else listen attempt = ListenError code
           ∧ (code = "EADDRINUSE"%string → (PORT_RETRY_ATTEMPTS ≤ attempt)%nat)
  end.
Proof.
  intros Hno. unfold tryListen. specialize (Hno attempt).
  destruct (listen attempt) as [|code]; [reflexivity|].
  destruct (String.eqb_spec code "EADDRINUSE") as [-> | Hne]; cbn [andb].
  - destruct (Nat.ltb_spec attempt PORT_RETRY_ATTEMPTS) as [Hlt | Hge]; cbn.
    + auto.
    + split; [reflexivity | intros _; exact Hge].
  - destruct (String.eqb_spec code "RETRY") as [-> | Hnr]; [congruence|].
    split; [reflexivity | congruence].
Qed.

Lemma bindLoop_outcome (listen : nat → listen_result) :
  (∀ i, listen i ≠ ListenError "RETRY") →
  ∀ remaining attempt,
    (attempt + remaining = S PORT_RETRY_ATTEMPTS)%nat →
    (0 < remaining)%nat →
    match bindLoop listen remaining attempt with
    | Bound k =>
        (attempt ≤ k ≤ PORT_RETRY_ATTEMPTS)%nat ∧ listen k = Listening
        ∧ ∀ j, (attempt ≤ j < k)%nat → listen j = ListenError "EADDRINUSE"
    | Throws code =>
        ∃ k, (attempt ≤ k ≤ PORT_RETRY_ATTEMPTS)%nat ∧ listen k = ListenError code
             ∧ (∀ j, (attempt ≤ j < k)%nat → listen j = ListenError "EADDRINUSE")
             ∧ (code = "EADDRINUSE"%string → k = PORT_RETRY_ATTEMPTS)
    | NotBound => False
    end.
Proof.
  intros Hno remaining. induction remaining as [|remaining IH]; intros attempt Hsum Hpos; [lia|].
  cbn [bindLoop]. pose proof (tryListen_cases listen attempt Hno) as Hcase.
  destruct (tryListen listen attempt) as [|code].
  - split; [lia|]. split; [exact Hcase|]. intros j Hj. lia.
  - destruct (String.eqb code "RETRY").
    + destruct Hcase as [Hl Hlt].
      assert (Hrem : (0 < remaining)%nat) by lia.
      specialize (IH (S attempt) ltac:(lia) Hrem).
      destruct (bindLoop listen remaining (S attempt)) as [k | c |].
      * destruct IH as (Hk & Hlk & Hbefore). split; [lia|]. split; [exact Hlk|].
        intros j Hj. destruct (Nat.eq_dec j attempt) as [-> | Hne]; [exact Hl|].
        apply Hbefore. lia.
      * destruct IH as (k & Hk & Hlk & Hbefore & Hlast). exists k.
        split; [lia|]. split; [exact Hlk|]. split; [|exact Hlast].
        intros j Hj. destruct (Nat.eq_dec j attempt) as [-> | Hne]; [exact Hl|].
        apply Hbefore. lia.
      * exact IH.
    + destruct Hcase as [Hl Hlast]. exists attempt.
      split; [lia|]. split; [exact Hl|]. split; [intros j Hj; lia|].
      intros Hc. specialize (Hlast Hc). lia.
Qed.

(** X24.  The binding loop of [startProxy] calls [listen] at most
    [PORT_RETRY_ATTEMPTS] times and never leaves without an outcome:
    either the server listens, every attempt before having failed with
    [EADDRINUSE], or the error of the last attempt made is thrown; an
    error other than [EADDRINUSE] is thrown at once, [EADDRINUSE] only
    at the fifth attempt. *)
Theorem bindPort_outcome (listen : nat → listen_result) :
  (∀ i, listen i ≠ ListenError "RETRY") →
  match bindPort listen with
  | Bound k =>
      (1 ≤ k ≤ PORT_RETRY_ATTEMPTS)%nat ∧ listen k = Listening
      ∧ ∀ j, (1 ≤ j < k)%nat → listen j = ListenError "EADDRINUSE"
  | Throws code =>
      ∃ k, (1 ≤ k ≤ PORT_RETRY_ATTEMPTS)%nat ∧ listen k = ListenError code
           ∧ (∀ j, (1 ≤ j < k)%nat → listen j = ListenError "EADDRINUSE")
           ∧ (code = "EADDRINUSE"%string → k = PORT_RETRY_ATTEMPTS)
  | NotBound => False
  end.
Proof.
  intros Hno. unfold bindPort.
  apply (bindLoop_outcome listen Hno PORT_RETRY_ATTEMPTS 1); unfold PORT_RETRY_ATTEMPTS; lia.
Qed.

Lemma bindPort_outcome_witness :
  let listen := λ i : nat, if (i <? 3)%nat then ListenError "EADDRINUSE" else Listening in
  bindPort listen = Bound 3
  ∧ listen 3%nat = Listening.
Proof.
  cbv zeta. split; [reflexivity|].
  pose proof (bindPort_outcome
                (λ i : nat, if (i <? 3)%nat then ListenError "EADDRINUSE" else Listening)) as H.
  cbv beta in H.
  assert (Hno : ∀ i : nat,
            (if (i <? 3)%nat then ListenError "EADDRINUSE" else Listening)
            ≠ ListenError "RETRY").
  { intros i. destruct (i <? 3)%nat; discriminate. }
  specialize (H Hno).
  change (bindPort (λ i : nat, if (i <? 3)%nat then ListenError "EADDRINUSE" else Listening))
    with (Bound 3) in H.
  exact (proj1 (proj2 H)).
Defined.

(** ** Loading the keys *)

Lemma setEnvKey_fold (env : string → option string) (entries : list (string * string)) :
  NoDup entries.*1 →
  ∀ (providers : gmap string ProviderConfig) (p : string),
    fold_left (setEnvKey env) entries providers !! p
    = match (list_to_map entries : gmap string string) !! p with
      | Some envVar =>
          if truthy_opt (env envVar)
          then Some {| apiKey := default ""%string (env envVar);
                       baseUrl := providers !! p ≫= baseUrl |}
          else providers !! p
      | None => providers !! p
      end.
Proof.
  induction entries as [|[q v] entries IH]; intros Hnd providers p.
  - cbn. rewrite lookup_empty. reflexivity.
  - cbn [fmap list_fmap fst] in Hnd. apply NoDup_cons in Hnd as [Hq Hnd].
    cbn [fold_left list_to_map foldr]. rewrite (IH Hnd). cbn [fst snd curry].
    destruct (decide (p = q)) as [-> | Hne].
    + rewrite lookup_insert_eq.
      rewrite (not_elem_of_list_to_map_1 (M:=gmap string) entries q Hq).
      unfold setEnvKey. destruct (truthy_opt (env v)); [|reflexivity].
      destruct (providers !! q) as [cfg|] eqn:Hp; rewrite lookup_insert_eq; reflexivity.
    + rewrite lookup_insert_ne by congruence.
      assert (Hsame : setEnvKey env providers (q, v) !! p = providers !! p).
      { unfold setEnvKey. destruct (truthy_opt (env v)); [|reflexivity].
        destruct (providers !! q); rewrite lookup_insert_ne by congruence; reflexivity. }
      rewrite Hsame. reflexivity.
Qed.

Lemma ENV_VAR_MAP_NoDup : NoDup ENV_VAR_MAP.*1.
Proof. apply NoDup_ListNoDup. vm_compute. repeat constructor; cbn; intuition discriminate. Qed.

Lemma mergePluginProvider_fold (entries : list (string * ProviderConfig)) (p : string) :
  (∀ cfg, (p, cfg) ∈ entries → apiKey cfg = ""%string) →
  ∀ providers : gmap string ProviderConfig,
    fold_left mergePluginProvider entries providers !! p = providers !! p.
Proof.
  induction entries as [|[q cfg] entries IH]; intros Hp providers; [reflexivity|].
  cbn [fold_left]. rewrite IH.
  - unfold mergePluginProvider. destruct (truthy (apiKey cfg)) eqn:Hk; [|reflexivity].
    destruct (decide (p = q)) as [-> | Hne].
    + rewrite (Hp cfg ltac:(left)) in Hk. discriminate Hk.
    + rewrite lookup_insert_ne by congruence. reflexivity.
  - intros cfg' Hin. apply Hp. right. exact Hin.
Qed.

(** X25.  Precedence of the key sources.  A non-empty environment
    variable of a provider gives the key of that provider, whatever
    the file and the plugin configuration say; it never changes the
    base URL; a provider without such a variable is as the file and
    the plugin configuration make it; and a plugin entry without a key
    is ignored, its base URL included. *)
Theorem loadApiKeys_precedence
    (fileProviders : option (gmap string ProviderConfig))
    (pluginProviders : option (list (string * ProviderConfig)))
    (env : string → option string) (provider : string) :
  let config := loadApiKeys fileProviders pluginProviders env in
  let configured := loadConfigured fileProviders pluginProviders in
  (∀ envVar key, (provider, envVar) ∈ ENV_VAR_MAP → env envVar = Some key →
                 key ≠ ""%string → getApiKey config provider = Some key)
  ∧ providers config !! provider ≫= baseUrl = configured !! provider ≫= baseUrl
  ∧ ((∀ envVar, (provider, envVar) ∈ ENV_VAR_MAP → truthy_opt (env envVar) = false) →
     providers config !! provider = configured !! provider)
  ∧ (∀ entries, pluginProviders = Some entries →
                (∀ cfg, (provider, cfg) ∈ entries → apiKey cfg = ""%string) →
                configured !! provider = default ∅ fileProviders !! provider).
Proof.
  cbv zeta. unfold loadApiKeys, getApiKey. cbn [providers].
  rewrite (setEnvKey_fold env ENV_VAR_MAP ENV_VAR_MAP_NoDup).
  split; [|split; [|split]].
  - intros envVar key Hin Henv Hne.
    rewrite (elem_of_list_to_map_1 (M:=gmap string) ENV_VAR_MAP provider envVar
               ENV_VAR_MAP_NoDup Hin).
    rewrite Henv. cbn. unfold truthy.
    destruct (String.eqb_spec key "") as [-> | _]; [congruence | reflexivity].
  - destruct ((list_to_map ENV_VAR_MAP : gmap string string) !! provider) as [envVar|];
      [|reflexivity].
    destruct (truthy_opt (env envVar)); reflexivity.
  - intros Hnone.
    destruct ((list_to_map ENV_VAR_MAP : gmap string string) !! provider) as [envVar|] eqn:Hl;
      [|reflexivity].
    apply elem_of_list_to_map_2 in Hl. rewrite (Hnone envVar Hl). reflexivity.
  - intros entries -> Hkeys. unfold loadConfigured.
    apply mergePluginProvider_fold. exact Hkeys.
Qed.

Lemma loadApiKeys_precedence_witness :
  let fileProviders : option (gmap string ProviderConfig) :=
    Some {[ "openai"%string := {| apiKey := "sk-file";
                                  baseUrl := Some "https://example.test/v1"%string |} ]} in
  let env := λ v : string, if String.eqb v "OPENAI_API_KEY" then Some "sk-env"%string else None in
  ("openai"%string, "OPENAI_API_KEY"%string) ∈ ENV_VAR_MAP
  ∧ getApiKey (loadApiKeys fileProviders None env) "openai" = Some "sk-env"%string.
Proof.
  cbv zeta.
  assert (Hin : ("openai"%string, "OPENAI_API_KEY"%string) ∈ ENV_VAR_MAP) by (left).
  split; [exact Hin|].
  refine (proj1 (loadApiKeys_precedence _ None _ "openai") "OPENAI_API_KEY"%string
                "sk-env"%string Hin eq_refl _).
  discriminate.
Defined.

(** ** Model ids of the gateway *)

Lemma addName_fold (orModels : list string) :
  ∀ (acc : gmap string string) (name r : string),
    (fold_left addName orModels acc) !! name = Some r →
    acc !! name = Some r
    ∨ (acc !! name = None
       ∧ ∃ pre post, orModels = pre ++ r :: post ∧ namePart r = Some name
                     ∧ ∀ o, o ∈ pre → namePart o ≠ Some name).
Proof.
  induction orModels as [|o l IH]; intros acc name r H; [left; exact H|].
  cbn [fold_left] in H. apply IH in H as [H | (Hnone & pre & post & -> & Hr & Hpre)].
  - unfold addName in H. destruct (namePart o) as [n|] eqn:Ho; [|left; exact H].
    destruct (acc !! n) as [x|] eqn:Hn; [left; exact H|].
    destruct (decide (n = name)) as [-> | Hne].
    + rewrite lookup_insert_eq in H. injection H as ->.
      right. split; [exact Hn|]. exists [], l. split; [reflexivity|].
      split; [exact Ho|]. intros o' Ho'. apply elem_of_nil in Ho'. destruct Ho'.
    + rewrite lookup_insert_ne in H by congruence. left. exact H.
  - assert (Hacc : acc !! name = None ∧ namePart o ≠ Some name).
    { unfold addName in Hnone. destruct (namePart o) as [n|] eqn:Ho.
      - destruct (acc !! n) as [x|] eqn:Hn.
        + split; [exact Hnone|]. intros [= ->]. congruence.
        + destruct (decide (n = name)) as [-> | Hne].
          * rewrite lookup_insert_eq in Hnone. discriminate Hnone.
          * rewrite lookup_insert_ne in Hnone by congruence.
            split; [exact Hnone | congruence].
      - split; [exact Hnone | discriminate]. }
    destruct Hacc as [Hacc Hno]. right. split; [exact Hacc|].
    exists (o :: pre), post. split; [reflexivity|]. split; [exact Hr|].
    intros o' Ho'. apply elem_of_cons in Ho' as [-> | Ho']; [exact Hno | exact (Hpre o' Ho')].
Qed.

Lemma addMapping_fold (orIdSet : gset string) (nameToOrId : gmap string string)
    (models : list string) :
  ∀ (acc : gmap string string) (id r : string),
    (fold_left (addMapping orIdSet nameToOrId) models acc) !! id = Some r →
    acc !! id = Some r
    ∨ (id ∈ models ∧ id ≠ "auto"%string
       ∧ ((id ∈ orIdSet ∧ r = id)
          ∨ ((id ∉ orIdSet)
             ∧ (∃ name, namePart id = Some name ∧ nameToOrId !! name = Some r)))).
Proof.
  induction models as [|m l IH]; intros acc id r H; [left; exact H|].
  cbn [fold_left] in H. apply IH in H as [H | (Hin & Hrest)].
  - unfold addMapping in H.
    destruct (String.eqb_spec m "auto") as [-> | Hauto]; [left; exact H|].
    destruct (decide (id = m)) as [-> | Hne].
    + destruct (bool_decide_reflect (m ∈ orIdSet)) as [Hs | Hs].
      * rewrite lookup_insert_eq in H. injection H as <-.
        right. split; [left|]. split; [exact Hauto|]. left. auto.
      * destruct (namePart m) as [name|] eqn:Hn; [|left; exact H].
        destruct (nameToOrId !! name) as [orId|] eqn:Ho; [|left; exact H].
        destruct (truthy orId); [|left; exact H].
        rewrite lookup_insert_eq in H. injection H as <-.
        right. split; [left|]. split; [exact Hauto|]. right. split; [exact Hs|].
        exists name. auto.
    + left. destruct (bool_decide (m ∈ orIdSet)).
      * rewrite lookup_insert_ne in H by congruence. exact H.
      * destruct (namePart m) as [name|]; [|exact H].
        destruct (nameToOrId !! name) as [orId|]; [|exact H].
        destruct (truthy orId); [|exact H].
        rewrite lookup_insert_ne in H by congruence. exact H.
  - right. split; [right; exact Hin | exact Hrest].
Qed.

Section OpenRouterModelProperties.

Variable BLOCKRUN_MODELS : list string.

(** X26.  The id that [resolveOpenRouterModelId] returns after a
    refresh.  An id of the catalog is returned as it is; an id that is
    changed is an id of [BLOCKRUN_MODELS] that the catalog does not
    have, and becomes the first id of the catalog with the same name
    after the first slash; any other id, and every id before the first
    refresh, is returned as it is. *)
Theorem resolveOpenRouterModelId_catalog (orModels : list string) (id : string) :
  let resolved :=
    resolveOpenRouterModelId (Some (refreshOpenRouterModels BLOCKRUN_MODELS orModels)) id in
  (id ∈ orModels → resolved = id)
  ∧ (resolved ≠ id →
     id ∈ BLOCKRUN_MODELS ∧ (id ∉ orModels)
     ∧ (∃ name pre post,
          namePart id = Some name ∧ namePart resolved = Some name
          ∧ orModels = pre ++ resolved :: post
          ∧ ∀ o, o ∈ pre → namePart o ≠ Some name))
  ∧ resolveOpenRouterModelId None id = id.
Proof.
  cbv zeta. unfold resolveOpenRouterModelId, refreshOpenRouterModels.
  set (orIdSet := list_to_set orModels : gset string).
  set (nameToOrId := fold_left addName orModels ∅).
  destruct ((fold_left (addMapping orIdSet nameToOrId) BLOCKRUN_MODELS ∅) !! id)
    as [r|] eqn:H;
    simpl; [|split; [auto | split; [intros Hne; congruence | reflexivity]]].
  apply addMapping_fold in H as [H | (Hin & _ & Hcase)];
    [rewrite lookup_empty in H; discriminate H|].
  split; [|split; [|reflexivity]].
  - intros Hcat. destruct Hcase as [[_ ->] | [Hno _]]; [reflexivity|].
    exfalso. apply Hno. unfold orIdSet. apply elem_of_list_to_set. exact Hcat.
  - intros Hne. destruct Hcase as [[_ ->] | (Hno & name & Hname & Hlook)]; [congruence|].
    split; [exact Hin|]. split.
    { intros Hcat. apply Hno. unfold orIdSet. apply elem_of_list_to_set. exact Hcat. }
    unfold nameToOrId in Hlook.
    apply addName_fold in Hlook as [Hlook | (_ & pre & post & Heq & Hr & Hpre)];
      [rewrite lookup_empty in Hlook; discriminate Hlook|].
    exists name, pre, post. auto.
Qed.

End OpenRouterModelProperties.

Lemma resolveOpenRouterModelId_catalog_witness :
  let models := [ "auto"; "moonshot/kimi-k2.5"; "openai/gpt-4o" ]%string in
  let orModels := [ "openai/gpt-4o"; "moonshotai/kimi-k2.5"; "other/kimi-k2.5" ]%string in
  resolveOpenRouterModelId (Some (refreshOpenRouterModels models orModels)) "moonshot/kimi-k2.5"
  = "moonshotai/kimi-k2.5"%string
  ∧ "moonshot/kimi-k2.5"%string ∈ models.
Proof.
  cbv zeta. split; [vm_compute; reflexivity|].
  refine (proj1 (proj1 (proj2 (resolveOpenRouterModelId_catalog
                                 [ "auto"; "moonshot/kimi-k2.5"; "openai/gpt-4o" ]%string
                                 [ "openai/gpt-4o"; "moonshotai/kimi-k2.5";
                                   "other/kimi-k2.5" ]%string
                                 "moonshot/kimi-k2.5")) _)).
  vm_compute. discriminate.
Defined.

(** ** A messages-dialect reply on the streaming path *)

Section MessagesReplyProperties.

Variable ToolCall : Type.

(** X27.  A JSON reply of the messages dialect ([type: "message"] with a
    [content]) is streamed as one choice of index 0: a role frame
    [assistant], a content frame with the texts of its [text] blocks
    joined and passed through [stripThinkingTokens] (none when that is
    empty), a finish frame, then [data: [DONE]].  Its other blocks
    ([tool_use] among them) are dropped: no tool-call frame is
    written. *)
Theorem messages_reply_streamed
    (jsonStr : jsstring) (rawParsed : UpstreamJson ToolCall)
    (blocks : list AnthropicBlock) :
  isSSE jsonStr = false →
  json_type _ rawParsed = Some "message"%string →
  json_content _ rawParsed = Some blocks →
  let text :=
    stripThinkingTokens
      (concat (map (λ b, default [] (block_text b))
                   (filter (λ b, block_type b = "text"%string) blocks))) in
  ∃ finish,
    streamUpstream jsonStr (Some rawParsed)
    = [ WriteChunk {| chunk_index := 0; chunk_choice_delta := DeltaRole "assistant";
                      chunk_finish_reason := None |} ]
      ++ (if js_truthy text
          then [ WriteChunk {| chunk_index := 0; chunk_choice_delta := DeltaContent text;
                               chunk_finish_reason := None |} ]
          else [])
      ++ [ WriteChunk {| chunk_index := 0; chunk_choice_delta := DeltaEmpty;
                         chunk_finish_reason := Some finish |};
           WriteText (lit "data: [DONE]" ++ [NL; NL]) ]
    ∧ (json_stop_reason _ rawParsed = None
       ∨ json_stop_reason _ rawParsed = Some "end_turn"%string
       ∨ json_stop_reason _ rawParsed = Some ""%string → finish = "stop"%string)
    ∧ (finish ≠ "stop"%string → json_stop_reason _ rawParsed = Some finish)
    ∧ Forall (λ w, ∀ c t, w = WriteChunk c → chunk_choice_delta _ c ≠ DeltaToolCalls t)
             (streamUpstream jsonStr (Some rawParsed)).
Proof.
  intros Hsse Htype Hcontent text.
  assert (Hmsg : isAnthropicMessage rawParsed = true).
  { unfold isAnthropicMessage. rewrite Htype, Hcontent.
    rewrite bool_decide_eq_true_2 by reflexivity. reflexivity. }
  set (finish :=
         match json_stop_reason _ rawParsed with
         | Some reason =>
             if String.eqb reason "end_turn" then "stop"%string
             else if truthy reason then reason else "stop"%string
         | None => "stop"%string
         end).
  assert (Hstream :
    streamUpstream jsonStr (Some rawParsed)
    = [ WriteChunk {| chunk_index := 0; chunk_choice_delta := DeltaRole "assistant";
                      chunk_finish_reason := None |} ]
      ++ (if js_truthy text
          then [ WriteChunk {| chunk_index := 0; chunk_choice_delta := DeltaContent text;
                               chunk_finish_reason := None |} ]
          else [])
      ++ [ WriteChunk {| chunk_index := 0; chunk_choice_delta := DeltaEmpty;
                         chunk_finish_reason := Some finish |};
           WriteText (lit "data: [DONE]" ++ [NL; NL]) ]).
  { unfold streamUpstream. rewrite Hsse, Hmsg.
    unfold convertAnthropicResponseToOpenAI. rewrite Hcontent.
    cbn [json_choices map concat]. rewrite app_nil_r.
    unfold chunksOfChoice, rawContentOf.
    cbn [choice_message choice_delta choice_index choice_finish_reason
         part_content part_role part_tool_calls mbind option_bind nullish
         from_option id].
    fold text. fold finish.
    destruct (js_truthy text); reflexivity. }
  exists finish. split; [exact Hstream|]. split; [|split].
  - unfold finish. intros [-> | [-> | ->]]; reflexivity.
  - unfold finish. destruct (json_stop_reason _ rawParsed) as [reason|]; [|congruence].
    destruct (String.eqb reason "end_turn"); [congruence|].
    destruct (truthy reason); congruence.
  - rewrite Hstream. apply Forall_forall. intros w Hw c t ->.
    apply elem_of_app in Hw as [Hw | Hw];
      [|apply elem_of_app in Hw as [Hw | Hw]; [destruct (js_truthy text)|]];
      repeat (apply elem_of_cons in Hw as [Hw | Hw];
              [first [injection Hw as ->; discriminate | discriminate Hw]|]);
      apply elem_of_nil in Hw; destruct Hw.
Qed.

End MessagesReplyProperties.

Lemma messages_reply_streamed_witness :
  let rawParsed : UpstreamJson unit :=
    {| json_type := Some "message"%string;
       json_content :=
         Some [ {| block_type := "text"; block_text := Some (lit "Hello") |};
                {| block_type := "tool_use"; block_text := None |} ];
       json_stop_reason := Some "end_turn"%string;
       json_choices := None |} in
  contentsWritten (streamUpstream (lit "{}") (Some rawParsed)) = [ lit "Hello" ].
Proof.
  cbv zeta.
  match goal with
  | |- contentsWritten (streamUpstream ?j (Some ?r)) = _ =>
      destruct (messages_reply_streamed unit j r
                  [ {| block_type := "text"; block_text := Some (lit "Hello") |};
                    {| block_type := "tool_use"; block_text := None |} ]
                  eq_refl eq_refl eq_refl) as (finish & Hs & _);
      rewrite Hs
  end.
  vm_compute. reflexivity.
Defined.
